(** * Shared Moments: authentication, Drive listing and photo aggregation

    A shallow embedding of the TypeScript sources of the slideshow client
    (GoogleAuthService, GoogleDriveService, the handlers of the settings
    dialog and the aggregation, navigation and settings handlers of App.tsx),
    with the properties of its specification proved against the code.

    Conventions of the embedding.
    - A JavaScript string is a [string]; its characters stand for UTF-16 code
      units below 256.
    - Values follow the types that the sources declare.  Where the program
      reads text back with [JSON.parse], the text is parsed by an embedded
      JSON parser and the value is read at the declared type; a function whose
      input lies outside that type yields [None].
    - [localStorage] is a finite map from keys to string values.
    - A JavaScript exception is the [Throw] case of [Result]; a function that
      wraps its body in try/catch has the handler written out.
    - The network is an oracle: a function from the request a service issues
      to what [fetch] yields, the same each time the request is sent.  Every
      request issued is appended to a log, so that statements can speak about
      the calls that were made.
    - An async function runs to completion where it is awaited.
      [processAuthCode], which the constructor calls without awaiting it, is
      split at its first [await].
    - JavaScript numbers that occur (indices, time stamps in milliseconds) are
      integers far below 2^53 and are modelled in [Z].
    - The state of a React component is a record, or the pieces of it that a
      handler reads; a handler maps the state and the world to the new ones,
      and an effect is a function of its own. *)

From Stdlib Require Import ZArith String Ascii List Bool Lia.
From stdpp Require Import base option list gmap strings pretty.

Local Open Scope string_scope.
Local Open Scope Z_scope.

(** Appending to a string literal computes under [simpl]. *)
#[local] Arguments String.append !_ _ / : simpl nomatch.

(** ** Exceptions *)

Inductive JsError : Type :=
  | TypeError
  | SyntaxError
  | FetchRejected
  | ErrorMsg (msg : string)
  | DriveApiError (status : Z) (errorText : string).

Inductive Result (A : Type) : Type :=
  | Ok (a : A)
  | Throw (e : JsError).

Arguments Ok {A} a.
Arguments Throw {A} e.

(** ** String.prototype methods used by the sources *)

Module JsString.

(** [strip_prefix p s] is the rest of [s] after its prefix [p], when [s]
    starts with [p]. *)
Fixpoint strip_prefix (p s : string) : option string :=
  match p with
  | EmptyString => Some s
  | String a p' =>
      match s with
      | EmptyString => None
      | String b s' => if Ascii.eqb a b then strip_prefix p' s' else None
      end
  end.

(** [s.startsWith(p)] *)
Definition startsWith (p s : string) : bool :=
  match strip_prefix p s with Some _ => true | None => false end.

(** [cut sep s] locates the first occurrence of [sep] in [s] and returns what
    stands before it and what stands after it. *)
Fixpoint cut (sep s : string) : option (string * string) :=
  match strip_prefix sep s with
  | Some rest => Some (EmptyString, rest)
  | None =>
      match s with
      | EmptyString => None
      | String c s' =>
          match cut sep s' with
          | Some (before, after) => Some (String c before, after)
          | None => None
          end
      end
  end.

(** [s.includes(sub)] *)
Definition includes (sub s : string) : bool :=
  match cut sub s with Some _ => true | None => false end.

(** [s.split(sep)] for a separator that is not empty: the pieces between
    successive occurrences of [sep], found from left to right.  Every cut
    consumes at least one character, so [length s] rounds are enough. *)
Fixpoint split_aux (fuel : nat) (sep s : string) : list string :=
  match fuel with
  | O => [s]
  | S fuel' =>
      match cut sep s with
      | None => [s]
      | Some (before, after) => before :: split_aux fuel' sep after
      end
  end.

Definition split (sep s : string) : list string :=
  split_aux (String.length s) sep s.

(** [takeWhile f s]: the longest prefix of [s] whose characters satisfy [f]. *)
Fixpoint takeWhile (f : ascii -> bool) (s : string) : string :=
  match s with
  | EmptyString => EmptyString
  | String c s' => if f c then String c (takeWhile f s') else EmptyString
  end.

(** A string is truthy when it is not empty. *)
Definition not_empty (s : string) : bool :=
  match s with EmptyString => false | String _ _ => true end.

End JsString.

(** ** JSON text

    [JSON.parse] is embedded as a recursive-descent parser of the JSON grammar.
    A number keeps the text of its literal; the sources never compute with a
    parsed number. *)

Module Json.

#[warnings="-register-all"]
Inductive JsVal : Type :=
  | JNull
  | JBool (b : bool)
  | JNum (literal : string)
  | JStr (s : string)
  | JArr (items : list JsVal)
  | JObj (props : list (string * JsVal)).

(** Why a parser step fails: the text is not JSON ([SyntaxError]); the text
    denotes a value that has no counterpart in the embedding (an escape for a
    code unit above 255); the recursion has used up its fuel, which
    [JSON_parse] is shown never to do. *)
Inductive Failure : Type :=
  | Syntax
  | Outside
  | Fuel.

(** What a parser step yields: a value and the unread rest, or a failure. *)
Inductive PResult (A : Type) : Type :=
  | POk (a : A) (rest : string)
  | PFail (why : Failure).

Arguments POk {A} a rest.
Arguments PFail {A} why.

Abbreviation PSyntax := (PFail Syntax).
Abbreviation POutside := (PFail Outside).
Abbreviation PFuel := (PFail Fuel).

Definition dquote : ascii := "034"%char.
Definition backslash : ascii := "092"%char.

Definition is_ws (c : ascii) : bool :=
  match c with
  | " "%char | "009"%char | "010"%char | "013"%char => true
  | _ => false
  end.

Fixpoint skip_ws (s : string) : string :=
  match s with
  | String c s' => if is_ws c then skip_ws s' else s
  | EmptyString => s
  end.

Definition hex_val (c : ascii) : option N :=
  let n := N_of_ascii c in
  if (48 <=? n)%N && (n <=? 57)%N then Some (n - 48)%N
  else if (97 <=? n)%N && (n <=? 102)%N then Some (n - 87)%N
  else if (65 <=? n)%N && (n <=? 70)%N then Some (n - 55)%N
  else None.

Definition hex_digit (n : N) : ascii :=
  if (n <? 10)%N then ascii_of_N (48 + n) else ascii_of_N (87 + n).

(** The characters of a string literal after its opening quote, up to and
    including the closing quote. *)
Fixpoint parse_chars (s : string) : PResult string :=
  match s with
  | EmptyString => PSyntax
  | String c r =>
      if Ascii.eqb c dquote then POk EmptyString r
      else if Ascii.eqb c backslash then
        match r with
        | EmptyString => PSyntax
        | String e r1 =>
            let simple (d : ascii) :=
              match parse_chars r1 with
              | POk t rest => POk (String d t) rest
              | PFail why => PFail why
              end in
            if Ascii.eqb e dquote then simple dquote
            else if Ascii.eqb e backslash then simple backslash
            else if Ascii.eqb e "/" then simple "/"%char
            else if Ascii.eqb e "b" then simple "008"%char
            else if Ascii.eqb e "f" then simple "012"%char
            else if Ascii.eqb e "n" then simple "010"%char
            else if Ascii.eqb e "r" then simple "013"%char
            else if Ascii.eqb e "t" then simple "009"%char
            else if Ascii.eqb e "u" then
              match r1 with
              | String h1 (String h2 (String h3 (String h4 r2))) =>
                  match hex_val h1, hex_val h2, hex_val h3, hex_val h4 with
                  | Some a, Some b, Some c', Some d =>
                      match parse_chars r2 with
                      | POk t rest =>
                          if ((a =? 0) && (b =? 0))%N
                          then POk (String (ascii_of_N (16 * c' + d)) t) rest
                          else POutside
                      | PFail why => PFail why
                      end
                  | _, _, _, _ => PSyntax
                  end
              | _ => PSyntax
              end
            else PSyntax
        end
      else if (N_of_ascii c <? 32)%N then PSyntax
      else
        match parse_chars r with
        | POk t rest => POk (String c t) rest
        | PFail why => PFail why
        end
  end.

Definition is_digit (c : ascii) : bool :=
  let n := N_of_ascii c in (48 <=? n)%N && (n <=? 57)%N.

(** The digits at the head of [s], and the rest. *)
Fixpoint span_digits (s : string) : string * string :=
  match s with
  | String c s' =>
      if is_digit c then let '(d, r) := span_digits s' in (String c d, r)
      else (EmptyString, s)
  | EmptyString => (EmptyString, s)
  end.

(** The parts of a number literal: an optional minus sign; then either a
    single 0 or a run of digits; then optionally a dot and at least one
    digit; then optionally e or E, an optional sign and at least one digit.
    Each reader returns the part it has read and the rest. *)
Definition read_sign (s : string) : string * string :=
  match s with
  | String c r => if Ascii.eqb c "-" then ("-", r) else (EmptyString, s)
  | EmptyString => (EmptyString, s)
  end.

Definition read_int (s : string) : string * string :=
  match s with
  | String c r => if Ascii.eqb c "0" then ("0", r) else span_digits s
  | EmptyString => (EmptyString, s)
  end.

Definition read_frac (s : string) : option (string * string) :=
  match s with
  | String c r =>
      if Ascii.eqb c "." then
        let '(d, r') := span_digits r in
        if JsString.not_empty d then Some (String c d, r') else None
      else Some (EmptyString, s)
  | EmptyString => Some (EmptyString, s)
  end.

Definition read_exp_sign (s : string) : string * string :=
  match s with
  | String c r =>
      if Ascii.eqb c "+" || Ascii.eqb c "-"
      then (String c EmptyString, r)
      else (EmptyString, s)
  | EmptyString => (EmptyString, s)
  end.

Definition read_exp (s : string) : option (string * string) :=
  match s with
  | String c r =>
      if Ascii.eqb c "e" || Ascii.eqb c "E" then
        let '(sg, r1) := read_exp_sign r in
        let '(d, r2) := span_digits r1 in
        if JsString.not_empty d then Some (String c (sg ++ d), r2) else None
      else Some (EmptyString, s)
  | EmptyString => Some (EmptyString, s)
  end.

Definition parse_number (s : string) : PResult string :=
  let '(sign, s1) := read_sign s in
  let '(int, s2) := read_int s1 in
  if negb (JsString.not_empty int) then PSyntax
  else
    match read_frac s2 with
    | None => PSyntax
    | Some (frac, s3) =>
        match read_exp s3 with
        | None => PSyntax
        | Some (exp, s4) => POk (sign ++ int ++ frac ++ exp) s4
        end
    end.

(** Assigning a property while an object is built: a repeated key keeps its
    place and takes the later value. *)
Fixpoint obj_set (k : string) (v : JsVal) (props : list (string * JsVal))
  : list (string * JsVal) :=
  match props with
  | [] => [(k, v)]
  | (k', v') :: ps =>
      if String.eqb k k' then (k, v) :: ps else (k', v') :: obj_set k v ps
  end.

Inductive Mode : Type :=
  | MValue
  | MElems (acc : list JsVal)
  | MMembers (acc : list (string * JsVal)).

(** [parse fuel MValue s] reads one value at the head of [s];
    [parse fuel (MElems acc) s] reads the elements of an array after its
    opening bracket, [parse fuel (MMembers acc) s] the members of an object
    after its opening brace. *)
Fixpoint parse (fuel : nat) (m : Mode) (s : string) : PResult JsVal :=
  match fuel with
  | O => PFuel
  | S f =>
      match m with
      | MValue =>
          match skip_ws s with
          | EmptyString => PSyntax
          | String c r =>
              if Ascii.eqb c dquote then
                match parse_chars r with
                | POk t rest => POk (JStr t) rest
                | PFail why => PFail why
                end
              else if Ascii.eqb c "{" then
                match skip_ws r with
                | String c' rest =>
                    if Ascii.eqb c' "}" then POk (JObj []) rest
                    else parse f (MMembers []) (String c' rest)
                | EmptyString => PSyntax
                end
              else if Ascii.eqb c "[" then
                match skip_ws r with
                | String c' rest =>
                    if Ascii.eqb c' "]" then POk (JArr []) rest
                    else parse f (MElems []) (String c' rest)
                | EmptyString => PSyntax
                end
              else if Ascii.eqb c "t" then
                match JsString.strip_prefix "rue" r with
                | Some rest => POk (JBool true) rest
                | None => PSyntax
                end
              else if Ascii.eqb c "f" then
                match JsString.strip_prefix "alse" r with
                | Some rest => POk (JBool false) rest
                | None => PSyntax
                end
              else if Ascii.eqb c "n" then
                match JsString.strip_prefix "ull" r with
                | Some rest => POk JNull rest
                | None => PSyntax
                end
              else
                match parse_number (String c r) with
                | POk lit rest => POk (JNum lit) rest
                | PFail why => PFail why
                end
          end
      | MElems acc =>
          match parse f MValue s with
          | POk v r =>
              match skip_ws r with
              | String c' r' =>
                  if Ascii.eqb c' "," then parse f (MElems (acc ++ [v])) r'
                  else if Ascii.eqb c' "]" then POk (JArr (acc ++ [v])) r'
                  else PSyntax
              | EmptyString => PSyntax
              end
          | PFail why => PFail why
          end
      | MMembers acc =>
          match skip_ws s with
          | String c r =>
              if Ascii.eqb c dquote then
                match parse_chars r with
                | POk k r1 =>
                    match skip_ws r1 with
                    | String c1 r2 =>
                        if Ascii.eqb c1 ":" then
                          match parse f MValue r2 with
                          | POk v r3 =>
                              match skip_ws r3 with
                              | String c3 r4 =>
                                  if Ascii.eqb c3 "," then
                                    parse f (MMembers (obj_set k v acc)) r4
                                  else if Ascii.eqb c3 "}" then
                                    POk (JObj (obj_set k v acc)) r4
                                  else PSyntax
                              | EmptyString => PSyntax
                              end
                          | PFail why => PFail why
                          end
                        else PSyntax
                    | EmptyString => PSyntax
                    end
                | PFail why => PFail why
                end
              else PSyntax
          | EmptyString => PSyntax
          end
      end
  end.

(** [JSON.parse(text)]: one value, with only white space after it.  Twice
    the length of the text, and one, is fuel enough. *)
Definition JSON_parse (text : string) : PResult JsVal :=
  match parse (2 * String.length text + 1) MValue text with
  | POk v rest =>
      match skip_ws rest with
      | EmptyString => POk v EmptyString
      | _ => PSyntax
      end
  | PFail why => PFail why
  end.

(** [JSON.stringify] of a string: QuoteJSONString. *)
Definition escape_char (c : ascii) : string :=
  if Ascii.eqb c dquote then String backslash (String dquote EmptyString)
  else if Ascii.eqb c backslash then String backslash (String backslash EmptyString)
  else if Ascii.eqb c "008" then String backslash "b"
  else if Ascii.eqb c "012" then String backslash "f"
  else if Ascii.eqb c "010" then String backslash "n"
  else if Ascii.eqb c "013" then String backslash "r"
  else if Ascii.eqb c "009" then String backslash "t"
  else if (N_of_ascii c <? 32)%N then
    String backslash
      (String "u" (String "0" (String "0"
         (String (hex_digit (N_of_ascii c / 16))
            (String (hex_digit (N_of_ascii c mod 16)) EmptyString)))))
  else String c EmptyString.

Fixpoint escape (s : string) : string :=
  match s with
  | EmptyString => EmptyString
  | String c s' => escape_char c ++ escape s'
  end.

Definition quote (s : string) : string :=
  String dquote (escape s ++ String dquote EmptyString).

(** [JSON.stringify] of a [string[]]. *)
Fixpoint join_quoted (l : list string) : string :=
  match l with
  | [] => EmptyString
  | [x] => quote x
  | x :: r => quote x ++ "," ++ join_quoted r
  end.

Definition stringifyStrings (l : list string) : string :=
  "[" ++ join_quoted l ++ "]".

(** Reading a property of a parsed object. *)
Fixpoint get_prop (k : string) (props : list (string * JsVal)) : option JsVal :=
  match props with
  | [] => None
  | (k', v) :: ps => if String.eqb k k' then Some v else get_prop k ps
  end.

(** A parsed value seen as a [string[]]. *)
Fixpoint as_strings (items : list JsVal) : option (list string) :=
  match items with
  | [] => Some []
  | JStr s :: r =>
      match as_strings r with Some l => Some (s :: l) | None => None end
  | _ :: _ => None
  end.

End Json.

(** ** The environment of the services *)

(** A value of type [string | null] is truthy when it is a string that is
    not empty. *)
Definition truthy (o : option string) : bool :=
  match o with
  | Some s => JsString.not_empty s
  | None => false
  end.

(** What [fetch] resolves to: the status and the body, as text and as the
    typed value that [response.json()] yields. *)
Record Response (A : Type) : Type := mkResponse {
  ok : bool;
  status : Z;
  text : string;
  json : Result A
}.

Arguments mkResponse {A}.
Arguments ok {A}.
Arguments status {A}.
Arguments text {A}.
Arguments json {A}.

(** The body of the token endpoint's answer, as far as the code reads it. *)
Record TokenData : Type := mkTokenData {
  access_token : option string
}.

(** The body of the user-info endpoint's answer, as far as the code reads it. *)
Record UserInfo : Type := mkUserInfo {
  info_id : string;
  info_email : string;
  info_name : string;
  info_picture : option string
}.

(** An entry of [response.files] of the file-listing endpoint. *)
Record DriveFile : Type := mkDriveFile {
  file_id : string;
  file_name : string;
  file_mimeType : string;
  file_webContentLink : option string;
  file_size : string
}.

(** The requests the services issue. *)
Inductive Request : Type :=
  | TokenRequest (client_id client_secret code grant_type redirect_uri : string)
  | UserInfoRequest (authorization : string)
  | DriveRequest (endpoint : string) (params : list (string * string))
      (authorization : string).

(** The remote services: what each request is answered with.  [Throw] stands
    for a rejected [fetch]. *)
Record Network : Type := mkNetwork {
  token_endpoint : Request -> Result (Response TokenData);
  userinfo_endpoint : Request -> Result (Response UserInfo);
  drive_endpoint : Request -> Result (Response (list DriveFile))
}.

(** [process.env] *)
Record Env : Type := mkEnv {
  REACT_APP_GOOGLE_CLIENT_ID : option string;
  REACT_APP_GOOGLE_CLIENT_SECRET : option string
}.

(** The interface [GoogleUser] of GoogleAuthService. *)
Module GoogleUser.
Record t : Type := mk {
  id : string;
  email : string;
  name : string;
  photo : option string
}.
End GoogleUser.

(** The interface [DrivePhoto] of GoogleDriveService. *)
Module DrivePhoto.
Record t : Type := mk {
  id : string;
  name : string;
  mimeType : string;
  thumbnailLink : option string;
  webContentLink : option string;
  size : string
}.
End DrivePhoto.

(** The two singleton services, [localStorage], and what the program has sent
    to the network and to [console.error] so far. *)
Record World : Type := mkWorld {
  localStorage : gmap string string;
  isConfigured : bool;
  currentUser : option GoogleUser.t;
  accessToken : option string;
  driveAccessToken : option string;
  requests : list Request;
  errors : list string
}.

Definition set_localStorage (f : gmap string string -> gmap string string)
  (w : World) : World :=
  mkWorld (f (localStorage w)) (isConfigured w) (currentUser w) (accessToken w)
    (driveAccessToken w) (requests w) (errors w).

Definition set_isConfigured (b : bool) (w : World) : World :=
  mkWorld (localStorage w) b (currentUser w) (accessToken w)
    (driveAccessToken w) (requests w) (errors w).

Definition set_currentUser (u : option GoogleUser.t) (w : World) : World :=
  mkWorld (localStorage w) (isConfigured w) u (accessToken w)
    (driveAccessToken w) (requests w) (errors w).

Definition set_accessToken (t : option string) (w : World) : World :=
  mkWorld (localStorage w) (isConfigured w) (currentUser w) t
    (driveAccessToken w) (requests w) (errors w).

Definition set_driveAccessToken (t : option string) (w : World) : World :=
  mkWorld (localStorage w) (isConfigured w) (currentUser w) (accessToken w)
    t (requests w) (errors w).

(** [fetch]: the request goes into the log. *)
Definition send (r : Request) (w : World) : World :=
  mkWorld (localStorage w) (isConfigured w) (currentUser w) (accessToken w)
    (driveAccessToken w) (requests w ++ [r]) (errors w).

(** [console.error(label, ...)]; the label is kept, without its emoji. *)
Definition console_error (label : string) (w : World) : World :=
  mkWorld (localStorage w) (isConfigured w) (currentUser w) (accessToken w)
    (driveAccessToken w) (requests w) (errors w ++ [label]).

(** [localStorage.getItem], [setItem] and [removeItem]. *)
Definition getItem (k : string) (w : World) : option string :=
  localStorage w !! k.

Definition setItem (k v : string) (w : World) : World :=
  set_localStorage (fun m => <[k:=v]> m) w.

Definition removeItem (k : string) (w : World) : World :=
  set_localStorage (fun m => delete k m) w.

(** ** GoogleDriveService *)

Module GoogleDriveService.

(** [setAccessToken(token)] *)
Definition setAccessToken (token : option string) (w : World) : World :=
  set_driveAccessToken token w.

(** The text a template literal inserts for [this.accessToken]. *)
Definition token_text (t : option string) : string :=
  match t with
  | Some s => s
  | None => "null"
  end.

(** [makeDriveRequest(endpoint, params)] *)
Definition makeDriveRequest (net : Network) (endpoint : string)
  (params : list (string * string)) (w : World)
  : World * Result (list DriveFile) :=
  if negb (truthy (driveAccessToken w)) then
    (w, Throw (ErrorMsg "No access token available"))
  else
    let req :=
      DriveRequest endpoint params ("Bearer " ++ token_text (driveAccessToken w)) in
    let w1 := send req w in
    match drive_endpoint net req with
    | Throw e => (w1, Throw e)
    | Ok response =>
        if negb (ok response)
        then (w1, Throw (DriveApiError (status response) (text response)))
        else (w1, json response)
    end.

(** [folderId.includes('folders/') ?
      folderId.split('folders/')[1].split('?')[0] : folderId].
    Indexing past the end of an array yields [undefined]: calling [split] on
    it is a [TypeError], and a template literal prints it as "undefined". *)
Definition actualFolderId (folderId : string) : Result string :=
  if JsString.includes "folders/" folderId then
    match JsString.split "folders/" folderId !! 1%nat with
    | Some part =>
        match JsString.split "?" part !! 0%nat with
        | Some first => Ok first
        | None => Ok "undefined"
        end
    | None => Throw TypeError
    end
  else Ok folderId.

Definition listing_params (actual : string) : list (string * string) :=
  [ ("q", "'" ++ actual ++ "' in parents and trashed=false");
    ("fields", "files(id,name,mimeType,thumbnailLink,webContentLink,size)");
    ("pageSize", "100") ].

(** The thumbnail URL built for a file. *)
Definition imageUrl (id : string) : string :=
  "https://drive.google.com/thumbnail?id=" ++ id ++ "&sz=w800".

(** The callback of [imageFiles.map]. *)
Definition toPhoto (token : option string) (file : DriveFile) : DrivePhoto.t :=
  DrivePhoto.mk
    (file_id file)
    (file_name file)
    (file_mimeType file)
    (Some (imageUrl (file_id file)))
    (match file_webContentLink file with
     | Some link =>
         if JsString.not_empty link
         then Some (link ++ "&access_token=" ++ token_text token)
         else None
     | None => None
     end)
    (file_size file).

Definition isImage (file : DriveFile) : bool :=
  JsString.startsWith "image/" (file_mimeType file).

(** [listPhotosInFolder(folderId)]: the catch clause logs the error and
    throws it again. *)
Definition listPhotosInFolder (net : Network) (folderId : string) (w : World)
  : World * Result (list DrivePhoto.t) :=
  let attempt :=
    match actualFolderId folderId with
    | Throw e => (w, Throw e)
    | Ok actual =>
        match makeDriveRequest net "files" (listing_params actual) w with
        | (w1, Throw e) => (w1, Throw e)
        | (w1, Ok files) =>
            let imageFiles := List.filter isImage files in
            (w1, Ok (List.map (toPhoto (driveAccessToken w1)) imageFiles))
        end
    end in
  match attempt with
  | (w1, Throw e) => (console_error "Error listing photos:" w1, Throw e)
  | (w1, Ok photos) => (w1, Ok photos)
  end.

(** An entry of the array that [listFoldersInFolder] returns. *)
Record DriveFolder : Type := mkDriveFolder {
  folder_id : string;
  folder_name : string;
  folder_mimeType : string
}.

Definition folders_params (folderId : string) : list (string * string) :=
  [ ("q", "'" ++ folderId
          ++ "' in parents and mimeType='application/vnd.google-apps.folder' and trashed=false");
    ("fields", "files(id,name,mimeType)");
    ("pageSize", "100") ].

(** The callback of [response.files.map]. *)
Definition toFolder (folder : DriveFile) : DriveFolder :=
  mkDriveFolder (file_id folder) (file_name folder) (file_mimeType folder).

(** [listFoldersInFolder(folderId)]: the argument goes into the query as it
    is; the catch clause logs the error and throws it again. *)
Definition listFoldersInFolder (net : Network) (folderId : string) (w : World)
  : World * Result (list DriveFolder) :=
  match makeDriveRequest net "files" (folders_params folderId) w with
  | (w1, Throw e) => (console_error "Error listing folders:" w1, Throw e)
  | (w1, Ok files) => (w1, Ok (List.map toFolder files))
  end.

(** The body of the answer to a request for one file, as far as the code
    reads it. *)
Record FileFields : Type := mkFileFields {
  fields_webContentLink : option string;
  fields_thumbnailLink : option string
}.

(** The endpoint of a single file: what a request is answered with. *)
Definition FileEndpoint : Type := Request -> Result (Response FileFields).

(** [makeDriveRequest(endpoint, params)] where the endpoint is that of a
    single file. *)
Definition makeFileRequest (file : FileEndpoint) (endpoint : string)
  (params : list (string * string)) (w : World)
  : World * Result FileFields :=
  if negb (truthy (driveAccessToken w)) then
    (w, Throw (ErrorMsg "No access token available"))
  else
    let req :=
      DriveRequest endpoint params ("Bearer " ++ token_text (driveAccessToken w)) in
    let w1 := send req w in
    match file req with
    | Throw e => (w1, Throw e)
    | Ok response =>
        if negb (ok response)
        then (w1, Throw (DriveApiError (status response) (text response)))
        else (w1, json response)
    end.

(** [getPhotoDownloadUrl(photoId)] *)
Definition getPhotoDownloadUrl (file : FileEndpoint) (photoId : string)
  (w : World) : World * Result string :=
  let attempt :=
    match makeFileRequest file ("files/" ++ photoId)
            [("fields", "webContentLink")] w with
    | (w1, Throw e) => (w1, Throw e)
    | (w1, Ok response) =>
        match fields_webContentLink response with
        | Some link =>
            if JsString.not_empty link
            then (w1, Ok (link ++ "&access_token=" ++ token_text (driveAccessToken w1)))
            else (w1, Throw (ErrorMsg "No download link available for photo"))
        | None => (w1, Throw (ErrorMsg "No download link available for photo"))
        end
    end in
  match attempt with
  | (w1, Throw e) =>
      (console_error "Error getting photo download URL:" w1, Throw e)
  | (w1, Ok url) => (w1, Ok url)
  end.

(** [getPhotoThumbnail(photoId, width)], for a width that is an integer; a
    caller that leaves the width out passes 800.  The fallback is returned
    without [await]: when it fails, the promise that was returned rejects and
    the catch clause of this function does not run. *)
Definition getPhotoThumbnail (file : FileEndpoint) (photoId : string)
  (width : Z) (w : World) : World * Result string :=
  match makeFileRequest file ("files/" ++ photoId)
          [("fields", "thumbnailLink")] w with
  | (w1, Throw e) => (console_error "Error getting photo thumbnail:" w1, Throw e)
  | (w1, Ok response) =>
      match fields_thumbnailLink response with
      | Some link =>
          if JsString.not_empty link then
            let baseUrl :=
              match JsString.split "=" link !! 0%nat with
              | Some first => first
              | None => "undefined"
              end in
            (w1, Ok (baseUrl ++ "=w" ++ pretty width ++ "-h" ++ pretty width ++ "-c"))
          else getPhotoDownloadUrl file photoId w1
      | None => getPhotoDownloadUrl file photoId w1
      end
  end.

End GoogleDriveService.

(** ** URLSearchParams

    [params.toString()] is the application/x-www-form-urlencoded serializer:
    a space becomes a plus sign, the letters, the digits and the four
    characters asterisk, hyphen, full stop and underscore stand for
    themselves, and every other byte of the UTF-8 encoding is written as a
    percent sign and two upper-case hexadecimal digits. *)

Module URLSearchParams.

Definition is_alphanumeric (c : ascii) : bool :=
  let n := N_of_ascii c in
  ((48 <=? n) && (n <=? 57) || (65 <=? n) && (n <=? 90)
   || (97 <=? n) && (n <=? 122))%N.

Definition is_literal (c : ascii) : bool :=
  is_alphanumeric c
  || Ascii.eqb c "*" || Ascii.eqb c "-" || Ascii.eqb c "." || Ascii.eqb c "_".

Definition upper_hex (n : N) : ascii :=
  if (n <? 10)%N then ascii_of_N (48 + n) else ascii_of_N (55 + n).

Definition percent (byte : N) : string :=
  String "%" (String (upper_hex (byte / 16))
                (String (upper_hex (byte mod 16)) EmptyString)).

(** The UTF-8 encoding of a code unit below 256 is one byte below 128 and
    two bytes from there on. *)
Definition encode_char (c : ascii) : string :=
  let n := N_of_ascii c in
  if Ascii.eqb c " " then "+"
  else if is_literal c then String c EmptyString
  else if (n <? 128)%N then percent n
  else percent (192 + n / 64) ++ percent (128 + n mod 64).

Fixpoint encode (s : string) : string :=
  match s with
  | EmptyString => EmptyString
  | String c s' => encode_char c ++ encode s'
  end.

(** [new URLSearchParams(record).toString()], the record given as the list
    of its entries in the order they were written. *)
Fixpoint toString (params : list (string * string)) : string :=
  match params with
  | [] => EmptyString
  | [(k, v)] => encode k ++ "=" ++ encode v
  | (k, v) :: rest => encode k ++ "=" ++ encode v ++ "&" ++ toString rest
  end.

End URLSearchParams.

(** ** GoogleAuthService *)

Module GoogleAuthService.

Import Json.

(** [configureGoogleSignIn()] *)
Definition configureGoogleSignIn (w : World) : World :=
  if isConfigured w then w else set_isConfigured true w.

(** [getCurrentUser()], [isSignedIn()] and [getAccessToken()] *)
Definition getCurrentUser (w : World) : option GoogleUser.t := currentUser w.

Definition isSignedIn (w : World) : bool :=
  match currentUser w with Some _ => true | None => false end.

Definition getAccessToken (w : World) : option string := accessToken w.

(** [JSON.stringify(user)] for a [GoogleUser]: the properties in the order of
    the interface, a [photo] that is undefined left out. *)
Definition stringifyUser (user : GoogleUser.t) : string :=
  "{" ++ quote "id" ++ ":" ++ quote (GoogleUser.id user)
  ++ "," ++ quote "email" ++ ":" ++ quote (GoogleUser.email user)
  ++ "," ++ quote "name" ++ ":" ++ quote (GoogleUser.name user)
  ++ match GoogleUser.photo user with
     | Some p => "," ++ quote "photo" ++ ":" ++ quote p
     | None => EmptyString
     end
  ++ "}".

(** A parsed value read through the interface [GoogleUser]. *)
Definition as_GoogleUser (v : JsVal) : option GoogleUser.t :=
  match v with
  | JObj props =>
      match get_prop "id" props, get_prop "email" props, get_prop "name" props with
      | Some (JStr i), Some (JStr e), Some (JStr n) =>
          match get_prop "photo" props with
          | None => Some (GoogleUser.mk i e n None)
          | Some (JStr p) => Some (GoogleUser.mk i e n (Some p))
          | Some _ => None
          end
      | _, _, _ => None
      end
  | _ => None
  end.

(** [setAuthenticatedUser(user, token)].  The token is [None] when the
    caller passes [undefined]; [setItem] then stores the text "undefined". *)
Definition setAuthenticatedUser (user : GoogleUser.t) (token : option string)
  (w : World) : World :=
  let w1 := set_currentUser (Some user) w in
  let w2 := set_accessToken token w1 in
  let w3 := setItem "google_auth_user" (stringifyUser user) w2 in
  let w4 :=
    setItem "google_auth_token"
      (match token with Some t => t | None => "undefined" end) w3 in
  if truthy (accessToken w4)
  then GoogleDriveService.setAccessToken (accessToken w4) w4
  else w4.

(** [clearStoredAuth()] *)
Definition clearStoredAuth (w : World) : World :=
  let w1 := removeItem "google_auth_user" w in
  let w2 := removeItem "google_auth_token" w1 in
  let w3 := set_currentUser None w2 in
  set_accessToken None w3.

(** [loadStoredAuth()].  The argument of the first [console.log] already
    parses the stored user, inside the try block.  The result is [None] when
    the stored text is JSON of another shape than a [GoogleUser] or [null]:
    the embedding keeps to the declared type of [currentUser]. *)
Definition loadStoredAuth (w : World) : option World :=
  let storedUser := getItem "google_auth_user" w in
  let storedToken := getItem "google_auth_token" w in
  let parsed :=
    match storedUser with
    | Some u => if JsString.not_empty u then JSON_parse u else POk JNull EmptyString
    | None => POk JNull EmptyString
    end in
  match parsed with
  | PSyntax =>
      Some (clearStoredAuth (console_error "Error loading stored auth:" w))
  | PFail _ => None
  | POk v _ =>
      if truthy storedUser && truthy storedToken then
        let adopt (u : option GoogleUser.t) :=
          let w1 := set_currentUser u w in
          let w2 := set_accessToken storedToken w1 in
          GoogleDriveService.setAccessToken (accessToken w2) w2 in
        match v with
        | JNull => Some (adopt None)
        | _ =>
            match as_GoogleUser v with
            | Some u => Some (adopt (Some u))
            | None => None
            end
        end
      else Some w
  end.

(** [signOut()]: the body cannot throw in the embedding, where the storage
    operations are total; the catch clause would log and return. *)
Definition signOut (w : World) : World * Result unit :=
  let w1 := clearStoredAuth w in
  let w2 := removeItem "temp_auth_code" w1 in
  let w3 := removeItem "oauth_completion_time" w2 in
  (w3, Ok tt).

(** [parseInt(text)] without a radix: leading white space is skipped, a sign
    is read, a prefix 0x or 0X selects base sixteen, and the longest run of
    digits is the value; [None] stands for NaN. *)
Definition is_js_space (c : ascii) : bool :=
  match c with
  | "009"%char | "010"%char | "011"%char | "012"%char | "013"%char
  | " "%char | "160"%char => true
  | _ => false
  end.

Fixpoint trim_start (s : string) : string :=
  match s with
  | String c s' => if is_js_space c then trim_start s' else s
  | EmptyString => s
  end.

Definition digit_of (radix : Z) (c : ascii) : option Z :=
  match hex_val c with
  | Some d => if (Z.of_N d <? radix)%Z then Some (Z.of_N d) else None
  | None => None
  end.

Fixpoint read_digits (radix : Z) (acc : option Z) (s : string) : option Z :=
  match s with
  | String c s' =>
      match digit_of radix c with
      | Some d =>
          read_digits radix
            (Some (match acc with Some a => a * radix + d | None => d end)) s'
      | None => acc
      end
  | EmptyString => acc
  end.

Definition parseInt (text : string) : option Z :=
  let s1 := trim_start text in
  let '(sign, s2) :=
    match s1 with
    | String "-" r => (-1, r)
    | String "+" r => (1, r)
    | _ => (1, s1)
    end in
  let '(radix, s3) :=
    match s2 with
    | String "0" (String "x" r) => (16, r)
    | String "0" (String "X" r) => (16, r)
    | _ => (10, s2)
    end in
  match read_digits radix None s3 with
  | Some n => Some (sign * n)
  | None => None
  end.

Definition redirect_uri : string := "http://localhost:8081/auth-callback.html".

(** The entries of the record that [buildAuthUrl] hands to
    [URLSearchParams], for a client id. *)
Definition auth_params (clientId : string) : list (string * string) :=
  [ ("client_id", clientId);
    ("redirect_uri", "http://localhost:8081/auth-callback.html");
    ("scope",
     "https://www.googleapis.com/auth/drive.readonly https://www.googleapis.com/auth/userinfo.email https://www.googleapis.com/auth/userinfo.profile");
    ("response_type", "code");
    ("access_type", "offline");
    ("prompt", "consent");
    ("include_granted_scopes", "true") ].

(** [buildAuthUrl()] *)
Definition buildAuthUrl (env : Env) : Result string :=
  let missing :=
    Throw (ErrorMsg "REACT_APP_GOOGLE_CLIENT_ID not found in environment variables") in
  match REACT_APP_GOOGLE_CLIENT_ID env with
  | Some clientId =>
      if JsString.not_empty clientId then
        Ok ("https://accounts.google.com/o/oauth2/v2/auth?"
            ++ URLSearchParams.toString (auth_params clientId))
      else missing
  | None => missing
  end.

(** [signIn()].  The promise resolves to null on every path; what is returned
    with the world is the address assigned to [window.location.href], if the
    assignment is reached. *)
Definition signIn (env : Env) (w : World) : World * option string :=
  (* Clear any existing tokens to force fresh OAuth *)
  let w1 := set_currentUser None w in
  let w2 := set_accessToken None w1 in
  let w3 := removeItem "temp_auth_code" w2 in
  let w4 := removeItem "oauth_completion_time" w3 in
  match buildAuthUrl env with
  | Ok authUrl => (w4, Some authUrl)
  | Throw _ => (console_error "OAuth 2.0 Sign-In Error:" w4, None)
  end.

(** [processAuthCode(authCode)] up to its first [await]: the credentials are
    read from the environment and the token request is sent.  A missing
    credential throws inside the try block; the catch clause logs it. *)
Definition processAuthCode_begin (env : Env) (authCode : string) (w : World)
  : World * option Request :=
  match REACT_APP_GOOGLE_CLIENT_ID env, REACT_APP_GOOGLE_CLIENT_SECRET env with
  | Some clientId, Some clientSecret =>
      if JsString.not_empty clientId && JsString.not_empty clientSecret then
        let req :=
          TokenRequest clientId clientSecret authCode "authorization_code"
            redirect_uri in
        (send req w, Some req)
      else (console_error "Error processing OAuth completion:" w, None)
  | _, _ => (console_error "Error processing OAuth completion:" w, None)
  end.

(** [processAuthCode] from the answer of the token endpoint on. *)
Definition processAuthCode_resume (net : Network) (req : Request) (w : World)
  : World :=
  match token_endpoint net req with
  | Throw _ => console_error "Error processing OAuth completion:" w
  | Ok tokenResponse =>
      if negb (ok tokenResponse) then console_error "Token exchange failed:" w
      else
        match json tokenResponse with
        | Throw _ => console_error "Error processing OAuth completion:" w
        | Ok tokenData =>
            (* Store the access token *)
            let w1 := set_accessToken (access_token tokenData) w in
            let req2 :=
              UserInfoRequest
                ("Bearer " ++ match accessToken w1 with
                              | Some t => t
                              | None => "undefined"
                              end) in
            let w2 := send req2 w1 in
            match userinfo_endpoint net req2 with
            | Throw _ => console_error "Error processing OAuth completion:" w2
            | Ok userInfoResponse =>
                if ok userInfoResponse then
                  match json userInfoResponse with
                  | Throw _ =>
                      console_error "Error processing OAuth completion:" w2
                  | Ok userInfo =>
                      let realUser :=
                        GoogleUser.mk (info_id userInfo) (info_email userInfo)
                          (info_name userInfo) (info_picture userInfo) in
                      setAuthenticatedUser realUser (accessToken w2) w2
                  end
                else console_error "Failed to get user info" w2
            end
        end
  end.

(** [processAuthCode(authCode)] run to completion. *)
Definition processAuthCode (env : Env) (net : Network) (authCode : string)
  (w : World) : World :=
  match processAuthCode_begin env authCode w with
  | (w1, Some req) => processAuthCode_resume net req w1
  | (w1, None) => w1
  end.

(** [checkForOAuthCompletion()] at time [now] (the value of [Date.now()]).
    [processAuthCode] is called without [await]: it runs up to its first
    [await], the two records are removed, and the request that is still
    pending is returned with the world. *)
Definition checkForOAuthCompletion (now : Z) (env : Env) (w : World)
  : World * option Request :=
  let tempAuthCode := getItem "temp_auth_code" w in
  let completionTime := getItem "oauth_completion_time" w in
  let cleanUp (w0 : World) :=
    removeItem "oauth_completion_time" (removeItem "temp_auth_code" w0) in
  match tempAuthCode, completionTime with
  | Some code, Some time =>
      if JsString.not_empty code && JsString.not_empty time then
        match parseInt time with
        | Some t =>
            let timeDiff := now - t in
            if timeDiff <? 5 * 60 * 1000 then
              let '(w1, pending) := processAuthCode_begin env code w in
              (cleanUp w1, pending)
            else (cleanUp w, None)
        | None => (cleanUp w, None)
        end
      else (w, None)
  | _, _ => (w, None)
  end.

(** The constructor, followed by the completion of the request that
    [processAuthCode] left pending. *)
Definition constructor (now : Z) (env : Env) (w : World)
  : option (World * option Request) :=
  let w1 := configureGoogleSignIn w in
  let '(w2, pending) := checkForOAuthCompletion now env w1 in
  match loadStoredAuth w2 with
  | Some w3 => Some (w3, pending)
  | None => None
  end.

(** A page load: both services start from their initial fields, over the
    storage that persisted. *)
Definition freshLoad (stored : gmap string string) : World :=
  mkWorld stored false None None None [] [].

Definition startup (now : Z) (env : Env) (net : Network)
  (stored : gmap string string) : option World :=
  match constructor now env (freshLoad stored) with
  | Some (w, Some req) => Some (processAuthCode_resume net req w)
  | Some (w, None) => Some w
  | None => None
  end.

End GoogleAuthService.

(** ** GoogleAuthService, the variant that keeps the session in memory only

    services/GoogleAuthService.ts has the same handling of a pending
    authorization attempt; it falls back to placeholder credentials and does
    not write the session to [localStorage]. *)

Module GoogleAuthServiceInMemory.

Import GoogleAuthService.

(** [process.env.NAME || fallback] *)
Definition or_default (o : option string) (fallback : string) : string :=
  match o with
  | Some s => if JsString.not_empty s then s else fallback
  | None => fallback
  end.

(** [setAuthenticatedUser(user, token)] *)
Definition setAuthenticatedUser (user : GoogleUser.t) (token : option string)
  (w : World) : World :=
  let w1 := set_currentUser (Some user) w in
  let w2 := set_accessToken token w1 in
  if truthy (accessToken w2)
  then GoogleDriveService.setAccessToken (accessToken w2) w2
  else w2.

(** [signOut()] *)
Definition signOut (w : World) : World * Result unit :=
  let w1 := set_currentUser None w in
  let w2 := set_accessToken None w1 in
  let w3 := removeItem "temp_auth_code" w2 in
  let w4 := removeItem "oauth_completion_time" w3 in
  (w4, Ok tt).

(** [buildAuthUrl()] and [signIn()] *)
Definition buildAuthUrl (env : Env) : string :=
  "https://accounts.google.com/o/oauth2/v2/auth?"
  ++ URLSearchParams.toString
       (auth_params (or_default (REACT_APP_GOOGLE_CLIENT_ID env) "YOUR_CLIENT_ID")).

Definition signIn (env : Env) (w : World) : World * option string :=
  let w1 := set_currentUser None w in
  let w2 := set_accessToken None w1 in
  let w3 := removeItem "temp_auth_code" w2 in
  let w4 := removeItem "oauth_completion_time" w3 in
  (w4, Some (buildAuthUrl env)).

(** [processAuthCode(authCode)] up to its first [await]. *)
Definition processAuthCode_begin (env : Env) (authCode : string) (w : World)
  : World * option Request :=
  let req :=
    TokenRequest
      (or_default (REACT_APP_GOOGLE_CLIENT_ID env) "YOUR_CLIENT_ID")
      (or_default (REACT_APP_GOOGLE_CLIENT_SECRET env) "YOUR_CLIENT_SECRET")
      authCode "authorization_code" redirect_uri in
  (send req w, Some req).

(** [processAuthCode] from the answer of the token endpoint on. *)
Definition processAuthCode_resume (net : Network) (req : Request) (w : World)
  : World :=
  match token_endpoint net req with
  | Throw _ => console_error "Error processing OAuth completion:" w
  | Ok tokenResponse =>
      if negb (ok tokenResponse) then console_error "Token exchange failed:" w
      else
        match json tokenResponse with
        | Throw _ => console_error "Error processing OAuth completion:" w
        | Ok tokenData =>
            (* Store the access token *)
            let w1 := set_accessToken (access_token tokenData) w in
            let req2 :=
              UserInfoRequest
                ("Bearer " ++ match accessToken w1 with
                              | Some t => t
                              | None => "undefined"
                              end) in
            let w2 := send req2 w1 in
            match userinfo_endpoint net req2 with
            | Throw _ => console_error "Error processing OAuth completion:" w2
            | Ok userInfoResponse =>
                if ok userInfoResponse then
                  match json userInfoResponse with
                  | Throw _ =>
                      console_error "Error processing OAuth completion:" w2
                  | Ok userInfo =>
                      let realUser :=
                        GoogleUser.mk (info_id userInfo) (info_email userInfo)
                          (info_name userInfo) (info_picture userInfo) in
                      let w3 := set_currentUser (Some realUser) w2 in
                      (* Pass token to Drive service *)
                      if truthy (accessToken w3)
                      then GoogleDriveService.setAccessToken (accessToken w3) w3
                      else w3
                  end
                else console_error "Failed to get user info" w2
            end
        end
  end.

Definition processAuthCode (env : Env) (net : Network) (authCode : string)
  (w : World) : World :=
  match processAuthCode_begin env authCode w with
  | (w1, Some req) => processAuthCode_resume net req w1
  | (w1, None) => w1
  end.

(** [checkForOAuthCompletion()] at time [now]. *)
Definition checkForOAuthCompletion (now : Z) (env : Env) (w : World)
  : World * option Request :=
  let tempAuthCode := getItem "temp_auth_code" w in
  let completionTime := getItem "oauth_completion_time" w in
  let cleanUp (w0 : World) :=
    removeItem "oauth_completion_time" (removeItem "temp_auth_code" w0) in
  match tempAuthCode, completionTime with
  | Some code, Some time =>
      if JsString.not_empty code && JsString.not_empty time then
        match parseInt time with
        | Some t =>
            let timeDiff := now - t in
            if timeDiff <? 5 * 60 * 1000 then
              let '(w1, pending) := processAuthCode_begin env code w in
              (cleanUp w1, pending)
            else (cleanUp w, None)
        | None => (cleanUp w, None)
        end
      else (w, None)
  | _, _ => (w, None)
  end.

(** The constructor. *)
Definition constructor (now : Z) (env : Env) (w : World)
  : World * option Request :=
  checkForOAuthCompletion now env (configureGoogleSignIn w).

End GoogleAuthServiceInMemory.

(** ** SettingsDialog: the folder selection *)

Module SettingsDialog.

(** The state [selectedFolders] of the dialog and [localStorage]. *)
Definition save (newSelection : list string) (w : World) : World :=
  setItem "selected_folders" (Json.stringifyStrings newSelection) w.

(** [prev.includes(folderId)] on an array of strings. *)
Definition array_includes (folderId : string) (prev : list string) : bool :=
  existsb (String.eqb folderId) prev.

(** [handleFolderToggle(folderId)] *)
Definition handleFolderToggle (folderId : string) (prev : list string)
  (w : World) : list string * World :=
  let newSelection :=
    if array_includes folderId prev
    then List.filter (fun id => negb (String.eqb id folderId)) prev
    else (prev ++ [folderId])%list in
  (newSelection, save newSelection w).

(** [handleSelectAllFolders()], over the ids of the folders on display. *)
Definition handleSelectAllFolders (folders : list string) (w : World)
  : list string * World :=
  let allFolderIds := "root" :: folders in
  (allFolderIds, save allFolderIds w).

(** [handleDeselectAllFolders()] *)
Definition handleDeselectAllFolders (w : World) : list string * World :=
  ([], save [] w).

End SettingsDialog.

(** ** App: aggregation and navigation *)

Module App.

Import Json.

Record State : Type := mkState {
  drivePhotos : list DrivePhoto.t;
  isLoadingPhotos : bool;
  photoError : option string;
  currentPhotoIndex : Z
}.

Definition setDrivePhotos (l : list DrivePhoto.t) (a : State) : State :=
  mkState l (isLoadingPhotos a) (photoError a) (currentPhotoIndex a).

Definition setIsLoadingPhotos (b : bool) (a : State) : State :=
  mkState (drivePhotos a) b (photoError a) (currentPhotoIndex a).

Definition setPhotoError (e : option string) (a : State) : State :=
  mkState (drivePhotos a) (isLoadingPhotos a) e (currentPhotoIndex a).

Definition setCurrentPhotoIndex (f : Z -> Z) (a : State) : State :=
  mkState (drivePhotos a) (isLoadingPhotos a) (photoError a)
    (f (currentPhotoIndex a)).

(** The class [[^/?]] *)
Definition segment_char (c : ascii) : bool :=
  negb (Ascii.eqb c "/" || Ascii.eqb c "?").

(** [url.match(/\/folders\/([^/?]+)/)], reduced to its capture group: the
    leftmost place where "/folders/" is followed by a character of the class,
    and the longest run of such characters there. *)
Fixpoint match_folders (url : string) : option string :=
  let here :=
    match JsString.strip_prefix "/folders/" url with
    | Some rest =>
        match JsString.takeWhile segment_char rest with
        | EmptyString => None
        | capture => Some capture
        end
    | None => None
    end in
  match here with
  | Some capture => Some capture
  | None =>
      match url with
      | EmptyString => None
      | String _ url' => match_folders url'
      end
  end.

(** [l.findIndex(f)] *)
Fixpoint findIndex_from {A : Type} (f : A -> bool) (i : Z) (l : list A) : Z :=
  match l with
  | [] => -1
  | x :: r => if f x then i else findIndex_from f (i + 1) r
  end.

Definition findIndex {A : Type} (f : A -> bool) (l : list A) : Z :=
  findIndex_from f 0 l.

(** [l.filter((x, index, self) => f x index self)] *)
Fixpoint filter_from {A : Type} (f : A -> Z -> bool) (i : Z) (l : list A)
  : list A :=
  match l with
  | [] => []
  | x :: r =>
      if f x i then x :: filter_from f (i + 1) r else filter_from f (i + 1) r
  end.

Definition filter_indexed {A : Type} (f : A -> Z -> list A -> bool)
  (l : list A) : list A :=
  filter_from (fun x i => f x i l) 0 l.

(** Remove duplicates based on photo ID. *)
Definition uniquePhotos (allPhotos : list DrivePhoto.t) : list DrivePhoto.t :=
  filter_indexed
    (fun photo index self =>
       index =? findIndex
                  (fun p => String.eqb (DrivePhoto.id p) (DrivePhoto.id photo))
                  self)
    allPhotos.

(** One round of the loop over the selected folders. *)
Definition load_folder (net : Network) (rootFolderId : string)
  (acc : World * list DrivePhoto.t) (folderId : string)
  : World * list DrivePhoto.t :=
  let '(w, allPhotos) := acc in
  let actualFolderId :=
    if String.eqb folderId "root" then rootFolderId else folderId in
  match GoogleDriveService.listPhotosInFolder net actualFolderId w with
  | (w1, Ok photos) => (w1, (allPhotos ++ photos)%list)
  | (w1, Throw _) =>
      (console_error "Error loading photos from folder" w1, allPhotos)
  end.

Definition error_not_configured : string :=
  "No shared folder URL configured. Please set it in Settings.".

Definition error_invalid_url : string := "Invalid folder URL format.".

Definition error_failed : string :=
  "Failed to load photos from Google Drive. Please check your folder permissions.".

(** [loadPhotosFromDrive()].  The finally clause resets the loading flag on
    every path.  The result is [None] when the stored selection is JSON of
    another shape than an array of strings: the embedding keeps to the type
    [string[]] of the selection that the settings dialog writes. *)
Definition loadPhotosFromDrive (net : Network) (w : World) (a : State)
  : option (World * State) :=
  let finally (r : World * State) : World * State :=
    (fst r, setIsLoadingPhotos false (snd r)) in
  let a1 := setPhotoError None (setIsLoadingPhotos true a) in
  match getItem "shared_moments_folder_url" w with
  | Some savedUrl =>
      if JsString.not_empty savedUrl then
        let selectedFolders := getItem "selected_folders" w in
        let folderIds :=
          match selectedFolders with
          | Some text =>
              if JsString.not_empty text then JSON_parse text
              else POk (JArr [JStr "root"]) EmptyString
          | None => POk (JArr [JStr "root"]) EmptyString
          end in
        match folderIds with
        | PSyntax =>
            Some (finally (console_error "Error loading photos:" w,
                           setPhotoError (Some error_failed) a1))
        | PFail _ => None
        | POk parsed _ =>
            match match_folders savedUrl with
            | None =>
                Some (finally (w, setPhotoError (Some error_invalid_url) a1))
            | Some rootFolderId =>
                match parsed with
                | JArr items =>
                    match as_strings items with
                    | Some ids =>
                        let '(w1, allPhotos) :=
                          fold_left (load_folder net rootFolderId) ids (w, []) in
                        Some (finally (w1, setDrivePhotos (uniquePhotos allPhotos) a1))
                    | None => None
                    end
                | _ => None
                end
            end
        end
      else Some (finally (w, setPhotoError (Some error_not_configured) a1))
  | None => Some (finally (w, setPhotoError (Some error_not_configured) a1))
  end.

(** The five sample photos shown while no Drive photo is loaded. *)
Definition samplePhotos_length : Z := 5.

(** [displayPhotos.length] *)
Definition displayPhotos_length (a : State) : Z :=
  let n := Z.of_nat (length (drivePhotos a)) in
  if n >? 0 then n else samplePhotos_length.

(** [nextPhoto()] and [prevPhoto()]; [%] is the remainder that takes the sign
    of the dividend. *)
Definition nextPhoto (a : State) : State :=
  let n := displayPhotos_length a in
  if n >? 0 then
    setCurrentPhotoIndex
      (fun prev =>
         let newIndex := Z.rem (prev + 1) n in
         if (newIndex >=? 0) && (newIndex <? n) then newIndex else 0)
      a
  else a.

Definition prevPhoto (a : State) : State :=
  let n := displayPhotos_length a in
  if n >? 0 then
    setCurrentPhotoIndex
      (fun prev =>
         let newIndex := Z.rem (prev - 1 + n) n in
         if (newIndex >=? 0) && (newIndex <? n) then newIndex else 0)
      a
  else a.

(** The effect that follows a change of [drivePhotos.length] or of
    [currentPhotoIndex]. *)
Definition resetPhotoIndex (a : State) : State :=
  let n := Z.of_nat (length (drivePhotos a)) in
  if n =? 0 then setCurrentPhotoIndex (fun _ => 0) a
  else if (currentPhotoIndex a >=? n) || (currentPhotoIndex a <? 0)
  then setCurrentPhotoIndex (fun _ => 0) a
  else a.

(** One round of the slideshow timer, which is set while [isPlaying] holds
    and [drivePhotos] is not empty. *)
Definition tick (isPlaying : bool) (a : State) : State :=
  let n := Z.of_nat (length (drivePhotos a)) in
  if isPlaying && (n >? 0)
  then setCurrentPhotoIndex (fun prev => Z.rem (prev + 1) n) a
  else a.

(** The three switches of the display settings.  (The opacity of the top
    bar, a fraction, is left out.) *)
Record Settings : Type := mkSettings {
  showEmail : bool;
  showControls : bool;
  showPhotoCounter : bool
}.

(** [JSON.stringify(value)] for a boolean. *)
Definition stringifyBool (value : bool) : string :=
  if value then "true" else "false".

(** The initializer of a switch: [saved ? JSON.parse(saved) : true].  A text
    that is not JSON throws; the result is [None] when the text denotes a
    value that is not a boolean. *)
Definition savedSwitch (key : string) (w : World) : option (Result bool) :=
  match getItem key w with
  | Some saved =>
      if JsString.not_empty saved then
        match JSON_parse saved with
        | POk (JBool b) _ => Some (Ok b)
        | POk _ _ => None
        | PSyntax => Some (Throw SyntaxError)
        | PFail _ => None
        end
      else Some (Ok true)
  | None => Some (Ok true)
  end.

(** The switches as the first render initializes them, one after the
    other. *)
Definition initialSettings (w : World) : option (Result Settings) :=
  match savedSwitch "show_email" w with
  | Some (Ok e) =>
      match savedSwitch "show_controls" w with
      | Some (Ok c) =>
          match savedSwitch "show_photo_counter" w with
          | Some (Ok p) => Some (Ok (mkSettings e c p))
          | Some (Throw err) => Some (Throw err)
          | None => None
          end
      | Some (Throw err) => Some (Throw err)
      | None => None
      end
  | Some (Throw err) => Some (Throw err)
  | None => None
  end.

(** [handleShowEmailChange(value)], [handleShowControlsChange(value)] and
    [handleShowPhotoCounterChange(value)] *)
Definition handleShowEmailChange (value : bool) (s : Settings) (w : World)
  : Settings * World :=
  (mkSettings value (showControls s) (showPhotoCounter s),
   setItem "show_email" (stringifyBool value) w).

Definition handleShowControlsChange (value : bool) (s : Settings) (w : World)
  : Settings * World :=
  (mkSettings (showEmail s) value (showPhotoCounter s),
   setItem "show_controls" (stringifyBool value) w).

Definition handleShowPhotoCounterChange (value : bool) (s : Settings)
  (w : World) : Settings * World :=
  (mkSettings (showEmail s) (showControls s) value,
   setItem "show_photo_counter" (stringifyBool value) w).

End App.

(** ** SettingsDialog: what the dialog loads and saves *)

Module SettingsDialogState.

Import Json GoogleDriveService.

(** The state of the dialog, and the alerts it has raised so far, each with
    its title and its message. *)
Record Dialog : Type := mkDialog {
  sharedFolderUrl : string;
  isLoading : bool;
  isSaving : bool;
  folders : list DriveFolder;
  selectedFolders : list string;
  isLoadingFolders : bool;
  alerts : list (string * string)
}.

Definition setSharedFolderUrl (url : string) (d : Dialog) : Dialog :=
  mkDialog url (isLoading d) (isSaving d) (folders d) (selectedFolders d)
    (isLoadingFolders d) (alerts d).


Definition setIsSaving (b : bool) (d : Dialog) : Dialog :=
  mkDialog (sharedFolderUrl d) (isLoading d) b (folders d) (selectedFolders d)
    (isLoadingFolders d) (alerts d).

Definition setFolders (l : list DriveFolder) (d : Dialog) : Dialog :=
  mkDialog (sharedFolderUrl d) (isLoading d) (isSaving d) l (selectedFolders d)
    (isLoadingFolders d) (alerts d).

Definition setSelectedFolders (l : list string) (d : Dialog) : Dialog :=
  mkDialog (sharedFolderUrl d) (isLoading d) (isSaving d) (folders d) l
    (isLoadingFolders d) (alerts d).

Definition setIsLoadingFolders (b : bool) (d : Dialog) : Dialog :=
  mkDialog (sharedFolderUrl d) (isLoading d) (isSaving d) (folders d)
    (selectedFolders d) b (alerts d).

(** [Alert.alert(title, message)] *)
Definition alert (title message : string) (d : Dialog) : Dialog :=
  mkDialog (sharedFolderUrl d) (isLoading d) (isSaving d) (folders d)
    (selectedFolders d) (isLoadingFolders d) (alerts d ++ [(title, message)]).

(** [s.trim()]: white space and line ends are removed at both ends. *)
Fixpoint trim_end (s : string) : string :=
  match s with
  | EmptyString => EmptyString
  | String c s' =>
      match trim_end s' with
      | EmptyString =>
          if GoogleAuthService.is_js_space c then EmptyString
          else String c EmptyString
      | rest => String c rest
      end
  end.

Definition trim (s : string) : string :=
  trim_end (GoogleAuthService.trim_start s).

(** [loadSavedUrl()] *)
Definition loadSavedUrl (d : Dialog) (w : World) : Dialog :=
  match getItem "shared_moments_folder_url" w with
  | Some savedUrl =>
      if JsString.not_empty savedUrl then setSharedFolderUrl savedUrl d else d
  | None => d
  end.

(** [loadFolders()]: the finally clause resets the loading flag on every
    path. *)
Definition loadFolders (net : Network) (d : Dialog) (w : World)
  : Dialog * World :=
  let finally (r : Dialog * World) : Dialog * World :=
    (setIsLoadingFolders false (fst r), snd r) in
  let d1 := setIsLoadingFolders true d in
  match getItem "shared_moments_folder_url" w with
  | Some savedUrl =>
      if JsString.not_empty savedUrl then
        match App.match_folders savedUrl with
        | None => finally (d1, w)
        | Some rootFolderId =>
            match listFoldersInFolder net rootFolderId w with
            | (w1, Ok driveFolders) => finally (setFolders driveFolders d1, w1)
            | (w1, Throw _) =>
                finally (d1, console_error "Error loading folders:" w1)
            end
        end
      else finally (d1, w)
  | None => finally (d1, w)
  end.

(** [loadSelectedFolders()].  The result is [None] when the stored text
    denotes a value that is not an array of strings. *)
Definition loadSelectedFolders (d : Dialog) (w : World)
  : option (Dialog * World) :=
  match getItem "selected_folders" w with
  | Some saved =>
      if JsString.not_empty saved then
        match JSON_parse saved with
        | POk (JArr items) _ =>
            match as_strings items with
            | Some ids => Some (setSelectedFolders ids d, w)
            | None => None
            end
        | POk _ _ => None
        | PSyntax =>
            Some (d, console_error "Error loading selected folders:" w)
        | PFail _ => None
        end
      else Some (d, w)
  | None => Some (d, w)
  end.

(** [handleSaveUrl()], with the property [isAuthenticated] of the dialog. *)
Definition handleSaveUrl (isAuthenticated : bool) (d : Dialog) (w : World)
  : Dialog * World :=
  let url := trim (sharedFolderUrl d) in
  if negb (JsString.not_empty url) then
    (alert "Error" "Please enter a Google Drive folder URL" d, w)
  else if negb isAuthenticated then
    (alert "Error" "Please sign in to Google Drive first" d, w)
  else if negb (JsString.includes "drive.google.com/drive/folders/" url) then
    (alert "Error" "Please enter a valid Google Drive folder URL" d, w)
  else
    let d1 := setIsSaving true d in
    (* Save to local storage *)
    let w1 := setItem "shared_moments_folder_url" url w in
    let d2 := alert "Success" "Shared folder URL saved successfully!" d1 in
    (setIsSaving false d2, w1).



End SettingsDialogState.

(** ** Notions of the specification

    The definitions below are not code of the program: they name what the
    statements of the properties speak about. *)

Section Notions.

Import JsString Json GoogleDriveService GoogleAuthService App.

(** What stands before the first occurrence of [sep] (all of [s] when there
    is none), and what stands after it. *)
Definition before_first (sep s : string) : string :=
  match cut sep s with Some (b, _) => b | None => s end.

Definition after_first (sep s : string) : string :=
  match cut sep s with Some (_, a) => a | None => EmptyString end.

(** The folder id of the specification's sentence: what follows the first
    occurrence of "folders/", cut at the first question mark; the argument
    itself when "folders/" does not occur in it. *)
Definition claimed_folder_id (arg : string) : string :=
  if includes "folders/" arg
  then before_first "?" (after_first "folders/" arg)
  else arg.

(** The folder id the code computes. *)
Definition computed_folder_id (arg : string) : string :=
  if includes "folders/" arg
  then before_first "?" (before_first "folders/" (after_first "folders/" arg))
  else arg.

(** Later duplicates removed by id, in the specification's words: going
    through the list, a photo is kept when its id has not been seen yet. *)
Fixpoint dedupe_by_id (seen : list string) (l : list DrivePhoto.t)
  : list DrivePhoto.t :=
  match l with
  | [] => []
  | p :: r =>
      if existsb (String.eqb (DrivePhoto.id p)) seen
      then dedupe_by_id seen r
      else p :: dedupe_by_id (DrivePhoto.id p :: seen) r
  end.

Definition ids (l : list DrivePhoto.t) : list string :=
  List.map DrivePhoto.id l.

(** The folder ids that [loadPhotosFromDrive] iterates over: the stored
    selection read as an array of strings, ["root"] when nothing is stored. *)
Definition stored_selection (w : World) : option (list string) :=
  match getItem "selected_folders" w with
  | Some text =>
      if JsString.not_empty text then
        match JSON_parse text with
        | POk (JArr items) _ => as_strings items
        | _ => None
        end
      else Some ["root"]
  | None => Some ["root"]
  end.

(** The outcome of the listing call for one selected folder, and the photos
    it contributes: those of a successful listing. *)
Definition folder_listing (net : Network) (w : World) (rootFolderId : string)
  (folderId : string) : Result (list DrivePhoto.t) :=
  snd (listPhotosInFolder net
         (if String.eqb folderId "root" then rootFolderId else folderId) w).

Definition folder_photos (net : Network) (w : World) (rootFolderId : string)
  (folderId : string) : list DrivePhoto.t :=
  match folder_listing net w rootFolderId folderId with
  | Ok photos => photos
  | Throw _ => []
  end.

(** The stored selection does not stop [loadPhotosFromDrive] before the URL
    is examined: nothing is stored, or the stored text is empty, or it is
    well-formed JSON. *)
Definition selection_is_json (w : World) : bool :=
  match getItem "selected_folders" w with
  | Some text =>
      if not_empty text then
        match JSON_parse text with POk _ _ => true | _ => false end
      else true
  | None => true
  end.

(** The request that [listPhotosInFolder] sends for a folder. *)
Definition listing_request (folderId token : string) : Request :=
  DriveRequest "files" (listing_params (computed_folder_id folderId))
    ("Bearer " ++ token).

(** The value that the text of a user denotes. *)
Definition user_object (user : GoogleUser.t) : JsVal :=
  JObj ([ ("id", JStr (GoogleUser.id user));
          ("email", JStr (GoogleUser.email user));
          ("name", JStr (GoogleUser.name user)) ]
        ++ match GoogleUser.photo user with
           | Some p => [("photo", JStr p)]
           | None => []
           end)%list.

(** What is known of a reader on the text [s]: it does not run out of fuel,
    and what it leaves unread is shorter than [s]. *)
Definition advances {A : Type} (result : PResult A) (s : string) : Prop :=
  result <> PFuel
  /\ forall a rest, result = POk a rest ->
       (String.length rest < String.length s)%nat.

(** The fuel that a call of [parse] needs at most on the text [s]. *)
Definition need (m : Mode) (s : string) : nat :=
  match m with
  | MValue => 2 * String.length s + 1
  | MElems _ => 2 * String.length s + 2
  | MMembers _ => 2 * String.length s + 2
  end.

(** The two removals that end [checkForOAuthCompletion]. *)
Definition cleanUp (w : World) : World :=
  removeItem "oauth_completion_time" (removeItem "temp_auth_code" w).

End Notions.

(** ** A concrete configuration *)

Module Sample.

Import Json.

Definition fileA : DriveFile := mkDriveFile "A" "a.png" "image/png" None "10".
Definition fileB : DriveFile :=
  mkDriveFile "B" "b.pdf" "application/pdf" None "20".
Definition fileC : DriveFile :=
  mkDriveFile "C" "c.jpg" "image/jpeg" (Some "https://drive.example.com/uc?id=C") "30".
Definition fileD : DriveFile := mkDriveFile "D" "d.png" "image/png" None "40".

Definition q_of (params : list (string * string)) : string :=
  match params with
  | (_, q) :: _ => q
  | [] => EmptyString
  end.

(** The root folder XYZ123 holds A, B and C; the folder sub1 holds A and D;
    listing any other folder fails with status 500. *)
Definition drive (req : Request) : Result (Response (list DriveFile)) :=
  match req with
  | DriveRequest _ params _ =>
      if String.eqb (q_of params) "'XYZ123' in parents and trashed=false"
      then Ok (mkResponse true 200 EmptyString (Ok [fileA; fileB; fileC]))
      else if String.eqb (q_of params) "'sub1' in parents and trashed=false"
      then Ok (mkResponse true 200 EmptyString (Ok [fileA; fileD]))
      else Ok (mkResponse false 500 "backend error" (Throw SyntaxError))
  | _ => Throw FetchRejected
  end.

(** The token endpoint accepts the code "good-code"; the user-info endpoint
    accepts the token it hands out. *)
Definition token (req : Request) : Result (Response TokenData) :=
  match req with
  | TokenRequest _ _ code _ _ =>
      if String.eqb code "good-code"
      then Ok (mkResponse true 200 EmptyString (Ok (mkTokenData (Some "token-2"))))
      else Ok (mkResponse false 400 "invalid_grant" (Throw SyntaxError))
  | _ => Throw FetchRejected
  end.

Definition userinfo (req : Request) : Result (Response UserInfo) :=
  match req with
  | UserInfoRequest authorization =>
      if String.eqb authorization "Bearer token-2"
      then Ok (mkResponse true 200 EmptyString
                 (Ok (mkUserInfo "42" "ada@example.com" "Ada" None)))
      else Ok (mkResponse false 401 "unauthorized" (Throw SyntaxError))
  | _ => Throw FetchRejected
  end.

Definition net : Network := mkNetwork token userinfo drive.

(** A network whose user-info endpoint refuses every request. *)
Definition net_profile_down : Network :=
  mkNetwork token
    (fun _ => Ok (mkResponse false 503 "unavailable" (Throw SyntaxError)))
    drive.

Definition env : Env := mkEnv (Some "client-id") (Some "client-secret").

Definition share_url : string :=
  "https://drive.example.com/drive/folders/XYZ123?usp=sharing".

(** The text that [JSON.stringify] writes for the selection
    root, sub1, sub2. *)
Definition selection_text : string :=
  String "[" (quote "root" ++ "," ++ quote "sub1" ++ "," ++ quote "sub2" ++ "]").

Definition user : GoogleUser.t :=
  GoogleUser.mk "7" "grace@example.com" "Grace" (Some "https://example.com/g.png").

Definition signed_in (stored : gmap string string) : World :=
  mkWorld stored true (Some user) (Some "token-1") (Some "token-1") [] [].

Definition stored : gmap string string :=
  <["shared_moments_folder_url" := share_url]>
    (<["selected_folders" := selection_text]> ∅).

Definition world : World := signed_in stored.

Definition app : App.State := App.mkState [] false None 0.

(** A pending authorization attempt, recorded at the instant 1700000000000
    (in milliseconds), next to the persisted session of [user]. *)
Definition recorded_at : Z := 1700000000000.

Definition pending : gmap string string :=
  <["temp_auth_code" := "good-code"]>
    (<["oauth_completion_time" := "1700000000000"]>
       (<["google_auth_user" := GoogleAuthService.stringifyUser user]>
          (<["google_auth_token" := "token-1"]> ∅))).

(** The endpoint of a single file answers with the field that is asked for:
    the file C has both links, the file A a download link only, any other
    file none. *)
Definition file (req : Request) : Result (Response GoogleDriveService.FileFields) :=
  match req with
  | DriveRequest endpoint params _ =>
      let download := String.eqb (q_of params) "webContentLink" in
      let answer (link thumbnail : option string) :=
        Ok (mkResponse true 200 EmptyString
              (Ok (GoogleDriveService.mkFileFields
                     (if download then link else None)
                     (if download then None else thumbnail)))) in
      if String.eqb endpoint "files/C" then
        answer (Some "https://drive.example.com/uc?id=C")
          (Some "https://lh3.example.com/C=s220")
      else if String.eqb endpoint "files/A" then
        answer (Some "https://drive.example.com/uc?id=A") None
      else answer None None
  | _ => Throw FetchRejected
  end.

(** The state of the settings dialog when it opens. *)
Definition dialog : SettingsDialogState.Dialog :=
  SettingsDialogState.mkDialog EmptyString false false [] [] false [].

End Sample.

(** * Properties *)

(** ** The string and JSON primitives on concrete inputs *)

Example split_two_occurrences :
  JsString.split "folders/" "a/folders/b/folders/c" = ["a/"; "b/"; "c"].
Proof. reflexivity. Qed.

Example split_query :
  JsString.split "?" "XYZ123?usp=sharing" = ["XYZ123"; "usp=sharing"].
Proof. reflexivity. Qed.

Example JSON_parse_selection :
  Json.JSON_parse
    (String "[" (Json.quote "root" ++ "," ++ Json.quote "sub1" ++ "]"))
  = Json.POk (Json.JArr [Json.JStr "root"; Json.JStr "sub1"]) EmptyString.
Proof. reflexivity. Qed.

Example JSON_parse_unterminated : Json.JSON_parse "{" = Json.PSyntax.
Proof. reflexivity. Qed.

Example match_folders_share_url :
  App.match_folders "https://drive.example.com/drive/folders/XYZ123?usp=sharing"
  = Some "XYZ123".
Proof. reflexivity. Qed.

Example match_folders_no_segment :
  App.match_folders "https://drive.example.com/drive/" = None.
Proof. reflexivity. Qed.

Example match_folders_skips_empty_segment :
  App.match_folders "/folders//folders/abc/def" = Some "abc".
Proof. reflexivity. Qed.

(** ** Navigation *)

Section Navigation.

Import App.

Lemma displayPhotos_length_pos (a : State) : 0 < displayPhotos_length a.
Proof.
  unfold displayPhotos_length, samplePhotos_length.
  destruct (Z.of_nat (length (drivePhotos a)) >? 0) eqn:E; lia.
Qed.

Lemma displayPhotos_length_setIndex (f : Z -> Z) (a : State) :
  displayPhotos_length (setCurrentPhotoIndex f a) = displayPhotos_length a.
Proof. reflexivity. Qed.

Lemma nextPhoto_index (a : State) :
  0 <= currentPhotoIndex a < displayPhotos_length a ->
  currentPhotoIndex (nextPhoto a)
  = (currentPhotoIndex a + 1) mod displayPhotos_length a.
Proof.
  intros Hi. pose proof (displayPhotos_length_pos a) as Hn.
  unfold nextPhoto.
  destruct (displayPhotos_length a >? 0) eqn:E; [|lia]. simpl.
  rewrite Z.rem_mod_nonneg by lia.
  pose proof (Z.mod_pos_bound (currentPhotoIndex a + 1) (displayPhotos_length a) Hn).
  destruct (_ >=? 0) eqn:E1; [|lia].
  destruct (_ <? displayPhotos_length a) eqn:E2; [reflexivity|lia].
Qed.

Lemma prevPhoto_index (a : State) :
  0 <= currentPhotoIndex a < displayPhotos_length a ->
  currentPhotoIndex (prevPhoto a)
  = (currentPhotoIndex a - 1 + displayPhotos_length a) mod displayPhotos_length a.
Proof.
  intros Hi. pose proof (displayPhotos_length_pos a) as Hn.
  unfold prevPhoto.
  destruct (displayPhotos_length a >? 0) eqn:E; [|lia]. simpl.
  rewrite Z.rem_mod_nonneg by lia.
  pose proof (Z.mod_pos_bound (currentPhotoIndex a - 1 + displayPhotos_length a)
                (displayPhotos_length a) Hn).
  destruct (_ >=? 0) eqn:E1; [|lia].
  destruct (_ <? displayPhotos_length a) eqn:E2; [reflexivity|lia].
Qed.

Lemma other_fields_nextPhoto (a : State) :
  drivePhotos (nextPhoto a) = drivePhotos a
  /\ isLoadingPhotos (nextPhoto a) = isLoadingPhotos a
  /\ photoError (nextPhoto a) = photoError a.
Proof. unfold nextPhoto. destruct (_ >? 0); auto. Qed.

Lemma other_fields_prevPhoto (a : State) :
  drivePhotos (prevPhoto a) = drivePhotos a
  /\ isLoadingPhotos (prevPhoto a) = isLoadingPhotos a
  /\ photoError (prevPhoto a) = photoError a.
Proof. unfold prevPhoto. destruct (_ >? 0); auto. Qed.

Lemma displayPhotos_length_nextPhoto (a : State) :
  displayPhotos_length (nextPhoto a) = displayPhotos_length a.
Proof.
  unfold displayPhotos_length.
  destruct (other_fields_nextPhoto a) as [-> _]. reflexivity.
Qed.

Lemma State_eq (a b : State) :
  drivePhotos a = drivePhotos b -> isLoadingPhotos a = isLoadingPhotos b ->
  photoError a = photoError b -> currentPhotoIndex a = currentPhotoIndex b ->
  a = b.
Proof. destruct a, b; simpl; intros; subst; reflexivity. Qed.

(** C9. With n > 0 photos on display and the current index i in [0, n),
    nextPhoto moves the index to (i+1) mod n and prevPhoto to (i-1+n) mod n;
    both stay in [0, n), and prevPhoto after nextPhoto gives back the state
    with index i. *)
Theorem nextPhoto_prevPhoto_cycle (a : State) :
  let n := displayPhotos_length a in
  let i := currentPhotoIndex a in
  0 <= i < n ->
  n > 0
  /\ currentPhotoIndex (nextPhoto a) = (i + 1) mod n
  /\ currentPhotoIndex (prevPhoto a) = (i - 1 + n) mod n
  /\ 0 <= currentPhotoIndex (nextPhoto a) < n
  /\ 0 <= currentPhotoIndex (prevPhoto a) < n
  /\ prevPhoto (nextPhoto a) = a.
Proof.
  intros n i Hi. subst n i.
  pose proof (displayPhotos_length_pos a) as Hn.
  pose proof (nextPhoto_index a Hi) as Hnext.
  pose proof (prevPhoto_index a Hi) as Hprev.
  pose proof (Z.mod_pos_bound (currentPhotoIndex a + 1) _ Hn) as Hb1.
  pose proof (Z.mod_pos_bound (currentPhotoIndex a - 1 + displayPhotos_length a) _ Hn) as Hb2.
  repeat split; try lia.
  destruct (other_fields_nextPhoto a) as (Hd & Hl & He).
  destruct (other_fields_prevPhoto (nextPhoto a)) as (Hd' & Hl' & He').
  apply State_eq; try congruence.
  rewrite prevPhoto_index; rewrite displayPhotos_length_nextPhoto; [|lia].
  rewrite Hnext.
  destruct (Z.eq_dec (currentPhotoIndex a + 1) (displayPhotos_length a)) as [E|E].
  - rewrite E, Z.mod_same by lia.
    rewrite Z.mod_small by lia. lia.
  - rewrite (Z.mod_small (currentPhotoIndex a + 1)) by lia.
    replace (currentPhotoIndex a + 1 - 1 + displayPhotos_length a)
      with (currentPhotoIndex a + 1 * displayPhotos_length a) by lia.
    rewrite Z.mod_add by lia. apply Z.mod_small. lia.
Qed.

Lemma nextPhoto_prevPhoto_cycle_witness :
  let a := mkState [] false None 4 in
  currentPhotoIndex (nextPhoto a) = 0 /\ prevPhoto (nextPhoto a) = a.
Proof.
  intros a.
  destruct (nextPhoto_prevPhoto_cycle a) as (_ & H1 & _ & _ & _ & H2).
  - split; [apply Z.leb_le | apply Z.ltb_lt]; reflexivity.
  - split; [exact H1 | exact H2].
Defined.

End Navigation.

(** ** Facts about the string methods *)

Section StringFacts.

Import JsString.

Lemma strip_prefix_app (p s r : string) :
  strip_prefix p s = Some r -> s = p ++ r.
Proof.
  revert s. induction p as [|a p IH]; intros s H; simpl in *.
  - congruence.
  - destruct s as [|b s]; [discriminate|].
    destruct (Ascii.eqb a b) eqn:E; [|discriminate].
    apply Ascii.eqb_eq in E. subst b. f_equal. auto.
Qed.

Lemma strip_prefix_self (p r : string) : strip_prefix p (p ++ r) = Some r.
Proof.
  induction p as [|a p IH]; simpl; [reflexivity|].
  rewrite Ascii.eqb_refl. exact IH.
Qed.

Lemma cut_app (sep s b a : string) :
  cut sep s = Some (b, a) -> s = b ++ sep ++ a.
Proof.
  revert b. induction s as [|c s IH]; intros b H.
  - simpl in H. destruct (strip_prefix sep EmptyString) eqn:E; [|discriminate].
    inversion H; subst. apply strip_prefix_app in E. exact E.
  - cbn [cut] in H. destruct (strip_prefix sep (String c s)) eqn:E.
    + inversion H; subst. apply strip_prefix_app in E. exact E.
    + destruct (cut sep s) as [[b' a']|] eqn:E'; [|discriminate].
      inversion H; subst. simpl. f_equal. apply IH. reflexivity.
Qed.

Lemma length_append (s t : string) :
  String.length (s ++ t) = (String.length s + String.length t)%nat.
Proof. induction s; simpl; auto. Qed.

Lemma cut_empty (sep : string) :
  sep <> EmptyString -> cut sep EmptyString = None.
Proof. destruct sep; [congruence|reflexivity]. Qed.

Lemma split_aux_first (fuel : nat) (sep s : string) :
  (fuel = 0%nat -> cut sep s = None) ->
  split_aux fuel sep s !! 0%nat = Some (before_first sep s).
Proof.
  unfold before_first. destruct fuel; simpl.
  - intros H. rewrite H by reflexivity. reflexivity.
  - intros _. destruct (cut sep s) as [[b a]|]; reflexivity.
Qed.

Lemma split_first (sep s : string) :
  sep <> EmptyString -> split sep s !! 0%nat = Some (before_first sep s).
Proof.
  intros Hsep. apply split_aux_first.
  destruct s; [intros _; apply cut_empty; exact Hsep | discriminate].
Qed.

Lemma split_second (sep s b a : string) :
  sep <> EmptyString ->
  cut sep s = Some (b, a) ->
  split sep s !! 1%nat = Some (before_first sep a).
Proof.
  intros Hsep Hcut. unfold split.
  pose proof (cut_app _ _ _ _ Hcut) as Hs.
  assert (Hlen : String.length s
                 = (String.length b + (String.length sep + String.length a))%nat).
  { rewrite Hs at 1. rewrite !length_append. reflexivity. }
  assert (Hpos : (0 < String.length sep)%nat).
  { destruct sep; [congruence|simpl; lia]. }
  destruct (String.length s) as [|f] eqn:E; [lia|].
  simpl. rewrite Hcut. simpl.
  apply split_aux_first. intros ->.
  assert (String.length a = 0%nat) by lia.
  destruct a; [apply cut_empty; exact Hsep | discriminate].
Qed.

(** [split] has fuel enough: more fuel gives the same pieces. *)
Lemma split_aux_enough (sep : string) (fuel1 fuel2 : nat) (s : string) :
  sep <> EmptyString ->
  (String.length s <= fuel1)%nat -> (String.length s <= fuel2)%nat ->
  split_aux fuel1 sep s = split_aux fuel2 sep s.
Proof.
  intros Hsep. revert fuel2 s.
  induction fuel1 as [|f1 IH]; intros fuel2 s H1 H2.
  - destruct s; [|simpl in H1; lia].
    destruct fuel2; cbn [split_aux]; [reflexivity|].
    rewrite (cut_empty sep Hsep). reflexivity.
  - destruct fuel2 as [|f2].
    + destruct s; [|simpl in H2; lia]. cbn [split_aux].
      rewrite (cut_empty sep Hsep). reflexivity.
    + cbn [split_aux]. destruct (cut sep s) as [[b a]|] eqn:E; [|reflexivity].
      f_equal. pose proof (cut_app _ _ _ _ E) as Hs.
      assert (Hlen : String.length s
                     = (String.length b + (String.length sep + String.length a))%nat).
      { rewrite Hs at 1. rewrite !length_append. reflexivity. }
      assert (Hpos : (0 < String.length sep)%nat).
      { destruct sep; [congruence|simpl; lia]. }
      apply IH; lia.
Qed.

Lemma includes_cut (sep s : string) :
  includes sep s = true -> exists b a, cut sep s = Some (b, a).
Proof.
  unfold includes. destruct (cut sep s) as [[b a]|]; [eauto|discriminate].
Qed.

Lemma includes_false_cons (sep : string) (c : ascii) (s : string) :
  includes sep (String c s) = false ->
  strip_prefix sep (String c s) = None /\ includes sep s = false.
Proof.
  unfold includes. cbn [cut].
  destruct (strip_prefix sep (String c s)); [discriminate|].
  destruct (cut sep s) as [[b a]|]; [discriminate|]. auto.
Qed.

End StringFacts.

(** ** Folder ids and folder URLs *)

Section FolderId.

Import JsString GoogleDriveService.

(** One comparison of [strip_prefix] against the next character at hand. *)
Ltac next_char H :=
  cbn [strip_prefix String.append] in H |- *;
  match type of H with
  | (if Ascii.eqb ?a ?c then _ else None) = Some _ =>
      let E := fresh "E" in
      destruct (Ascii.eqb a c) eqn:E; [|discriminate H]
  end.

Ltac into_text p H :=
  destruct p as [|? p];
  [cbn [strip_prefix String.append] in H; simpl in H; discriminate H
  | next_char H].

(** The text "folders/" does not overlap itself, so an occurrence that starts
    inside [p] lies inside [p]. *)
Lemma prefix_folders_inside (p rest r : string) (c : ascii) :
  strip_prefix "folders/" (String c p ++ "folders/" ++ rest) = Some r ->
  exists r', strip_prefix "folders/" (String c p) = Some r'.
Proof.
  intros H. next_char H.
  do 7 (into_text p H).
  eexists. reflexivity.
Qed.

(** Nor does it contain a question mark. *)
Lemma prefix_folders_before_query (p rest r : string) (c : ascii) :
  strip_prefix "folders/" (String c p ++ "?" ++ rest) = Some r ->
  exists r', strip_prefix "folders/" (String c p) = Some r'.
Proof.
  intros H. next_char H.
  do 7 (into_text p H).
  eexists. reflexivity.
Qed.

Lemma cut_folders_base (base rest : string) :
  includes "folders/" base = false ->
  cut "folders/" (base ++ "folders/" ++ rest) = Some (base, rest).
Proof.
  induction base as [|c base IH]; intros H.
  - reflexivity.
  - apply includes_false_cons in H as [H1 H2].
    change (String c base ++ "folders/" ++ rest)
      with (String c (base ++ "folders/" ++ rest)).
    cbn [cut].
    destruct (strip_prefix "folders/" (String c (base ++ "folders/" ++ rest)))
      eqn:E.
    + apply (prefix_folders_inside base rest s c) in E as [r' E]. congruence.
    + rewrite IH by exact H2. reflexivity.
Qed.

Lemma cut_query_id (id rest : string) :
  includes "?" id = false ->
  cut "?" (id ++ "?" ++ rest) = Some (id, rest).
Proof.
  induction id as [|c id IH]; intros H.
  - reflexivity.
  - apply includes_false_cons in H as [H1 H2].
    change (String c id ++ "?" ++ rest) with (String c (id ++ "?" ++ rest)).
    cbn [cut strip_prefix] in H1 |- *.
    destruct (Ascii.eqb "?" c); [discriminate|].
    rewrite IH by exact H2. reflexivity.
Qed.

Lemma before_folders_keeps_id (id query : string) :
  includes "folders/" id = false ->
  exists t, before_first "folders/" (id ++ "?" ++ query) = id ++ "?" ++ t.
Proof.
  unfold before_first. induction id as [|c id IH]; intros H.
  - change (EmptyString ++ "?" ++ query) with (String "?" query).
    cbn [cut]. simpl.
    destruct (cut "folders/" query) as [[b a]|]; eexists; reflexivity.
  - apply includes_false_cons in H as [H1 H2].
    change (String c id ++ "?" ++ query) with (String c (id ++ "?" ++ query)).
    cbn [cut].
    destruct (strip_prefix "folders/" (String c (id ++ "?" ++ query))) eqn:E.
    + apply (prefix_folders_before_query id query s c) in E as [r' E].
      congruence.
    + destruct (IH H2) as [t Ht].
      destruct (cut "folders/" (id ++ "?" ++ query)) as [[b a]|].
      * exists t. simpl. f_equal. exact Ht.
      * exists query. reflexivity.
Qed.

Lemma not_empty_folders : "folders/" <> EmptyString.
Proof. discriminate. Qed.

Lemma not_empty_query : "?" <> EmptyString.
Proof. discriminate. Qed.

(** What the code computes from an argument that contains "folders/": the
    piece between the first and the second occurrence (the rest of the text
    when there is no second one), cut at the first question mark. *)
Lemma actualFolderId_includes (arg : string) :
  includes "folders/" arg = true ->
  actualFolderId arg
  = Ok (before_first "?"
          (before_first "folders/" (after_first "folders/" arg))).
Proof.
  intros H. unfold actualFolderId, after_first. rewrite H.
  destruct (includes_cut _ _ H) as (b & a & Hcut). rewrite Hcut.
  rewrite (split_second _ _ _ _ not_empty_folders Hcut).
  rewrite (split_first _ _ not_empty_query). reflexivity.
Qed.

Lemma actualFolderId_bare (arg : string) :
  includes "folders/" arg = false -> actualFolderId arg = Ok arg.
Proof. intros H. unfold actualFolderId. rewrite H. reflexivity. Qed.

Lemma before_first_none (sep s : string) :
  includes sep s = false -> before_first sep s = s.
Proof.
  unfold includes, before_first.
  destruct (cut sep s) as [[b a]|]; [discriminate|reflexivity].
Qed.

Lemma actualFolderId_url (base id : string) :
  includes "folders/" base = false ->
  includes "folders/" id = false ->
  includes "?" id = false ->
  actualFolderId (base ++ "folders/" ++ id) = Ok id.
Proof.
  intros Hb Hi Hq.
  pose proof (cut_folders_base base id Hb) as Hcut.
  rewrite actualFolderId_includes by (unfold includes; rewrite Hcut; reflexivity).
  unfold after_first. rewrite Hcut.
  rewrite (before_first_none _ _ Hi), (before_first_none _ _ Hq). reflexivity.
Qed.

Lemma actualFolderId_url_query (base id query : string) :
  includes "folders/" base = false ->
  includes "folders/" id = false ->
  includes "?" id = false ->
  actualFolderId (base ++ "folders/" ++ id ++ "?" ++ query) = Ok id.
Proof.
  intros Hb Hi Hq.
  pose proof (cut_folders_base base (id ++ "?" ++ query) Hb) as Hcut.
  rewrite actualFolderId_includes by (unfold includes; rewrite Hcut; reflexivity).
  unfold after_first. rewrite Hcut.
  destruct (before_folders_keeps_id id query Hi) as [t ->].
  unfold before_first. rewrite (cut_query_id id t Hq). reflexivity.
Qed.

End FolderId.

Section FolderArgument.

Import JsString GoogleDriveService.

Lemma actualFolderId_computed (arg : string) :
  actualFolderId arg = Ok (computed_folder_id arg).
Proof.
  unfold computed_folder_id.
  destruct (includes "folders/" arg) eqn:E.
  - apply actualFolderId_includes. exact E.
  - apply actualFolderId_bare. exact E.
Qed.

Lemma listPhotosInFolder_same_id (net : Network) (w : World) (a b : string) :
  actualFolderId a = actualFolderId b ->
  listPhotosInFolder net a w = listPhotosInFolder net b w.
Proof. intros H. unfold listPhotosInFolder. rewrite H. reflexivity. Qed.

(** C10, as the code has it.  The id used in the listing query is the
    argument itself when it does not contain "folders/"; otherwise it is the
    piece between the first and the second occurrence of "folders/" (the rest
    of the argument when there is one occurrence only), cut at the first
    question mark.  Hence, for a folder id that contains neither "folders/"
    nor a question mark, and a URL made of a base without "folders/",
    the text "folders/", the id and possibly a query, listing with the URL
    and listing with the bare id are the same computation. *)
Theorem listPhotosInFolder_url_or_id (net : Network) (w : World)
  (arg base id query : string) :
  includes "folders/" base = false ->
  includes "folders/" id = false ->
  includes "?" id = false ->
  actualFolderId arg = Ok (computed_folder_id arg)
  /\ actualFolderId id = Ok id
  /\ actualFolderId (base ++ "folders/" ++ id) = Ok id
  /\ actualFolderId (base ++ "folders/" ++ id ++ "?" ++ query) = Ok id
  /\ listPhotosInFolder net (base ++ "folders/" ++ id) w
     = listPhotosInFolder net id w
  /\ listPhotosInFolder net (base ++ "folders/" ++ id ++ "?" ++ query) w
     = listPhotosInFolder net id w.
Proof.
  intros Hb Hi Hq.
  pose proof (actualFolderId_bare id Hi) as H0.
  pose proof (actualFolderId_url base id Hb Hi Hq) as H1.
  pose proof (actualFolderId_url_query base id query Hb Hi Hq) as H2.
  repeat split; auto using actualFolderId_computed.
  - apply listPhotosInFolder_same_id. congruence.
  - apply listPhotosInFolder_same_id. congruence.
Qed.

(** The sentence of the specification fails on an argument in which
    "folders/" occurs twice: the code stops at the second occurrence. *)
Lemma claimed_folder_id_counterexample :
  actualFolderId "https://drive.example.com/folders/AB/folders/CD" = Ok "AB/"
  /\ claimed_folder_id "https://drive.example.com/folders/AB/folders/CD"
     = "AB/folders/CD"
  /\ actualFolderId "https://drive.example.com/folders/AB/folders/CD"
     <> Ok (claimed_folder_id "https://drive.example.com/folders/AB/folders/CD").
Proof. split; [reflexivity | split; [reflexivity | discriminate]]. Qed.

Lemma listPhotosInFolder_url_or_id_witness :
  listPhotosInFolder Sample.net
    "https://drive.google.com/drive/folders/XYZ123?usp=sharing" Sample.world
  = listPhotosInFolder Sample.net "XYZ123" Sample.world
  /\ actualFolderId "https://drive.google.com/drive/folders/XYZ123?usp=sharing"
     = Ok "XYZ123".
Proof.
  destruct (listPhotosInFolder_url_or_id Sample.net Sample.world "XYZ123"
              "https://drive.google.com/drive/" "XYZ123" "usp=sharing"
              eq_refl eq_refl eq_refl)
    as (_ & _ & _ & H1 & _ & H2).
  split; [exact H2 | exact H1].
Defined.

End FolderArgument.

(** ** Removing duplicates *)

Section Dedupe.

Import App.

Lemma findIndex_from_none {A : Type} (f : A -> bool) (i : Z) (pre : list A)
  (x : A) (r : list A) :
  forallb (fun y => negb (f y)) pre = true -> f x = true ->
  findIndex_from f i (pre ++ x :: r) = i + Z.of_nat (length pre).
Proof.
  revert i. induction pre as [|y pre IH]; intros i Hpre Hx; simpl in *.
  - rewrite Hx. lia.
  - apply andb_true_iff in Hpre as [Hy Hpre].
    destruct (f y); [discriminate|]. rewrite IH by assumption. lia.
Qed.

Lemma findIndex_from_some {A : Type} (f : A -> bool) (i : Z) (pre r : list A) :
  existsb f pre = true ->
  i <= findIndex_from f i (pre ++ r) < i + Z.of_nat (length pre).
Proof.
  revert i. induction pre as [|y pre IH]; intros i Hpre; simpl in *.
  - discriminate.
  - destruct (f y) eqn:E; [lia|]. simpl in Hpre.
    specialize (IH (i + 1) Hpre). lia.
Qed.

Lemma existsb_ids (s : string) (pre : list DrivePhoto.t) :
  existsb (fun p => String.eqb (DrivePhoto.id p) s) pre
  = existsb (String.eqb s) (ids pre).
Proof.
  induction pre as [|y pre IH]; simpl; [reflexivity|].
  rewrite IH, (String.eqb_sym s). reflexivity.
Qed.

Lemma forallb_negb_existsb {A : Type} (f : A -> bool) (l : list A) :
  forallb (fun y => negb (f y)) l = negb (existsb f l).
Proof.
  induction l as [|y l IH]; simpl; [reflexivity|].
  rewrite IH, negb_orb. reflexivity.
Qed.

Lemma existsb_ids_snoc (s : string) (pre : list DrivePhoto.t) (x : DrivePhoto.t) :
  existsb (String.eqb s) (ids (pre ++ [x])%list)
  = existsb (String.eqb s) (ids pre) || String.eqb s (DrivePhoto.id x).
Proof.
  unfold ids. rewrite map_app, existsb_app. simpl.
  rewrite orb_false_r. reflexivity.
Qed.

(** The filter of the code, started in the middle of the list, is the fold
    over the ids seen so far. *)
Lemma filter_from_dedupe (pre suf : list DrivePhoto.t) (seen : list string) :
  (forall s, existsb (String.eqb s) seen = existsb (String.eqb s) (ids pre)) ->
  filter_from
    (fun photo index =>
       index =? findIndex
                  (fun p => String.eqb (DrivePhoto.id p) (DrivePhoto.id photo))
                  (pre ++ suf)%list)
    (Z.of_nat (length pre)) suf
  = dedupe_by_id seen suf.
Proof.
  revert pre seen. induction suf as [|x suf IH]; intros pre seen Hseen;
    [reflexivity|].
  cbn [filter_from dedupe_by_id].
  assert (Hstep : forall seen',
    (forall s, existsb (String.eqb s) seen'
               = existsb (String.eqb s) (ids (pre ++ [x])%list)) ->
    filter_from
      (fun photo index =>
         index =? findIndex
                    (fun p => String.eqb (DrivePhoto.id p) (DrivePhoto.id photo))
                    (pre ++ x :: suf)%list)
      (Z.of_nat (length pre) + 1) suf
    = dedupe_by_id seen' suf).
  { intros seen' H'. specialize (IH (pre ++ [x])%list seen' H').
    rewrite <- app_assoc in IH. cbn [app] in IH.
    rewrite length_app in IH. cbn [length] in IH.
    replace (Z.of_nat (length pre + 1)) with (Z.of_nat (length pre) + 1) in IH
      by lia.
    exact IH. }
  rewrite Hseen, <- existsb_ids.
  destruct (existsb _ pre) eqn:E.
  - pose proof (findIndex_from_some _ 0 pre (x :: suf) E) as Hb.
    unfold findIndex at 1.
    destruct (_ =? _) eqn:E'; [apply Z.eqb_eq in E'; lia|].
    apply Hstep. intros s. rewrite existsb_ids_snoc, Hseen.
    destruct (String.eqb s (DrivePhoto.id x)) eqn:Es.
    + apply String.eqb_eq in Es. subst s.
      rewrite <- existsb_ids, E. reflexivity.
    + rewrite orb_false_r. reflexivity.
  - unfold findIndex at 1.
    rewrite findIndex_from_none;
      [| rewrite forallb_negb_existsb, E; reflexivity | apply String.eqb_refl].
    rewrite Z.add_0_l, Z.eqb_refl. f_equal.
    apply Hstep. intros s. rewrite existsb_ids_snoc. simpl.
    rewrite Hseen, orb_comm. reflexivity.
Qed.

(** The code removes duplicates as the specification says. *)
Lemma uniquePhotos_dedupe (l : list DrivePhoto.t) :
  uniquePhotos l = dedupe_by_id [] l.
Proof.
  unfold uniquePhotos, filter_indexed.
  apply (filter_from_dedupe [] l []). reflexivity.
Qed.

Lemma existsb_eqb_In (s : string) (l : list string) :
  existsb (String.eqb s) l = true <-> In s l.
Proof.
  rewrite existsb_exists. split.
  - intros (y & Hy & E). apply String.eqb_eq in E. subst. exact Hy.
  - intros H. exists s. split; [exact H | apply String.eqb_refl].
Qed.

Lemma dedupe_by_id_In (seen : list string) (l : list DrivePhoto.t)
  (p : DrivePhoto.t) :
  In p (dedupe_by_id seen l) -> In p l /\ ~ In (DrivePhoto.id p) seen.
Proof.
  revert seen. induction l as [|x l IH]; intros seen H; simpl in *; [tauto|].
  destruct (existsb _ seen) eqn:E.
  - destruct (IH _ H). auto.
  - destruct H as [->|H].
    + split; [auto|]. intros Hin. apply existsb_eqb_In in Hin. congruence.
    + destruct (IH _ H) as [H1 H2]. split; [auto|].
      intros Hin. apply H2. right. exact Hin.
Qed.

(** No id occurs twice in the result. *)
Lemma dedupe_by_id_NoDup (seen : list string) (l : list DrivePhoto.t) :
  NoDup (ids (dedupe_by_id seen l)).
Proof.
  revert seen. induction l as [|x l IH]; intros seen; simpl.
  - constructor.
  - destruct (existsb _ seen) eqn:E; [apply IH|].
    simpl. constructor; [|apply IH].
    intros Hin. apply list_elem_of_In in Hin.
    unfold ids in Hin. apply in_map_iff in Hin as (p & Hp & Hin).
    apply dedupe_by_id_In in Hin as [_ Hin]. apply Hin. left. symmetry. exact Hp.
Qed.

(** Every id of the input that was not seen before occurs in the result. *)
Lemma dedupe_by_id_complete (seen : list string) (l : list DrivePhoto.t)
  (s : string) :
  In s (ids l) -> In s seen \/ In s (ids (dedupe_by_id seen l)).
Proof.
  revert seen. induction l as [|x l IH]; intros seen H; simpl in *; [tauto|].
  destruct (existsb _ seen) eqn:E.
  - destruct H as [<-|H]; [left; apply existsb_eqb_In; exact E | auto].
  - destruct H as [<-|H]; [right; left; reflexivity|].
    destruct (IH (DrivePhoto.id x :: seen) H) as [[<-|H']|H'].
    + right. left. reflexivity.
    + left. exact H'.
    + right. right. exact H'.
Qed.

(** Every photo of the result stands in the input at the first place where
    its id occurs, and the result keeps the order of the input. *)
Lemma dedupe_by_id_first (seen : list string) (l : list DrivePhoto.t)
  (p : DrivePhoto.t) :
  In p (dedupe_by_id seen l) ->
  exists l1 l2, l = (l1 ++ p :: l2)%list /\ ~ In (DrivePhoto.id p) (ids l1).
Proof.
  revert seen. induction l as [|x l IH]; intros seen H; simpl in *; [tauto|].
  destruct (existsb _ seen) eqn:E.
  - pose proof (dedupe_by_id_In _ _ _ H) as [_ Hseen].
    destruct (IH _ H) as (l1 & l2 & -> & Hn).
    exists (x :: l1), l2. split; [reflexivity|].
    simpl. intros [Hx|Hx]; [|tauto].
    apply Hseen. rewrite <- Hx. apply existsb_eqb_In. exact E.
  - destruct H as [->|H].
    + exists [], l. split; [reflexivity | simpl; tauto].
    + pose proof (dedupe_by_id_In _ _ _ H) as [_ Hseen].
      destruct (IH _ H) as (l1 & l2 & -> & Hn).
      exists (x :: l1), l2. split; [reflexivity|].
      simpl. intros [Hx|Hx]; [|tauto].
      apply Hseen. left. exact Hx.
Qed.

Lemma dedupe_by_id_sublist (seen : list string) (l : list DrivePhoto.t) :
  sublist (dedupe_by_id seen l) l.
Proof.
  revert seen. induction l as [|x l IH]; intros seen; simpl.
  - constructor.
  - destruct (existsb _ seen).
    + apply sublist_cons. apply IH.
    + apply sublist_skip. apply IH.
Qed.

(** The properties of the deduplicated sequence, together. *)
Lemma uniquePhotos_spec (l : list DrivePhoto.t) :
  uniquePhotos l = dedupe_by_id [] l
  /\ NoDup (ids (uniquePhotos l))
  /\ (forall s, In s (ids l) <-> In s (ids (uniquePhotos l)))
  /\ (forall p, In p (uniquePhotos l) ->
        exists l1 l2, l = (l1 ++ p :: l2)%list
                      /\ ~ In (DrivePhoto.id p) (ids l1))
  /\ sublist (uniquePhotos l) l.
Proof.
  rewrite uniquePhotos_dedupe. split; [reflexivity|].
  split; [apply dedupe_by_id_NoDup|].
  split; [|split; [apply dedupe_by_id_first | apply dedupe_by_id_sublist]].
  intros s. split.
  - intros H. destruct (dedupe_by_id_complete [] l s H) as [[]|H']. exact H'.
  - intros H. unfold ids in *. apply in_map_iff in H as (p & <- & Hp).
    apply in_map. apply dedupe_by_id_In in Hp as [Hp _]. exact Hp.
Qed.

End Dedupe.

(** ** Aggregation *)

Section Aggregation.

Import Json GoogleDriveService App.

Lemma makeDriveRequest_frame (net : Network) (endpoint : string)
  (params : list (string * string)) (w : World) :
  let w' := fst (makeDriveRequest net endpoint params w) in
  driveAccessToken w' = driveAccessToken w
  /\ localStorage w' = localStorage w
  /\ exists sent, requests w' = (requests w ++ sent)%list.
Proof.
  unfold makeDriveRequest.
  destruct (negb (truthy (driveAccessToken w))); simpl.
  - repeat split. exists []. rewrite app_nil_r. reflexivity.
  - destruct (drive_endpoint net _) as [resp|e]; simpl.
    + destruct (negb (ok resp)); simpl; repeat split; eexists; reflexivity.
    + repeat split; eexists; reflexivity.
Qed.

Lemma makeDriveRequest_result (net : Network) (endpoint : string)
  (params : list (string * string)) (w1 w2 : World) :
  driveAccessToken w1 = driveAccessToken w2 ->
  snd (makeDriveRequest net endpoint params w1)
  = snd (makeDriveRequest net endpoint params w2).
Proof.
  intros H. unfold makeDriveRequest. rewrite H.
  destruct (negb (truthy (driveAccessToken w2))); [reflexivity|].
  destruct (drive_endpoint net _) as [resp|e]; [|reflexivity].
  destruct (negb (ok resp)); reflexivity.
Qed.

Lemma listPhotosInFolder_frame (net : Network) (folderId : string) (w : World) :
  let w' := fst (listPhotosInFolder net folderId w) in
  driveAccessToken w' = driveAccessToken w
  /\ localStorage w' = localStorage w
  /\ exists sent, requests w' = (requests w ++ sent)%list.
Proof.
  unfold listPhotosInFolder.
  destruct (actualFolderId folderId) as [actual|e]; simpl.
  - pose proof (makeDriveRequest_frame net "files" (listing_params actual) w) as H.
    destruct (makeDriveRequest net "files" (listing_params actual) w)
      as [w1 [files|e]]; simpl in *; exact H.
  - repeat split. exists []. rewrite app_nil_r. reflexivity.
Qed.

Lemma listPhotosInFolder_result (net : Network) (folderId : string)
  (w1 w2 : World) :
  driveAccessToken w1 = driveAccessToken w2 ->
  snd (listPhotosInFolder net folderId w1)
  = snd (listPhotosInFolder net folderId w2).
Proof.
  intros H. unfold listPhotosInFolder.
  destruct (actualFolderId folderId) as [actual|e]; [|reflexivity].
  pose proof (makeDriveRequest_result net "files" (listing_params actual) w1 w2 H) as Hr.
  pose proof (makeDriveRequest_frame net "files" (listing_params actual) w1) as (H1 & _).
  pose proof (makeDriveRequest_frame net "files" (listing_params actual) w2) as (H2 & _).
  destruct (makeDriveRequest net "files" (listing_params actual) w1) as [u1 r1].
  destruct (makeDriveRequest net "files" (listing_params actual) w2) as [u2 r2].
  simpl in *. subst r2.
  destruct r1; simpl; [|reflexivity]. congruence.
Qed.

Lemma folder_photos_token (net : Network) (w1 w2 : World)
  (rootFolderId : string) (folderIds : list string) :
  driveAccessToken w1 = driveAccessToken w2 ->
  List.map (folder_photos net w1 rootFolderId) folderIds
  = List.map (folder_photos net w2 rootFolderId) folderIds.
Proof.
  intros H. apply map_ext. intros g. unfold folder_photos, folder_listing.
  rewrite (listPhotosInFolder_result net _ w1 w2 H). reflexivity.
Qed.

(** The loop over the selected folders appends, folder after folder, the
    photos of the listings that succeeded. *)
Lemma fold_load_folder (net : Network) (rootFolderId : string)
  (folderIds : list string) (w : World) (acc : list DrivePhoto.t) :
  let r := fold_left (load_folder net rootFolderId) folderIds (w, acc) in
  snd r = (acc ++ concat (List.map (folder_photos net w rootFolderId) folderIds))%list
  /\ driveAccessToken (fst r) = driveAccessToken w
  /\ localStorage (fst r) = localStorage w.
Proof.
  revert w acc. induction folderIds as [|f folderIds IH]; intros w acc; simpl.
  - rewrite app_nil_r. auto.
  - unfold folder_photos at 1, folder_listing at 1.
    pose proof (listPhotosInFolder_frame net
                  (if String.eqb f "root" then rootFolderId else f) w) as (Ht & Hs & _).
    destruct (listPhotosInFolder net _ w) as [w1 [photos|e]]; simpl in *.
    + destruct (IH w1 (acc ++ photos)%list) as (H1 & H2 & H3).
      rewrite (folder_photos_token net w1 w _ _ Ht) in H1.
      rewrite H1, H2, H3, <- app_assoc. repeat split; congruence.
    + destruct (IH (console_error "Error loading photos from folder" w1) acc)
        as (H1 & H2 & H3).
      rewrite (folder_photos_token net
                 (console_error "Error loading photos from folder" w1) w _ _ Ht)
        in H1.
      rewrite H1, H2, H3. repeat split; simpl; congruence.
Qed.

(** What [loadPhotosFromDrive] does once the URL and the selection are read. *)
Lemma loadPhotosFromDrive_loaded (net : Network) (w : World) (a : State)
  (savedUrl rootFolderId : string) (folderIds : list string) :
  getItem "shared_moments_folder_url" w = Some savedUrl ->
  match_folders savedUrl = Some rootFolderId ->
  stored_selection w = Some folderIds ->
  exists w' a',
    loadPhotosFromDrive net w a = Some (w', a')
    /\ drivePhotos a'
       = uniquePhotos
           (concat (List.map (folder_photos net w rootFolderId) folderIds))
    /\ photoError a' = None
    /\ isLoadingPhotos a' = false
    /\ currentPhotoIndex a' = currentPhotoIndex a.
Proof.
  intros Hurl Hmatch Hsel. unfold loadPhotosFromDrive, stored_selection in *.
  rewrite Hurl.
  assert (Ht : JsString.not_empty savedUrl = true).
  { destruct savedUrl; [discriminate Hmatch | reflexivity]. }
  rewrite Ht, Hmatch.
  pose proof (fold_load_folder net rootFolderId) as Hfold.
  assert (Hdone : forall ids, exists w' a',
    (let '(w1, allPhotos) := fold_left (load_folder net rootFolderId) ids (w, []) in
     Some (w1, setIsLoadingPhotos false
                 (setDrivePhotos (uniquePhotos allPhotos)
                    (setPhotoError None (setIsLoadingPhotos true a)))))
    = Some (w', a')
    /\ drivePhotos a'
       = uniquePhotos (concat (List.map (folder_photos net w rootFolderId) ids))
    /\ photoError a' = None /\ isLoadingPhotos a' = false
    /\ currentPhotoIndex a' = currentPhotoIndex a).
  { intros ids. specialize (Hfold ids w []). simpl in Hfold.
    destruct (fold_left _ ids (w, [])) as [w1 allPhotos]. simpl in Hfold.
    destruct Hfold as (-> & _). do 2 eexists. split; [reflexivity|]. simpl. auto. }
  destruct (getItem "selected_folders" w) as [text|].
  - destruct (JsString.not_empty text).
    + destruct (JSON_parse text) as [v rest|why]; try discriminate.
      destruct v; try discriminate. rewrite Hsel. simpl. apply Hdone.
    + inversion Hsel; subst. simpl. apply (Hdone ["root"]).
  - inversion Hsel; subst. simpl. apply (Hdone ["root"]).
Qed.

End Aggregation.

(** ** The root folder URL *)

Section RootUrl.

Import JsString App.

Lemma match_folders_none (url : string) :
  includes "/folders/" url = false -> match_folders url = None.
Proof.
  induction url as [|c url IH]; intros H.
  - reflexivity.
  - apply includes_false_cons in H as [H1 H2].
    cbn [match_folders]. rewrite H1. apply IH. exact H2.
Qed.

Lemma takeWhile_segment (seg rest : string) :
  forallb segment_char (list_ascii_of_string seg) = true ->
  match rest with
  | EmptyString => True
  | String c _ => segment_char c = false
  end ->
  takeWhile segment_char (seg ++ rest) = seg.
Proof.
  intros Hseg Hrest. induction seg as [|c seg IH]; simpl in *.
  - destruct rest as [|c r]; [reflexivity|]. simpl. rewrite Hrest. reflexivity.
  - apply andb_true_iff in Hseg as [Hc Hseg]. rewrite Hc, IH by exact Hseg.
    reflexivity.
Qed.

Ltac next_char H :=
  cbn [strip_prefix String.append] in H |- *;
  match type of H with
  | (if Ascii.eqb ?a ?c then _ else None) = Some _ =>
      let E := fresh "E" in
      destruct (Ascii.eqb a c) eqn:E; [|discriminate H]
  end.

Ltac into_text p H :=
  destruct p as [|? p];
  [cbn [strip_prefix String.append] in H; simpl in H;
   first [discriminate H | eexists; reflexivity]
  | next_char H].

(** An occurrence of "/folders/" that starts inside [p] ends at the latest
    on the slash that follows [p]. *)
Lemma prefix_slash_folders_inside (p rest r : string) (c : ascii) :
  strip_prefix "/folders/" (String c p ++ "/" ++ rest) = Some r ->
  exists r', strip_prefix "/folders/" (String c p ++ "/") = Some r'.
Proof.
  intros H. next_char H.
  do 8 (into_text p H).
  eexists. reflexivity.
Qed.

(** The segment that follows the first "/folders/" is what the pattern
    captures, when it is not empty and ends at a slash, at a question mark
    or with the URL. *)
Lemma match_folders_segment (base seg rest : string) :
  includes "/folders/" (base ++ "/") = false ->
  seg <> EmptyString ->
  forallb segment_char (list_ascii_of_string seg) = true ->
  match rest with
  | EmptyString => True
  | String c _ => segment_char c = false
  end ->
  match_folders (base ++ "/folders/" ++ seg ++ rest) = Some seg.
Proof.
  intros Hb Hne Hseg Hrest. induction base as [|c base IH].
  - change (EmptyString ++ "/folders/" ++ seg ++ rest)
      with ("/folders/" ++ seg ++ rest).
    destruct seg as [|s0 seg]; [congruence|].
    simpl in Hseg. apply andb_true_iff in Hseg as [Hs0 Hseg].
    pose proof (takeWhile_segment seg rest Hseg Hrest) as Ht.
    simpl. rewrite Hs0, Ht. reflexivity.
  - change (String c base ++ "/") with (String c (base ++ "/")) in Hb.
    apply includes_false_cons in Hb as [H1 H2].
    change (String c base ++ "/folders/" ++ seg ++ rest)
      with (String c (base ++ "/folders/" ++ seg ++ rest)).
    cbn [match_folders].
    destruct (strip_prefix "/folders/"
                (String c (base ++ "/folders/" ++ seg ++ rest))) eqn:E.
    + apply (prefix_slash_folders_inside base
               ("folders/" ++ seg ++ rest) s c) in E as [r' E].
      change (String c base ++ "/") with (String c (base ++ "/")) in E.
      congruence.
    + apply IH. exact H2.
Qed.

End RootUrl.

(** ** The aggregated sequence *)

Section AggregatedSequence.

Import Json JsString GoogleDriveService App.

(** C1. When the stored URL names a root folder and the stored selection is
    a list of folder ids, loadPhotosFromDrive yields the concatenation of the
    per-folder listing results, folders in the stored order and photos in the
    order of arrival, with later duplicates removed by id: no id occurs twice,
    every id of a listing result occurs, every photo kept is the first one of
    its id, and the result has no other entries and keeps the order. *)
Theorem loadPhotosFromDrive_dedupes (net : Network) (w : World) (a : State)
  (savedUrl rootFolderId : string) (folderIds : list string) :
  getItem "shared_moments_folder_url" w = Some savedUrl ->
  match_folders savedUrl = Some rootFolderId ->
  stored_selection w = Some folderIds ->
  let all := concat (List.map (folder_photos net w rootFolderId) folderIds) in
  exists w' a',
    loadPhotosFromDrive net w a = Some (w', a')
    /\ drivePhotos a' = dedupe_by_id [] all
    /\ NoDup (ids (drivePhotos a'))
    /\ (forall s, In s (ids all) <-> In s (ids (drivePhotos a')))
    /\ (forall p, In p (drivePhotos a') ->
          exists l1 l2, all = (l1 ++ p :: l2)%list
                        /\ ~ In (DrivePhoto.id p) (ids l1))
    /\ sublist (drivePhotos a') all.
Proof.
  intros Hurl Hmatch Hsel all.
  destruct (loadPhotosFromDrive_loaded net w a _ _ _ Hurl Hmatch Hsel)
    as (w' & a' & Hload & Hphotos & _).
  fold all in Hphotos.
  destruct (uniquePhotos_spec all) as (H1 & H2 & H3 & H4 & H5).
  exists w', a'. rewrite Hphotos. auto 10.
Qed.

Lemma loadPhotosFromDrive_dedupes_witness :
  exists w' a',
    loadPhotosFromDrive Sample.net Sample.world Sample.app = Some (w', a')
    /\ ids (drivePhotos a') = ["A"; "C"; "D"].
Proof.
  destruct (loadPhotosFromDrive_dedupes Sample.net Sample.world Sample.app
              Sample.share_url "XYZ123" ["root"; "sub1"; "sub2"]
              eq_refl eq_refl eq_refl)
    as (w' & a' & Hload & Hphotos & _).
  exists w', a'. split; [exact Hload|]. rewrite Hphotos. reflexivity.
Defined.

Lemma folder_photos_failed (net : Network) (w : World) (rootFolderId : string)
  (failing : string) (e : JsError) :
  folder_listing net w rootFolderId failing = Throw e ->
  folder_photos net w rootFolderId failing = [].
Proof. intros H. unfold folder_photos. rewrite H. reflexivity. Qed.

Lemma folder_photos_listed (net : Network) (w : World) (rootFolderId : string)
  (folderIds : list string) (results : list (list DrivePhoto.t)) :
  Forall2 (fun f photos => folder_listing net w rootFolderId f = Ok photos)
    folderIds results ->
  List.map (folder_photos net w rootFolderId) folderIds = results.
Proof.
  induction 1 as [|f photos fs rs Hf _ IH]; simpl; [reflexivity|].
  unfold folder_photos at 1. rewrite Hf, IH. reflexivity.
Qed.

(** C4. When the listing of one selected folder throws and the listings of
    the other selected folders succeed, loadPhotosFromDrive yields the
    deduplicated concatenation of the results of those other folders, sets no
    error message and ends with the loading flag off. *)
Theorem loadPhotosFromDrive_partial_failure (net : Network) (w : World)
  (a : State) (savedUrl rootFolderId : string)
  (before after : list string) (failing : string) (e : JsError)
  (results : list (list DrivePhoto.t)) :
  getItem "shared_moments_folder_url" w = Some savedUrl ->
  match_folders savedUrl = Some rootFolderId ->
  stored_selection w = Some (before ++ failing :: after)%list ->
  folder_listing net w rootFolderId failing = Throw e ->
  Forall2 (fun f photos => folder_listing net w rootFolderId f = Ok photos)
    (before ++ after)%list results ->
  exists w' a',
    loadPhotosFromDrive net w a = Some (w', a')
    /\ drivePhotos a' = uniquePhotos (concat results)
    /\ drivePhotos a' = dedupe_by_id [] (concat results)
    /\ photoError a' = None
    /\ isLoadingPhotos a' = false.
Proof.
  intros Hurl Hmatch Hsel Hfail Hok.
  destruct (loadPhotosFromDrive_loaded net w a _ _ _ Hurl Hmatch Hsel)
    as (w' & a' & Hload & Hphotos & Herr & Hflag & _).
  exists w', a'.
  rewrite map_app in Hphotos. cbn [List.map] in Hphotos.
  rewrite (folder_photos_failed _ _ _ _ _ Hfail) in Hphotos.
  rewrite concat_app in Hphotos. cbn [concat app] in Hphotos.
  rewrite <- concat_app, <- map_app in Hphotos.
  rewrite (folder_photos_listed _ _ _ _ _ Hok) in Hphotos.
  rewrite <- uniquePhotos_dedupe. auto.
Qed.

Lemma loadPhotosFromDrive_partial_failure_witness :
  exists w' a',
    loadPhotosFromDrive Sample.net Sample.world Sample.app = Some (w', a')
    /\ ids (drivePhotos a') = ["A"; "C"; "D"]
    /\ photoError a' = None.
Proof.
  destruct (loadPhotosFromDrive_partial_failure Sample.net Sample.world
              Sample.app Sample.share_url "XYZ123" ["root"; "sub1"] [] "sub2"
              (DriveApiError 500 "backend error")
              [ List.map (toPhoto (Some "token-1")) [Sample.fileA; Sample.fileC];
                List.map (toPhoto (Some "token-1")) [Sample.fileA; Sample.fileD] ]
              eq_refl eq_refl eq_refl eq_refl)
    as (w' & a' & Hload & Hphotos & _ & Herr & _).
  - repeat constructor.
  - exists w', a'. split; [exact Hload|]. rewrite Hphotos.
    split; [reflexivity | exact Herr].
Defined.

End AggregatedSequence.

(** ** An unusable root folder URL *)

Section InvalidUrl.

Import Json JsString GoogleDriveService App.

(** With a URL that has no "/folders/" in it, the world is left as it was:
    no request is sent. *)
Lemma loadPhotosFromDrive_no_folders_world (net : Network) (w : World)
  (a : State) (savedUrl : string) (w' : World) (a' : State) :
  getItem "shared_moments_folder_url" w = Some savedUrl ->
  includes "/folders/" savedUrl = false ->
  loadPhotosFromDrive net w a = Some (w', a') ->
  requests w' = requests w /\ drivePhotos a' = drivePhotos a
  /\ exists msg, photoError a' = Some msg.
Proof.
  intros Hurl Hinc. unfold loadPhotosFromDrive. rewrite Hurl.
  rewrite (match_folders_none _ Hinc).
  destruct (not_empty savedUrl).
  - destruct (getItem "selected_folders" w) as [text|].
    + destruct (not_empty text).
      * destruct (JSON_parse text) as [v rest|[]]; intros H; inversion H;
          subst; simpl; eauto.
      * intros H; inversion H; subst; simpl; eauto.
    + intros H; inversion H; subst; simpl; eauto.
  - intros H; inversion H; subst; simpl; eauto.
Qed.

(** C2, as the code has it.  The pattern captures the segment that follows
    "/folders/" up to the next slash or question mark, XYZ123 for the URL of
    the specification.  With a stored URL that contains no "/folders/",
    loadPhotosFromDrive sends no request and loads no photo; it reports the
    invalid-folder-URL error when the URL is not empty and the stored
    selection, which is parsed first, is absent, empty or well-formed JSON. *)
Theorem loadPhotosFromDrive_invalid_url (net : Network) (w : World) (a : State)
  (savedUrl : string) :
  getItem "shared_moments_folder_url" w = Some savedUrl ->
  includes "/folders/" savedUrl = false ->
  match_folders "https://drive.example.com/drive/folders/XYZ123?usp=sharing"
  = Some "XYZ123"
  /\ (forall base seg rest,
        includes "/folders/" (base ++ "/") = false ->
        seg <> EmptyString ->
        forallb segment_char (list_ascii_of_string seg) = true ->
        match rest with
        | EmptyString => True
        | String c _ => c = "/"%char \/ c = "?"%char
        end ->
        match_folders (base ++ "/folders/" ++ seg ++ rest) = Some seg)
  /\ match_folders savedUrl = None
  /\ (forall w' a',
        loadPhotosFromDrive net w a = Some (w', a') ->
        requests w' = requests w /\ drivePhotos a' = drivePhotos a
        /\ exists msg, photoError a' = Some msg)
  /\ (savedUrl <> EmptyString ->
      selection_is_json w = true ->
      loadPhotosFromDrive net w a
      = Some (w, mkState (drivePhotos a) false (Some error_invalid_url)
                   (currentPhotoIndex a))).
Proof.
  intros Hurl Hinc.
  split; [reflexivity|].
  split.
  { intros base seg rest Hb Hne Hseg Hrest.
    apply match_folders_segment; auto.
    destruct rest as [|c r]; [exact I|].
    destruct Hrest as [-> | ->]; reflexivity. }
  split; [apply match_folders_none; exact Hinc|].
  split.
  { intros w' a'. apply loadPhotosFromDrive_no_folders_world with savedUrl; auto. }
  intros Hne Hjson. unfold loadPhotosFromDrive, selection_is_json in *.
  rewrite Hurl. rewrite (match_folders_none _ Hinc).
  destruct savedUrl as [|c u]; [congruence|]. cbn [not_empty].
  destruct (getItem "selected_folders" w) as [text|]; [|reflexivity].
  destruct (not_empty text); [|reflexivity].
  destruct (JSON_parse text); try discriminate. reflexivity.
Qed.

Lemma loadPhotosFromDrive_invalid_url_witness :
  let w := Sample.signed_in
             (<["shared_moments_folder_url" := "https://drive.example.com/drive/"]>
                (<["selected_folders" := Sample.selection_text]> ∅)) in
  loadPhotosFromDrive Sample.net w Sample.app
  = Some (w, mkState [] false (Some error_invalid_url) 0).
Proof.
  intros w.
  refine (proj2 (proj2 (proj2 (proj2
    (loadPhotosFromDrive_invalid_url Sample.net w Sample.app
       "https://drive.example.com/drive/" eq_refl eq_refl)))) _ eq_refl).
  discriminate.
Defined.

(** The sentence of the specification fails when the stored selection is
    not JSON: the selection is parsed before the URL is examined, and the run
    ends in the catch clause, with the message of a failed load. *)
Lemma loadPhotosFromDrive_invalid_url_counterexample :
  let w := Sample.signed_in
             (<["shared_moments_folder_url" := "https://drive.example.com/drive/"]>
                (<["selected_folders" := "{"]> ∅)) in
  includes "/folders/" "https://drive.example.com/drive/" = false
  /\ (photoError <$> (snd <$> loadPhotosFromDrive Sample.net w Sample.app))
     = Some (Some error_failed)
  /\ error_failed <> error_invalid_url.
Proof.
  intros w. split; [reflexivity|]. split; [reflexivity|]. discriminate.
Qed.

(** An empty stored URL counts as no URL at all. *)
Example loadPhotosFromDrive_empty_url :
  let w := Sample.signed_in (<["shared_moments_folder_url" := EmptyString]> ∅) in
  (photoError <$> (snd <$> loadPhotosFromDrive Sample.net w Sample.app))
  = Some (Some error_not_configured).
Proof. reflexivity. Qed.

End InvalidUrl.

(** ** Preview URLs *)

Section PreviewUrl.

Import JsString GoogleDriveService.

Lemma listPhotosInFolder_listed (net : Network) (w : World)
  (folderId token : string) (response : Response (list DriveFile))
  (files : list DriveFile) :
  driveAccessToken w = Some token ->
  token <> EmptyString ->
  drive_endpoint net (listing_request folderId token) = Ok response ->
  ok response = true ->
  json response = Ok files ->
  snd (listPhotosInFolder net folderId w)
  = Ok (List.map (toPhoto (Some token)) (List.filter isImage files)).
Proof.
  intros Htok Hne Hnet Hok Hjson.
  unfold listPhotosInFolder, makeDriveRequest, listing_request in *.
  rewrite actualFolderId_computed, Htok.
  destruct token as [|c t]; [congruence|]. cbn [truthy not_empty negb token_text].
  rewrite Hnet, Hok, Hjson. simpl. rewrite Htok. reflexivity.
Qed.

(** C8. The preview URL of a photo is the thumbnail endpoint with the id of
    the entry put in, whatever the access token: two runs of
    listPhotosInFolder that are answered with the same entries under two
    access tokens both return the photos of the image entries, with the same
    preview URLs, each a function of the id of its entry. *)
Theorem thumbnailLink_independent_of_token (net : Network) (w1 w2 : World)
  (folderId token1 token2 : string)
  (response1 response2 : Response (list DriveFile)) (files : list DriveFile) :
  driveAccessToken w1 = Some token1 -> token1 <> EmptyString ->
  driveAccessToken w2 = Some token2 -> token2 <> EmptyString ->
  drive_endpoint net (listing_request folderId token1) = Ok response1 ->
  drive_endpoint net (listing_request folderId token2) = Ok response2 ->
  ok response1 = true -> json response1 = Ok files ->
  ok response2 = true -> json response2 = Ok files ->
  exists photos1 photos2,
    snd (listPhotosInFolder net folderId w1) = Ok photos1
    /\ snd (listPhotosInFolder net folderId w2) = Ok photos2
    /\ List.map DrivePhoto.thumbnailLink photos1
       = List.map DrivePhoto.thumbnailLink photos2
    /\ List.map DrivePhoto.thumbnailLink photos1
       = List.map (fun file => Some (imageUrl (file_id file)))
           (List.filter isImage files)
    /\ (forall token file,
          DrivePhoto.thumbnailLink (toPhoto token file)
          = Some ("https://drive.google.com/thumbnail?id=" ++ file_id file
                  ++ "&sz=w800")).
Proof.
  intros Ht1 Hn1 Ht2 Hn2 Hnet1 Hnet2 Hok1 Hj1 Hok2 Hj2.
  do 2 eexists.
  split; [eapply listPhotosInFolder_listed; eauto|].
  split; [eapply listPhotosInFolder_listed; eauto|].
  rewrite !List.map_map. simpl. auto.
Qed.

Lemma thumbnailLink_independent_of_token_witness :
  exists photos1 photos2,
    snd (listPhotosInFolder Sample.net "XYZ123"
           (set_driveAccessToken (Some "token-1") Sample.world)) = Ok photos1
    /\ snd (listPhotosInFolder Sample.net "XYZ123"
              (set_driveAccessToken (Some "token-2") Sample.world)) = Ok photos2
    /\ List.map DrivePhoto.thumbnailLink photos1
       = List.map DrivePhoto.thumbnailLink photos2
    /\ List.map DrivePhoto.webContentLink photos1
       <> List.map DrivePhoto.webContentLink photos2.
Proof.
  destruct (thumbnailLink_independent_of_token Sample.net
              (set_driveAccessToken (Some "token-1") Sample.world)
              (set_driveAccessToken (Some "token-2") Sample.world)
              "XYZ123" "token-1" "token-2"
              (mkResponse true 200 EmptyString (Ok [Sample.fileA; Sample.fileB; Sample.fileC]))
              (mkResponse true 200 EmptyString (Ok [Sample.fileA; Sample.fileB; Sample.fileC]))
              [Sample.fileA; Sample.fileB; Sample.fileC])
    as (photos1 & photos2 & H1 & H2 & H3 & _);
    try reflexivity; try discriminate.
  exists photos1, photos2.
  split; [exact H1|]. split; [exact H2|]. split; [exact H3|].
  simpl in H1, H2. inversion H1. inversion H2. discriminate.
Defined.

End PreviewUrl.

(** ** JSON text of a user *)

Section JsonRoundTrip.

Import Json GoogleAuthService.

Lemma append_assoc (a b c : string) : (a ++ b) ++ c = a ++ (b ++ c).
Proof. induction a as [|x a IH]; simpl; [reflexivity|]. rewrite IH. reflexivity. Qed.

(** Reading back one escaped character. *)
Lemma parse_chars_escape_char (c : ascii) (r : string) :
  parse_chars (escape_char c ++ r)
  = match parse_chars r with
    | POk t rest => POk (String c t) rest
    | PFail why => PFail why
    end.
Proof.
  destruct c as [[] [] [] [] [] [] [] []]; reflexivity.
Qed.

(** Reading back an escaped string up to its closing quote. *)
Lemma parse_chars_escape (s rest : string) :
  parse_chars (escape s ++ String dquote rest) = POk s rest.
Proof.
  induction s as [|c s IH].
  - reflexivity.
  - cbn [escape]. rewrite append_assoc, parse_chars_escape_char, IH.
    reflexivity.
Qed.

Lemma quote_append (s rest : string) :
  quote s ++ rest = String dquote (escape s ++ String dquote rest).
Proof. unfold quote. simpl. rewrite append_assoc. reflexivity. Qed.

(** A quoted string is read back as a string value. *)
Lemma parse_quoted (fuel : nat) (s rest : string) :
  parse (S fuel) MValue (quote s ++ rest) = POk (JStr s) rest.
Proof. rewrite quote_append. simpl. rewrite parse_chars_escape. reflexivity. Qed.

Lemma stringifyUser_length (user : GoogleUser.t) :
  exists n, String.length (stringifyUser user) = (7 + n)%nat.
Proof. unfold stringifyUser. simpl. eexists. reflexivity. Qed.

Lemma stringifyUser_not_empty (user : GoogleUser.t) :
  JsString.not_empty (stringifyUser user) = true.
Proof. reflexivity. Qed.

(** The opening brace of an object that has a member. *)
Lemma parse_object_open (fuel : nat) (k rest : string) :
  parse (S fuel) MValue (String "{" (quote k ++ rest))
  = parse fuel (MMembers []) (quote k ++ rest).
Proof. rewrite quote_append. reflexivity. Qed.

#[local] Opaque quote.

(** A member with a string value, followed by a comma or by the closing
    brace. *)
Lemma parse_member_comma (fuel : nat) (acc : list (string * JsVal))
  (k v rest : string) :
  parse (S (S fuel)) (MMembers acc)
    (quote k ++ String ":" (quote v ++ String "," rest))
  = parse (S fuel) (MMembers (obj_set k (JStr v) acc)) rest.
Proof.
  rewrite quote_append. remember (S fuel) as f. simpl.
  rewrite parse_chars_escape. simpl. subst f. rewrite parse_quoted.
  reflexivity.
Qed.

Lemma parse_member_last (fuel : nat) (acc : list (string * JsVal))
  (k v rest : string) :
  parse (S (S fuel)) (MMembers acc)
    (quote k ++ String ":" (quote v ++ String "}" rest))
  = POk (JObj (obj_set k (JStr v) acc)) rest.
Proof.
  rewrite quote_append. remember (S fuel) as f. simpl.
  rewrite parse_chars_escape. simpl. subst f. rewrite parse_quoted.
  reflexivity.
Qed.

(** [JSON.parse(JSON.stringify(user))] has the properties of [user]. *)
Lemma JSON_parse_stringifyUser (user : GoogleUser.t) :
  JSON_parse (stringifyUser user) = POk (user_object user) EmptyString.
Proof.
  assert (H : forall n, parse (S (7 + n)) MValue (stringifyUser user)
              = POk (user_object user) EmptyString).
  { intros n. unfold stringifyUser, user_object.
    destruct user as [i e nm [p|]]; cbn [GoogleUser.id GoogleUser.email
      GoogleUser.name GoogleUser.photo Nat.add];
      rewrite ?append_assoc; cbn [String.append];
      rewrite parse_object_open, !parse_member_comma, parse_member_last;
      reflexivity. }
  unfold JSON_parse.
  destruct (stringifyUser_length user) as [n ->].
  replace (2 * (7 + n) + 1)%nat with (S (7 + (7 + 2 * n)))%nat by lia.
  rewrite H. reflexivity.
Qed.

Lemma as_GoogleUser_user_object (user : GoogleUser.t) :
  as_GoogleUser (user_object user) = Some user.
Proof. destruct user as [i e nm [p|]]; reflexivity. Qed.

(** An element of an array of strings, followed by a comma or by the
    closing bracket. *)
Lemma parse_elem_comma (fuel : nat) (acc : list JsVal) (x rest : string) :
  parse (S (S fuel)) (MElems acc) (quote x ++ String "," rest)
  = parse (S fuel) (MElems (acc ++ [JStr x])) rest.
Proof. remember (S fuel) as f. cbn [parse]. subst f. rewrite parse_quoted. reflexivity. Qed.

Lemma parse_elem_last (fuel : nat) (acc : list JsVal) (x rest : string) :
  parse (S (S fuel)) (MElems acc) (quote x ++ String "]" rest)
  = POk (JArr (acc ++ [JStr x])) rest.
Proof. remember (S fuel) as f. cbn [parse]. subst f. rewrite parse_quoted. reflexivity. Qed.

Lemma parse_elems (l : list string) :
  forall (acc : list JsVal) (fuel : nat) (x rest : string),
    (length l < fuel)%nat ->
    parse (S fuel) (MElems acc) (join_quoted (x :: l) ++ String "]" rest)
    = POk (JArr (acc ++ List.map JStr (x :: l))) rest.
Proof.
  induction l as [|y l IH]; intros acc fuel x rest Hfuel.
  - destruct fuel as [|f]; [simpl in Hfuel; lia|].
    cbn [join_quoted List.map]. apply parse_elem_last.
  - destruct fuel as [|f]; [simpl in Hfuel; lia|].
    change (join_quoted (x :: y :: l))
      with (quote x ++ "," ++ join_quoted (y :: l)).
    rewrite append_assoc.
    change (("," ++ join_quoted (y :: l)) ++ String "]" rest)
      with (String "," (join_quoted (y :: l) ++ String "]" rest)).
    rewrite parse_elem_comma, IH by (simpl in Hfuel; lia).
    rewrite <- app_assoc. reflexivity.
Qed.

#[local] Transparent quote.

Lemma length_quote (x : string) : (2 <= String.length (quote x))%nat.
Proof. unfold quote. simpl. rewrite length_append. simpl. lia. Qed.

Lemma length_join_quoted (l : list string) :
  (2 * length l <= String.length (join_quoted l))%nat.
Proof.
  induction l as [|x [|y l] IH].
  - simpl. lia.
  - pose proof (length_quote x). simpl in *. lia.
  - change (join_quoted (x :: y :: l))
      with (quote x ++ "," ++ join_quoted (y :: l)).
    pose proof (length_quote x).
    rewrite !length_append. simpl String.length in *. simpl length in *. lia.
Qed.

(** [JSON.parse(JSON.stringify(ids))] is the array of the ids. *)
Lemma JSON_parse_stringifyStrings (l : list string) :
  JSON_parse (stringifyStrings l) = POk (JArr (List.map JStr l)) EmptyString.
Proof.
  destruct l as [|x l]; [reflexivity|].
  unfold JSON_parse, stringifyStrings.
  change ("[" ++ join_quoted (x :: l) ++ "]")
    with (String "[" (join_quoted (x :: l) ++ "]")).
  assert (Hopen : forall f,
    parse (S f) MValue (String "[" (join_quoted (x :: l) ++ "]"))
    = parse f (MElems []) (join_quoted (x :: l) ++ "]")).
  { intros f. destruct l as [|y l].
    - cbn [join_quoted]. rewrite quote_append. reflexivity.
    - change (join_quoted (x :: y :: l))
        with (quote x ++ "," ++ join_quoted (y :: l)).
      rewrite append_assoc, quote_append. reflexivity. }
  pose proof (length_join_quoted (x :: l)) as Hlen.
  cbn [String.length]. rewrite length_append.
  set (len := String.length (join_quoted (x :: l))) in *.
  replace (2 * S (len + String.length "]") + 1)%nat
    with (S (S (2 * len + 3)))%nat by (simpl; lia).
  rewrite Hopen.
  rewrite (parse_elems l [] _ x EmptyString);
    [reflexivity | simpl length in Hlen; lia].
Qed.

Lemma as_strings_map (l : list string) : as_strings (List.map JStr l) = Some l.
Proof. induction l as [|x l IH]; simpl; [reflexivity|]. rewrite IH. reflexivity. Qed.

Lemma stringifyStrings_not_empty (l : list string) :
  JsString.not_empty (stringifyStrings l) = true.
Proof. reflexivity. Qed.

(** The selection that the settings dialog saves is the selection that
    [loadPhotosFromDrive] iterates over. *)
Lemma stored_selection_save (newSelection : list string) (w : World) :
  stored_selection (SettingsDialog.save newSelection w) = Some newSelection.
Proof.
  unfold stored_selection, SettingsDialog.save, getItem, setItem. simpl.
  rewrite lookup_insert_eq, stringifyStrings_not_empty,
    JSON_parse_stringifyStrings.
  apply as_strings_map.
Qed.

Lemma handleFolderToggle_stored (folderId : string) (prev : list string)
  (w : World) :
  stored_selection (snd (SettingsDialog.handleFolderToggle folderId prev w))
  = Some (fst (SettingsDialog.handleFolderToggle folderId prev w)).
Proof. apply stored_selection_save. Qed.

Lemma handleSelectAllFolders_stored (folders : list string) (w : World) :
  stored_selection (snd (SettingsDialog.handleSelectAllFolders folders w))
  = Some ("root" :: folders).
Proof. apply stored_selection_save. Qed.

Lemma handleDeselectAllFolders_stored (w : World) :
  stored_selection (snd (SettingsDialog.handleDeselectAllFolders w)) = Some [].
Proof. apply stored_selection_save. Qed.

End JsonRoundTrip.

(** ** The persisted session *)

Section PersistedSession.

Import Json GoogleAuthService.

Lemma getItem_setItem (k v : string) (w : World) :
  getItem k (setItem k v w) = Some v.
Proof. unfold getItem, setItem. simpl. apply lookup_insert_eq. Qed.

Lemma getItem_setItem_ne (k k' v : string) (w : World) :
  k <> k' -> getItem k' (setItem k v w) = getItem k' w.
Proof. intros H. unfold getItem, setItem. simpl. apply lookup_insert_ne. exact H. Qed.

Lemma getItem_removeItem (k : string) (w : World) :
  getItem k (removeItem k w) = None.
Proof. unfold getItem, removeItem. simpl. apply lookup_delete_eq. Qed.

Lemma getItem_removeItem_ne (k k' : string) (w : World) :
  k <> k' -> getItem k' (removeItem k w) = getItem k' w.
Proof. intros H. unfold getItem, removeItem. simpl. apply lookup_delete_ne. exact H. Qed.

(** What [setAuthenticatedUser] leaves in the storage. *)
Lemma setAuthenticatedUser_stored (user : GoogleUser.t) (token : string) (w : World) :
  let saved := setAuthenticatedUser user (Some token) w in
  localStorage saved !! "google_auth_user" = Some (stringifyUser user)
  /\ localStorage saved !! "google_auth_token" = Some token.
Proof.
  unfold setAuthenticatedUser. cbn zeta.
  set (w4 := setItem "google_auth_token" token _).
  assert (H : localStorage w4 !! "google_auth_user" = Some (stringifyUser user)
              /\ localStorage w4 !! "google_auth_token" = Some token).
  { subst w4. unfold setItem. simpl. split.
    - rewrite lookup_insert_ne by discriminate. apply lookup_insert_eq.
    - apply lookup_insert_eq. }
  destruct (truthy (accessToken w4)); exact H.
Qed.

(** C6, as the code has it.  After setAuthenticatedUser(user, token) with a
    token that is not empty, loadStoredAuth on a fresh load adopts a current
    user equal to the persisted one, field by field, and the persisted token,
    which it also hands to the Drive service. *)
Theorem loadStoredAuth_restores (w : World) (user : GoogleUser.t) (token : string) :
  token <> EmptyString ->
  let saved := setAuthenticatedUser user (Some token) w in
  exists w',
    loadStoredAuth (freshLoad (localStorage saved)) = Some w'
    /\ currentUser w' = Some user
    /\ GoogleUser.id <$> currentUser w' = Some (GoogleUser.id user)
    /\ GoogleUser.email <$> currentUser w' = Some (GoogleUser.email user)
    /\ GoogleUser.name <$> currentUser w' = Some (GoogleUser.name user)
    /\ GoogleUser.photo <$> currentUser w' = Some (GoogleUser.photo user)
    /\ accessToken w' = Some token
    /\ driveAccessToken w' = Some token
    /\ isSignedIn w' = true.
Proof.
  intros Hne saved.
  destruct (setAuthenticatedUser_stored user token w) as [Hu Ht].
  fold saved in Hu, Ht.
  unfold loadStoredAuth, getItem. cbn [localStorage freshLoad].
  rewrite Hu, Ht, stringifyUser_not_empty, JSON_parse_stringifyUser.
  cbn [truthy]. destruct token as [|c t]; [congruence|].
  cbn [JsString.not_empty andb].
  assert (Hobj : user_object user <> JNull) by discriminate.
  rewrite as_GoogleUser_user_object.
  destruct (user_object user) eqn:E; try congruence;
    (eexists; split; [reflexivity|]; simpl; auto 10).
Qed.

Lemma loadStoredAuth_restores_witness :
  exists w',
    loadStoredAuth
      (freshLoad
         (localStorage
            (setAuthenticatedUser Sample.user (Some "token-1") (freshLoad ∅))))
    = Some w'
    /\ currentUser w' = Some Sample.user
    /\ accessToken w' = Some "token-1".
Proof.
  destruct (loadStoredAuth_restores (freshLoad ∅) Sample.user "token-1")
    as (w' & H1 & H2 & _ & _ & _ & _ & H3 & _).
  - discriminate.
  - exists w'. auto.
Defined.

(** With the empty string as the token, the session is persisted and the
    user is signed in, but a fresh load restores nothing: the guard of
    loadStoredAuth takes an empty token for a missing one. *)
Lemma loadStoredAuth_empty_token_counterexample :
  let saved := setAuthenticatedUser Sample.user (Some EmptyString) (freshLoad ∅) in
  isSignedIn saved = true
  /\ localStorage saved !! "google_auth_token" = Some EmptyString
  /\ (currentUser <$> loadStoredAuth (freshLoad (localStorage saved)))
     = Some None
  /\ (accessToken <$> loadStoredAuth (freshLoad (localStorage saved)))
     = Some None.
Proof. repeat split; reflexivity. Qed.

(** C7. signOut returns without throwing; afterwards isSignedIn is false,
    getAccessToken and getCurrentUser yield nothing, the persisted user and
    token and the two records of a pending authorization attempt are gone,
    and a fresh load finds no pending attempt and restores no session. *)
Theorem signOut_clears (w : World) (now : Z) (env : Env) :
  let w' := fst (signOut w) in
  snd (signOut w) = Ok tt
  /\ isSignedIn w' = false
  /\ getAccessToken w' = None
  /\ getCurrentUser w' = None
  /\ getItem "google_auth_user" w' = None
  /\ getItem "google_auth_token" w' = None
  /\ getItem "temp_auth_code" w' = None
  /\ getItem "oauth_completion_time" w' = None
  /\ loadStoredAuth (freshLoad (localStorage w'))
     = Some (freshLoad (localStorage w'))
  /\ constructor now env (freshLoad (localStorage w'))
     = Some (set_isConfigured true (freshLoad (localStorage w')), None)
  /\ (forall net, isSignedIn <$> startup now env net (localStorage w')
                  = Some false).
Proof.
  intros w'.
  assert (Hu : getItem "google_auth_user" w' = None).
  { subst w'. unfold signOut, clearStoredAuth. cbn [fst].
    rewrite !getItem_removeItem_ne by discriminate.
    unfold getItem. simpl. rewrite lookup_delete_ne by discriminate.
    apply lookup_delete_eq. }
  assert (Ht : getItem "google_auth_token" w' = None).
  { subst w'. unfold signOut, clearStoredAuth. cbn [fst].
    rewrite !getItem_removeItem_ne by discriminate.
    unfold getItem. simpl. apply lookup_delete_eq. }
  assert (Hc : getItem "temp_auth_code" w' = None).
  { subst w'. unfold signOut. cbn [fst].
    rewrite getItem_removeItem_ne by discriminate. apply getItem_removeItem. }
  assert (Ho : getItem "oauth_completion_time" w' = None).
  { subst w'. unfold signOut. cbn [fst]. apply getItem_removeItem. }
  assert (Hmem : isSignedIn w' = false /\ getAccessToken w' = None
                 /\ getCurrentUser w' = None) by (repeat split; reflexivity).
  destruct Hmem as (Hm1 & Hm2 & Hm3).
  clearbody w'.
  assert (Hload : loadStoredAuth (freshLoad (localStorage w'))
                  = Some (freshLoad (localStorage w'))).
  { unfold loadStoredAuth, getItem in *. cbn [localStorage freshLoad].
    rewrite Hu, Ht. reflexivity. }
  assert (Hcons : constructor now env (freshLoad (localStorage w'))
                  = Some (set_isConfigured true (freshLoad (localStorage w')), None)).
  { unfold constructor, checkForOAuthCompletion, configureGoogleSignIn.
    unfold loadStoredAuth, getItem in *.
    cbn [localStorage freshLoad isConfigured set_isConfigured].
    rewrite Hc. cbn [localStorage freshLoad set_isConfigured].
    rewrite Hu, Ht. reflexivity. }
  repeat split; try assumption; try reflexivity.
  intros net. unfold startup. rewrite Hcons. reflexivity.
Qed.

End PersistedSession.

(** ** The pending authorization attempt *)

Section PendingAttempt.

Import Json GoogleAuthService.



Lemma processAuthCode_begin_getItem (env : Env) (code : string) (w : World)
  (k : string) :
  getItem k (fst (processAuthCode_begin env code w)) = getItem k w.
Proof.
  unfold processAuthCode_begin.
  destruct (REACT_APP_GOOGLE_CLIENT_ID env) as [clientId|]; [|reflexivity].
  destruct (REACT_APP_GOOGLE_CLIENT_SECRET env) as [clientSecret|]; [|reflexivity].
  destruct (_ && _); reflexivity.
Qed.


(** The three ways through [checkForOAuthCompletion] once it has found a
    code and a time stamp that are not empty. *)
Lemma checkForOAuthCompletion_found (now : Z) (env : Env) (w : World)
  (code time : string) :
  getItem "temp_auth_code" w = Some code ->
  getItem "oauth_completion_time" w = Some time ->
  code <> EmptyString -> time <> EmptyString ->
  checkForOAuthCompletion now env w
  = match parseInt time with
    | Some t =>
        if now - t <? 5 * 60 * 1000
        then (cleanUp (fst (processAuthCode_begin env code w)),
              snd (processAuthCode_begin env code w))
        else (cleanUp w, None)
    | None => (cleanUp w, None)
    end.
Proof.
  intros Hc Ht Hne1 Hne2. unfold checkForOAuthCompletion. rewrite Hc, Ht.
  destruct code as [|c0 code]; [congruence|].
  destruct time as [|t0 time]; [congruence|].
  cbn [JsString.not_empty andb].
  destruct (parseInt (String t0 time)) as [t|]; [|reflexivity].
  destruct (now - t <? 5 * 60 * 1000); [|reflexivity].
  destruct (processAuthCode_begin env (String c0 code) w). reflexivity.
Qed.


(** Whatever the stored code, a time stamp that lies 5 minutes or more in
    the past lets no request out. *)
Lemma checkForOAuthCompletion_expired (now : Z) (env : Env) (w : World)
  (time : string) (t : Z) :
  getItem "oauth_completion_time" w = Some time ->
  parseInt time = Some t ->
  now - t >= 300 * 1000 ->
  snd (checkForOAuthCompletion now env w) = None
  /\ requests (fst (checkForOAuthCompletion now env w)) = requests w.
Proof.
  intros Ht Hp Hold. unfold checkForOAuthCompletion. rewrite Ht.
  destruct (getItem "temp_auth_code" w) as [code|]; [|split; reflexivity].
  destruct (_ && _); [|split; reflexivity].
  rewrite Hp.
  destruct (now - t <? 5 * 60 * 1000) eqn:E; [apply Z.ltb_lt in E; lia|].
  split; reflexivity.
Qed.


Lemma processAuthCode_resume_in_memory_storage (net : Network) (req : Request)
  (w : World) :
  localStorage (GoogleAuthServiceInMemory.processAuthCode_resume net req w)
  = localStorage w.
Proof.
  unfold GoogleAuthServiceInMemory.processAuthCode_resume.
  destruct (token_endpoint net req) as [tokenResponse|]; [|reflexivity].
  destruct (negb (ok tokenResponse)); [reflexivity|].
  destruct (json tokenResponse) as [tokenData|]; [|reflexivity].
  destruct (userinfo_endpoint net _) as [userInfoResponse|]; [|reflexivity].
  destruct (ok userInfoResponse); [|reflexivity].
  destruct (json userInfoResponse) as [userInfo|]; [|reflexivity].
  cbn zeta. destruct (truthy _); reflexivity.
Qed.


End PendingAttempt.

Section PendingAttemptExamples.

Import GoogleAuthService.


(** An attempt that is 301 seconds old is discarded at startup: no request
    is sent, the records are removed, the persisted session is restored. *)
Example startup_attempt_301_seconds_old :
  let r := startup (Sample.recorded_at + 301 * 1000) Sample.env Sample.net
             Sample.pending in
  (requests <$> r) = Some []
  /\ (getItem "temp_auth_code" <$> r) = Some None
  /\ (getItem "oauth_completion_time" <$> r) = Some None
  /\ (currentUser <$> r) = Some (Some Sample.user)
  /\ (accessToken <$> r) = Some (Some "token-1").
Proof. repeat split; reflexivity. Qed.

(** An attempt that is 299 seconds old is processed: the code is exchanged,
    the profile is fetched, the new session replaces the restored one, and the
    records are removed. *)
Example startup_attempt_299_seconds_old :
  let r := startup (Sample.recorded_at + 299 * 1000) Sample.env Sample.net
             Sample.pending in
  (requests <$> r)
  = Some [ TokenRequest "client-id" "client-secret" "good-code"
             "authorization_code" redirect_uri;
           UserInfoRequest "Bearer token-2" ]
  /\ (getItem "temp_auth_code" <$> r) = Some None
  /\ (getItem "oauth_completion_time" <$> r) = Some None
  /\ (currentUser <$> r)
     = Some (Some (GoogleUser.mk "42" "ada@example.com" "Ada" None))
  /\ (accessToken <$> r) = Some (Some "token-2")
  /\ (getItem "google_auth_token" <$> r) = Some (Some "token-2").
Proof. repeat split; reflexivity. Qed.

(** Records of which one is empty are no pending attempt for the guard of
    checkForOAuthCompletion: the check leaves them where they are. *)
Example checkForOAuthCompletion_empty_code :
  let w := freshLoad
             (<["temp_auth_code" := EmptyString]>
                (<["oauth_completion_time" := "1700000000000"]> ∅)) in
  checkForOAuthCompletion (Sample.recorded_at + 301 * 1000) Sample.env w
  = (w, None).
Proof. reflexivity. Qed.

End PendingAttemptExamples.

(** ** Failures while completing the sign-in *)

Section ExchangeFailure.

Import GoogleAuthService.

(** A refused token request leaves the session as it was and is logged. *)
Lemma processAuthCode_resume_token_refused (net : Network) (req : Request)
  (w : World) (response : Response TokenData) :
  token_endpoint net req = Ok response ->
  ok response = false ->
  processAuthCode_resume net req w = console_error "Token exchange failed:" w.
Proof.
  intros H Hok. unfold processAuthCode_resume. rewrite H, Hok. reflexivity.
Qed.

(** A refused profile request is logged and leaves the current user and the
    storage as they were; the access token of the service is the new one. *)
Lemma processAuthCode_resume_profile_refused (net : Network) (req : Request)
  (w : World) (tokenResponse : Response TokenData) (tokenData : TokenData)
  (userInfoResponse : Response UserInfo) :
  token_endpoint net req = Ok tokenResponse ->
  ok tokenResponse = true ->
  json tokenResponse = Ok tokenData ->
  userinfo_endpoint net
    (UserInfoRequest
       ("Bearer " ++ match access_token tokenData with
                     | Some t => t
                     | None => "undefined"
                     end)) = Ok userInfoResponse ->
  ok userInfoResponse = false ->
  let w' := processAuthCode_resume net req w in
  currentUser w' = currentUser w
  /\ localStorage w' = localStorage w
  /\ driveAccessToken w' = driveAccessToken w
  /\ accessToken w' = access_token tokenData
  /\ errors w' = (errors w ++ ["Failed to get user info"])%list.
Proof.
  intros Ht Hok Hj Hu Hok'. unfold processAuthCode_resume.
  rewrite Ht, Hok, Hj. cbn [negb accessToken set_accessToken].
  rewrite Hu, Hok'. repeat split.
Qed.

(** C5, on the code.  A signed-in user has the token token-1.  A pending code
    is exchanged for token-2, then the profile request is refused.  No session
    is created or persisted and the failure is logged, but getAccessToken now
    yields token-2: the token was stored before the profile was asked for, and
    is not put back. *)
Lemma processAuthCode_profile_failure_keeps_new_token :
  let w := Sample.signed_in Sample.pending in
  let w' := processAuthCode Sample.env Sample.net_profile_down "good-code" w in
  getAccessToken w = Some "token-1"
  /\ getAccessToken w' = Some "token-2"
  /\ getCurrentUser w' = getCurrentUser w
  /\ localStorage w' = localStorage w
  /\ driveAccessToken w' = Some "token-1"
  /\ errors w' = ["Failed to get user info"].
Proof. repeat split; reflexivity. Qed.

(** The same at startup: the restored session keeps its user, with the token
    of the failed attempt. *)
Example startup_profile_failure :
  let r := startup (Sample.recorded_at + 10 * 1000) Sample.env
             Sample.net_profile_down Sample.pending in
  (currentUser <$> r) = Some (Some Sample.user)
  /\ (accessToken <$> r) = Some (Some "token-2")
  /\ (driveAccessToken <$> r) = Some (Some "token-1")
  /\ (getItem "google_auth_token" <$> r) = Some (Some "token-1").
Proof. repeat split; reflexivity. Qed.

(** services/GoogleAuthService.ts stores the token at the same place. *)
Example processAuthCode_profile_failure_in_memory :
  let w := Sample.signed_in Sample.pending in
  let w' := GoogleAuthServiceInMemory.processAuthCode Sample.env
              Sample.net_profile_down "good-code" w in
  getAccessToken w = Some "token-1"
  /\ getAccessToken w' = Some "token-2"
  /\ getCurrentUser w' = getCurrentUser w
  /\ driveAccessToken w' = Some "token-1".
Proof. repeat split; reflexivity. Qed.

End ExchangeFailure.

(** ** The fuel of the JSON parser *)

Section ParserFuel.

Import Json.

Lemma length_skip_ws (s : string) :
  (String.length (skip_ws s) <= String.length s)%nat.
Proof.
  induction s as [|c s IH]; simpl; [lia|].
  destruct (is_ws c); simpl; lia.
Qed.

Lemma advances_fail {A : Type} (why : Failure) (s : string) :
  why <> Fuel -> advances (@PFail A why) s.
Proof. intros H. split; [congruence | discriminate]. Qed.

Lemma advances_ok {A : Type} (a : A) (rest s : string) :
  (String.length rest < String.length s)%nat -> advances (POk a rest) s.
Proof. intros H. split; [discriminate|]. intros ? ? E. inversion E; subst. exact H. Qed.

Lemma advances_map {A B : Type} (result : PResult A) (f : A -> B) (s s' : string) :
  advances result s' ->
  (String.length s' <= String.length s)%nat ->
  advances (match result with
            | POk a rest => POk (f a) rest
            | PFail why => PFail why
            end) s.
Proof.
  intros [H1 H2] Hle. destruct result as [a rest|why].
  - apply advances_ok. specialize (H2 a rest eq_refl). lia.
  - apply advances_fail. congruence.
Qed.

Lemma parse_chars_advances_upto (n : nat) :
  forall s, (String.length s <= n)%nat -> advances (parse_chars s) s.
Proof.
  induction n as [|n IH]; intros s Hn.
  - destruct s; [|simpl in Hn; lia]. apply advances_fail. discriminate.
  - destruct s as [|c r]; [apply advances_fail; discriminate|].
    simpl in Hn. cbn [parse_chars].
    destruct (Ascii.eqb c dquote); [apply advances_ok; simpl; lia|].
    destruct (Ascii.eqb c backslash).
    + destruct r as [|e r1]; [apply advances_fail; discriminate|].
      simpl in Hn.
      assert (Hsimple : forall d,
        advances (match parse_chars r1 with
                  | POk t rest => POk (String d t) rest
                  | PFail why => PFail why
                  end) (String c (String e r1))).
      { intros d. apply advances_map with (s' := r1);
          [apply IH; lia | simpl; lia]. }
      repeat (destruct (Ascii.eqb e _); [apply Hsimple|]).
      destruct (Ascii.eqb e "u"); [|apply advances_fail; discriminate].
      destruct r1 as [|h1 [|h2 [|h3 [|h4 r2]]]];
        try (apply advances_fail; discriminate).
      simpl in Hn.
      destruct (hex_val h1) as [a|]; [|apply advances_fail; discriminate].
      destruct (hex_val h2) as [b|]; [|apply advances_fail; discriminate].
      destruct (hex_val h3) as [c'|]; [|apply advances_fail; discriminate].
      destruct (hex_val h4) as [d|]; [|apply advances_fail; discriminate].
      destruct (IH r2 ltac:(lia)) as [H1 H2].
      destruct (parse_chars r2) as [t rest|why].
      * destruct ((a =? 0)%N && (b =? 0)%N).
        -- apply advances_ok. specialize (H2 t rest eq_refl). simpl. lia.
        -- apply advances_fail. discriminate.
      * apply advances_fail. congruence.
    + destruct (N_of_ascii c <? 32)%N; [apply advances_fail; discriminate|].
      apply advances_map with (s' := r); [apply IH; lia | simpl; lia].
Qed.

Lemma parse_chars_advances (s : string) : advances (parse_chars s) s.
Proof. apply (parse_chars_advances_upto (String.length s)). lia. Qed.

Lemma span_digits_length (s d r : string) :
  span_digits s = (d, r) ->
  String.length s = (String.length d + String.length r)%nat.
Proof.
  revert d r. induction s as [|c s IH]; intros d r H; simpl in H.
  - inversion H; subst. reflexivity.
  - destruct (is_digit c).
    + destruct (span_digits s) as [d' r'] eqn:E. inversion H; subst.
      simpl. rewrite (IH d' r eq_refl). reflexivity.
    + inversion H; subst. reflexivity.
Qed.

Lemma read_sign_length (s a r : string) :
  read_sign s = (a, r) -> (String.length r <= String.length s)%nat.
Proof.
  unfold read_sign. destruct s as [|c s]; [|destruct (Ascii.eqb c "-")];
    intros H; inversion H; subst; simpl; lia.
Qed.

Lemma read_int_length (s i r : string) :
  read_int s = (i, r) ->
  String.length s = (String.length i + String.length r)%nat.
Proof.
  unfold read_int. destruct s as [|c s].
  - intros H; inversion H; subst. reflexivity.
  - destruct (Ascii.eqb c "0").
    + intros H; inversion H; subst. reflexivity.
    + apply span_digits_length.
Qed.

Lemma read_frac_length (s f r : string) :
  read_frac s = Some (f, r) -> (String.length r <= String.length s)%nat.
Proof.
  unfold read_frac. destruct s as [|c s].
  - intros H; inversion H; subst. simpl. lia.
  - destruct (Ascii.eqb c ".").
    + destruct (span_digits s) as [d r'] eqn:E.
      apply span_digits_length in E.
      destruct (JsString.not_empty d); intros H; inversion H; subst.
      simpl. lia.
    + intros H; inversion H; subst. simpl. lia.
Qed.

Lemma read_exp_sign_length (s a r : string) :
  read_exp_sign s = (a, r) -> (String.length r <= String.length s)%nat.
Proof.
  unfold read_exp_sign. destruct s as [|c s]; [|destruct (_ || _)];
    intros H; inversion H; subst; simpl; lia.
Qed.

Lemma read_exp_length (s e r : string) :
  read_exp s = Some (e, r) -> (String.length r <= String.length s)%nat.
Proof.
  unfold read_exp. destruct s as [|c s].
  - intros H; inversion H; subst. simpl. lia.
  - destruct (_ || _).
    + destruct (read_exp_sign s) as [sg r1] eqn:E1.
      apply read_exp_sign_length in E1.
      destruct (span_digits r1) as [d r2] eqn:E2.
      apply span_digits_length in E2.
      destruct (JsString.not_empty d); intros H; inversion H; subst.
      simpl. lia.
    + intros H; inversion H; subst. simpl. lia.
Qed.

Lemma parse_number_advances (s : string) : advances (parse_number s) s.
Proof.
  unfold parse_number.
  destruct (read_sign s) as [sign s1] eqn:E1. apply read_sign_length in E1.
  destruct (read_int s1) as [int s2] eqn:E2. apply read_int_length in E2.
  destruct int as [|i0 int]; [apply advances_fail; discriminate|].
  cbn [JsString.not_empty negb].
  destruct (read_frac s2) as [[frac s3]|] eqn:E3;
    [|apply advances_fail; discriminate].
  apply read_frac_length in E3.
  destruct (read_exp s3) as [[exp s4]|] eqn:E4;
    [|apply advances_fail; discriminate].
  apply read_exp_length in E4.
  apply advances_ok. simpl in E2. lia.
Qed.

Lemma strip_prefix_length (p s rest : string) :
  JsString.strip_prefix p s = Some rest ->
  (String.length rest <= String.length s)%nat.
Proof.
  intros H. apply strip_prefix_app in H. subst s.
  rewrite length_append. lia.
Qed.

(** With the fuel it needs, [parse] does not run out of fuel, and it leaves
    less than the text it was given. *)
Lemma parse_advances (fuel : nat) :
  forall (m : Mode) (s : string),
    (need m s <= fuel)%nat -> advances (parse fuel m s) s.
Proof.
  induction fuel as [|f IH]; intros m s Hneed.
  - destruct m; simpl in Hneed; lia.
  - destruct m as [|acc|acc]; cbn [need] in Hneed; cbn [parse].
    + pose proof (length_skip_ws s) as Hs.
      destruct (skip_ws s) as [|c r]; [apply advances_fail; discriminate|].
      simpl in Hs.
      destruct (Ascii.eqb c dquote).
      { apply advances_map with (s' := r);
          [apply parse_chars_advances | lia]. }
      destruct (Ascii.eqb c "{").
      { pose proof (length_skip_ws r) as Hr.
        destruct (skip_ws r) as [|c' rest]; [apply advances_fail; discriminate|].
        simpl in Hr.
        destruct (Ascii.eqb c' "}"); [apply advances_ok; lia|].
        destruct (IH (MMembers []) (String c' rest)) as [H1 H2];
          [simpl; lia|].
        split; [exact H1|]. intros a rest' E. specialize (H2 a rest' E).
        simpl in H2. lia. }
      destruct (Ascii.eqb c "[").
      { pose proof (length_skip_ws r) as Hr.
        destruct (skip_ws r) as [|c' rest]; [apply advances_fail; discriminate|].
        simpl in Hr.
        destruct (Ascii.eqb c' "]"); [apply advances_ok; lia|].
        destruct (IH (MElems []) (String c' rest)) as [H1 H2];
          [simpl; lia|].
        split; [exact H1|]. intros a rest' E. specialize (H2 a rest' E).
        simpl in H2. lia. }
      destruct (Ascii.eqb c "t").
      { destruct (JsString.strip_prefix "rue" r) as [rest|] eqn:E;
          [|apply advances_fail; discriminate].
        apply strip_prefix_length in E. apply advances_ok. lia. }
      destruct (Ascii.eqb c "f").
      { destruct (JsString.strip_prefix "alse" r) as [rest|] eqn:E;
          [|apply advances_fail; discriminate].
        apply strip_prefix_length in E. apply advances_ok. lia. }
      destruct (Ascii.eqb c "n").
      { destruct (JsString.strip_prefix "ull" r) as [rest|] eqn:E;
          [|apply advances_fail; discriminate].
        apply strip_prefix_length in E. apply advances_ok. lia. }
      apply advances_map with (s' := String c r);
        [apply parse_number_advances | simpl; lia].
    + destruct (IH MValue s) as [H1 H2]; [simpl; lia|].
      destruct (parse f MValue s) as [v r|why];
        [|apply advances_fail; congruence].
      specialize (H2 v r eq_refl).
      pose proof (length_skip_ws r) as Hr.
      destruct (skip_ws r) as [|c' r']; [apply advances_fail; discriminate|].
      simpl in Hr.
      destruct (Ascii.eqb c' ",").
      { destruct (IH (MElems (acc ++ [v])%list) r') as [H3 H4]; [simpl; lia|].
        split; [exact H3|]. intros a rest' E. specialize (H4 a rest' E). lia. }
      destruct (Ascii.eqb c' "]"); [apply advances_ok; lia|].
      apply advances_fail; discriminate.
    + pose proof (length_skip_ws s) as Hs.
      destruct (skip_ws s) as [|c r]; [apply advances_fail; discriminate|].
      simpl in Hs.
      destruct (Ascii.eqb c dquote); [|apply advances_fail; discriminate].
      destruct (parse_chars_advances r) as [H1 H2].
      destruct (parse_chars r) as [k r1|why];
        [|apply advances_fail; congruence].
      specialize (H2 k r1 eq_refl).
      pose proof (length_skip_ws r1) as Hr1.
      destruct (skip_ws r1) as [|c1 r2]; [apply advances_fail; discriminate|].
      simpl in Hr1.
      destruct (Ascii.eqb c1 ":"); [|apply advances_fail; discriminate].
      destruct (IH MValue r2) as [H3 H4]; [simpl; lia|].
      destruct (parse f MValue r2) as [v r3|why];
        [|apply advances_fail; congruence].
      specialize (H4 v r3 eq_refl).
      pose proof (length_skip_ws r3) as Hr3.
      destruct (skip_ws r3) as [|c3 r4]; [apply advances_fail; discriminate|].
      simpl in Hr3.
      destruct (Ascii.eqb c3 ",").
      { destruct (IH (MMembers (obj_set k v acc)) r4) as [H5 H6]; [simpl; lia|].
        split; [exact H5|]. intros a rest' E. specialize (H6 a rest' E). lia. }
      destruct (Ascii.eqb c3 "}"); [apply advances_ok; lia|].
      apply advances_fail; discriminate.
Qed.

(** [JSON.parse] of the embedding does not fail for lack of fuel: it yields
    a value, a [SyntaxError], or reports an escape it cannot represent. *)
Lemma JSON_parse_fuel (text : string) : JSON_parse text <> PFuel.
Proof.
  unfold JSON_parse.
  destruct (parse_advances (2 * String.length text + 1) MValue text) as [H _];
    [simpl; lia|].
  destruct (parse _ MValue text) as [v rest|why]; [|congruence].
  destruct (skip_ws rest); discriminate.
Qed.

End ParserFuel.

(** ** The Drive service: missing token, and what a listing returns *)

Section DriveListing.

Import JsString GoogleDriveService App.

Lemma makeDriveRequest_without_token (net : Network) (endpoint : string)
  (params : list (string * string)) (w : World) :
  truthy (driveAccessToken w) = false ->
  makeDriveRequest net endpoint params w
  = (w, Throw (ErrorMsg "No access token available")).
Proof. intros H. unfold makeDriveRequest. rewrite H. reflexivity. Qed.

Lemma makeFileRequest_without_token (file : FileEndpoint) (endpoint : string)
  (params : list (string * string)) (w : World) :
  truthy (driveAccessToken w) = false ->
  makeFileRequest file endpoint params w
  = (w, Throw (ErrorMsg "No access token available")).
Proof. intros H. unfold makeFileRequest. rewrite H. reflexivity. Qed.

Lemma listPhotosInFolder_without_token (net : Network) (folderId : string)
  (w : World) :
  truthy (driveAccessToken w) = false ->
  listPhotosInFolder net folderId w
  = (console_error "Error listing photos:" w,
     Throw (ErrorMsg "No access token available")).
Proof.
  intros H. unfold listPhotosInFolder.
  rewrite actualFolderId_computed, makeDriveRequest_without_token by exact H.
  reflexivity.
Qed.

(** Without an access token (none was set, or the empty string), each of the
    four methods of the Drive service throws the error "No access token
    available" after logging it under its own label, and sends no request,
    whatever its arguments. *)
Theorem drive_methods_without_token (net : Network) (file : FileEndpoint)
  (id : string) (width : Z) (w : World) :
  truthy (driveAccessToken w) = false ->
  listPhotosInFolder net id w
  = (console_error "Error listing photos:" w,
     Throw (ErrorMsg "No access token available"))
  /\ listFoldersInFolder net id w
     = (console_error "Error listing folders:" w,
        Throw (ErrorMsg "No access token available"))
  /\ getPhotoDownloadUrl file id w
     = (console_error "Error getting photo download URL:" w,
        Throw (ErrorMsg "No access token available"))
  /\ getPhotoThumbnail file id width w
     = (console_error "Error getting photo thumbnail:" w,
        Throw (ErrorMsg "No access token available")).
Proof.
  intros H. split; [apply listPhotosInFolder_without_token; exact H|].
  unfold listFoldersInFolder, getPhotoDownloadUrl, getPhotoThumbnail.
  rewrite makeDriveRequest_without_token by exact H.
  rewrite !makeFileRequest_without_token by exact H.
  auto.
Qed.

Lemma drive_methods_without_token_witness :
  listPhotosInFolder Sample.net Sample.share_url (GoogleAuthService.freshLoad ∅)
  = (console_error "Error listing photos:" (GoogleAuthService.freshLoad ∅),
     Throw (ErrorMsg "No access token available"))
  /\ requests (fst (getPhotoThumbnail Sample.file "C" 800
                      (GoogleAuthService.freshLoad ∅))) = [].
Proof.
  destruct (drive_methods_without_token Sample.net Sample.file Sample.share_url
              800 (GoogleAuthService.freshLoad ∅) eq_refl) as (H1 & _).
  destruct (drive_methods_without_token Sample.net Sample.file "C"
              800 (GoogleAuthService.freshLoad ∅) eq_refl) as (_ & _ & _ & H4).
  split; [exact H1 | rewrite H4; reflexivity].
Defined.

(** The loop of [loadPhotosFromDrive] over the selected folders when the
    Drive service has no token: every round logs twice and adds nothing. *)
Lemma fold_load_folder_without_token (net : Network) (rootFolderId : string)
  (folderIds : list string) (w : World) (acc : list DrivePhoto.t) :
  truthy (driveAccessToken w) = false ->
  let r := fold_left (load_folder net rootFolderId) folderIds (w, acc) in
  snd r = acc
  /\ requests (fst r) = requests w
  /\ localStorage (fst r) = localStorage w
  /\ errors (fst r)
     = (errors w
        ++ concat (List.map (fun _ => ["Error listing photos:";
                                       "Error loading photos from folder"])
                     folderIds))%list.
Proof.
  revert w. induction folderIds as [|f folderIds IH]; intros w H; simpl.
  - rewrite app_nil_r. auto.
  - rewrite listPhotosInFolder_without_token by exact H.
    destruct (IH (console_error "Error loading photos from folder"
                    (console_error "Error listing photos:" w)) H)
      as (H1 & H2 & H3 & H4).
    rewrite H1, H2, H3, H4. simpl. rewrite <- !app_assoc. auto.
Qed.

(** [loadPhotosFromDrive] once the URL and the selection are read, as one
    equation. *)
Lemma loadPhotosFromDrive_fold (net : Network) (w : World) (a : State)
  (savedUrl rootFolderId : string) (folderIds : list string) :
  getItem "shared_moments_folder_url" w = Some savedUrl ->
  match_folders savedUrl = Some rootFolderId ->
  stored_selection w = Some folderIds ->
  loadPhotosFromDrive net w a
  = Some (fst (fold_left (load_folder net rootFolderId) folderIds (w, [])),
          setIsLoadingPhotos false
            (setDrivePhotos
               (uniquePhotos
                  (snd (fold_left (load_folder net rootFolderId) folderIds (w, []))))
               (setPhotoError None (setIsLoadingPhotos true a)))).
Proof.
  intros Hurl Hmatch Hsel. unfold loadPhotosFromDrive, stored_selection in *.
  rewrite Hurl.
  assert (Ht : not_empty savedUrl = true).
  { destruct savedUrl; [discriminate Hmatch | reflexivity]. }
  rewrite Ht, Hmatch.
  destruct (getItem "selected_folders" w) as [text|].
  - destruct (not_empty text).
    + destruct (Json.JSON_parse text) as [v rest|why]; try discriminate.
      destruct v; try discriminate. rewrite Hsel.
      destruct (fold_left _ folderIds (w, [])); reflexivity.
    + inversion Hsel; subst.
      cbn [Json.as_strings].
      destruct (fold_left _ ["root"] (w, [])); reflexivity.
  - inversion Hsel; subst.
    cbn [Json.as_strings].
    destruct (fold_left _ ["root"] (w, [])); reflexivity.
Qed.

(** When the Drive service has no token while a folder URL is stored,
    [loadPhotosFromDrive] sends no request, ends with no Drive photo and with
    no error message on display (the slideshow shows the five samples); the
    failure of every selected folder goes to the console only. *)
Theorem loadPhotosFromDrive_without_token (net : Network) (w : World)
  (a : State) (savedUrl rootFolderId : string) (folderIds : list string) :
  truthy (driveAccessToken w) = false ->
  getItem "shared_moments_folder_url" w = Some savedUrl ->
  match_folders savedUrl = Some rootFolderId ->
  stored_selection w = Some folderIds ->
  exists w' a',
    loadPhotosFromDrive net w a = Some (w', a')
    /\ drivePhotos a' = []
    /\ photoError a' = None
    /\ isLoadingPhotos a' = false
    /\ displayPhotos_length a' = samplePhotos_length
    /\ requests w' = requests w
    /\ Z.of_nat (length (errors w'))
       = Z.of_nat (length (errors w)) + 2 * Z.of_nat (length folderIds).
Proof.
  intros Htok Hurl Hmatch Hsel.
  rewrite (loadPhotosFromDrive_fold net w a _ _ _ Hurl Hmatch Hsel).
  destruct (fold_load_folder_without_token net rootFolderId folderIds w [] Htok)
    as (H1 & H2 & H3 & H4).
  do 2 eexists. split; [reflexivity|].
  rewrite H1. cbn. repeat split; try assumption.
  rewrite H4, length_app. clear.
  induction folderIds as [|f l IH]; simpl in *; lia.
Qed.

Lemma loadPhotosFromDrive_without_token_witness :
  exists w' a',
    loadPhotosFromDrive Sample.net
      (set_driveAccessToken None Sample.world) Sample.app = Some (w', a')
    /\ drivePhotos a' = []
    /\ photoError a' = None
    /\ requests w' = [].
Proof.
  destruct (loadPhotosFromDrive_without_token Sample.net
              (set_driveAccessToken None Sample.world) Sample.app
              Sample.share_url "XYZ123" ["root"; "sub1"; "sub2"]
              eq_refl eq_refl eq_refl eq_refl)
    as (w' & a' & H1 & H2 & H3 & _ & _ & H4 & _).
  exists w', a'. auto.
Defined.

End DriveListing.

Section DriveResults.

Import JsString GoogleDriveService App.

(** Whenever [listPhotosInFolder] returns, every photo it returns has an
    image type, a preview URL built from its own id and, if it has a download
    link, one that ends with the access token of the service; exactly one
    request was sent, for the folder id computed from the argument and
    with that token, and nothing was logged as an error. *)
Theorem listPhotosInFolder_returns_images (net : Network) (folderId : string)
  (w w' : World) (photos : list DrivePhoto.t) :
  listPhotosInFolder net folderId w = (w', Ok photos) ->
  Forall (fun p =>
            startsWith "image/" (DrivePhoto.mimeType p) = true
            /\ DrivePhoto.thumbnailLink p = Some (imageUrl (DrivePhoto.id p))
            /\ match DrivePhoto.webContentLink p with
               | Some url =>
                   exists link,
                     url = link ++ "&access_token="
                           ++ token_text (driveAccessToken w)
               | None => True
               end) photos
  /\ truthy (driveAccessToken w) = true
  /\ requests w'
     = (requests w
        ++ [DriveRequest "files" (listing_params (computed_folder_id folderId))
              ("Bearer " ++ token_text (driveAccessToken w))])%list
  /\ errors w' = errors w.
Proof.
  unfold listPhotosInFolder, makeDriveRequest.
  rewrite actualFolderId_computed.
  destruct (truthy (driveAccessToken w)) eqn:Htok; simpl; [|discriminate].
  destruct (drive_endpoint net _) as [response|e]; [|discriminate].
  destruct (ok response); simpl; [|discriminate].
  destruct (json response) as [files|e]; [|discriminate].
  intros H. inversion H; subst; clear H. simpl.
  repeat split.
  apply List.Forall_forall. intros p Hp.
  apply in_map_iff in Hp as (file & <- & Hfile).
  apply filter_In in Hfile as [_ Himg].
  unfold toPhoto; simpl. split; [exact Himg|]. split; [reflexivity|].
  destruct (file_webContentLink file) as [link|]; [|exact I].
  destruct (not_empty link); [|exact I].
  exists link. reflexivity.
Qed.

Lemma listPhotosInFolder_returns_images_witness :
  exists w' photos,
    listPhotosInFolder Sample.net Sample.share_url Sample.world = (w', Ok photos)
    /\ Forall (fun p => startsWith "image/" (DrivePhoto.mimeType p) = true)
         photos
    /\ errors w' = [].
Proof.
  destruct (listPhotosInFolder Sample.net Sample.share_url Sample.world)
    as [w' [photos|e]] eqn:E; [|vm_compute in E; discriminate E].
  exists w', photos. split; [reflexivity|].
  destruct (listPhotosInFolder_returns_images _ _ _ _ _ E) as (H & _ & _ & He).
  split; [|exact He].
  eapply Forall_impl; [exact H|]. intros p (Hp & _). exact Hp.
Defined.

(** What the pattern of the folder URL captures is not empty and holds
    neither a slash nor a question mark. *)
Lemma match_folders_capture (url capture : string) :
  match_folders url = Some capture ->
  capture <> EmptyString
  /\ forallb segment_char (list_ascii_of_string capture) = true.
Proof.
  induction url as [|c url IH]; cbn [match_folders].
  - simpl. discriminate.
  - destruct (strip_prefix "/folders/" (String c url)) as [rest|] eqn:E.
    + assert (Hall : forall s,
                forallb segment_char
                  (list_ascii_of_string (takeWhile segment_char s)) = true).
      { induction s as [|x s IHs]; simpl; [reflexivity|].
        destruct (segment_char x) eqn:Ex; simpl; [|reflexivity].
        rewrite Ex. exact IHs. }
      destruct (takeWhile segment_char rest) as [|x t] eqn:Et.
      * exact IH.
      * intros H. inversion H; subst. split; [discriminate|].
        rewrite <- Et. apply Hall.
    + exact IH.
Qed.

Lemma segment_without_folders (s : string) :
  forallb segment_char (list_ascii_of_string s) = true ->
  includes "folders/" s = false.
Proof.
  induction s as [|c s IH]; intros H.
  - reflexivity.
  - simpl in H. apply andb_true_iff in H as [Hc Hs].
    unfold includes. cbn [cut].
    destruct (strip_prefix "folders/" (String c s)) as [r|] eqn:E.
    + apply strip_prefix_app in E.
      assert (Hall : forallb segment_char (list_ascii_of_string (String c s))
                     = true) by (simpl; rewrite Hc; exact Hs).
      rewrite E in Hall. simpl in Hall. discriminate.
    + specialize (IH Hs). unfold includes in IH.
      destruct (cut "folders/" s) as [[b a]|]; [discriminate|reflexivity].
Qed.

(** The root folder id that [loadPhotosFromDrive] and the folder tab of the
    settings dialog capture from the stored URL passes through the URL
    handling of [listPhotosInFolder] unchanged: with a token set, the photo
    listing and the folder listing of the root each send one request, and
    both queries name exactly the captured id. *)
Theorem root_capture_is_queried (net : Network) (url root : string)
  (w : World) :
  match_folders url = Some root ->
  truthy (driveAccessToken w) = true ->
  actualFolderId root = Ok root
  /\ requests (fst (listPhotosInFolder net root w))
     = (requests w
        ++ [DriveRequest "files" (listing_params root)
              ("Bearer " ++ token_text (driveAccessToken w))])%list
  /\ requests (fst (listFoldersInFolder net root w))
     = (requests w
        ++ [DriveRequest "files" (folders_params root)
              ("Bearer " ++ token_text (driveAccessToken w))])%list.
Proof.
  intros Hm Htok.
  destruct (match_folders_capture _ _ Hm) as [_ Hseg].
  pose proof (actualFolderId_bare root (segment_without_folders root Hseg)) as Hid.
  split; [exact Hid|].
  unfold listPhotosInFolder, listFoldersInFolder, makeDriveRequest.
  rewrite Hid, Htok. cbn [negb].
  split.
  - destruct (drive_endpoint net _) as [response|e]; [|reflexivity].
    destruct (negb (ok response)); [reflexivity|].
    destruct (json response); reflexivity.
  - destruct (drive_endpoint net _) as [response|e]; [|reflexivity].
    destruct (negb (ok response)); [reflexivity|].
    destruct (json response); reflexivity.
Qed.

Lemma root_capture_is_queried_witness :
  actualFolderId "XYZ123" = Ok "XYZ123"
  /\ requests (fst (listFoldersInFolder Sample.net "XYZ123" Sample.world))
     = [DriveRequest "files" (folders_params "XYZ123") "Bearer token-1"].
Proof.
  destruct (root_capture_is_queried Sample.net Sample.share_url "XYZ123"
              Sample.world eq_refl eq_refl) as (H1 & _ & H3).
  split; [exact H1 | exact H3].
Defined.

End DriveResults.

(** ** Thumbnails and download links of a single photo *)

Section Thumbnails.

Import JsString GoogleDriveService.

Lemma cut_char (c : ascii) (base rest : string) :
  includes (String c EmptyString) base = false ->
  cut (String c EmptyString) (base ++ String c rest) = Some (base, rest).
Proof.
  induction base as [|x base IH]; intros H.
  - cbn [String.append cut strip_prefix]. rewrite Ascii.eqb_refl. reflexivity.
  - apply includes_false_cons in H as [H1 H2].
    change (String x base ++ String c rest)
      with (String x (base ++ String c rest)).
    cbn [cut strip_prefix] in H1 |- *.
    destruct (Ascii.eqb c x); [discriminate|].
    rewrite IH by exact H2. reflexivity.
Qed.

Lemma makeFileRequest_answered (file : FileEndpoint) (endpoint token : string)
  (params : list (string * string)) (w : World)
  (response : Response FileFields) :
  driveAccessToken w = Some token ->
  token <> EmptyString ->
  file (DriveRequest endpoint params ("Bearer " ++ token)) = Ok response ->
  ok response = true ->
  makeFileRequest file endpoint params w
  = (send (DriveRequest endpoint params ("Bearer " ++ token)) w, json response).
Proof.
  intros Htok Hne Hfile Hok. unfold makeFileRequest. rewrite Htok.
  destruct token as [|c t]; [congruence|].
  cbn [truthy not_empty negb token_text]. rewrite Hfile, Hok. reflexivity.
Qed.



(** When the file has no thumbnail link, [getPhotoThumbnail] answers with
    what [getPhotoDownloadUrl] answers after the first request: a second
    request is sent, a download link comes back with the access token
    appended, and a failure of the fallback is logged by
    [getPhotoDownloadUrl] alone. *)
Theorem getPhotoThumbnail_falls_back (file : FileEndpoint) (photoId : string)
  (width : Z) (w : World) (token : string)
  (response : Response FileFields) (fields : FileFields) :
  driveAccessToken w = Some token ->
  token <> EmptyString ->
  file (DriveRequest ("files/" ++ photoId) [("fields", "thumbnailLink")]
          ("Bearer " ++ token)) = Ok response ->
  ok response = true ->
  json response = Ok fields ->
  truthy (fields_thumbnailLink fields) = false ->
  let first :=
    DriveRequest ("files/" ++ photoId) [("fields", "thumbnailLink")]
      ("Bearer " ++ token) in
  let second :=
    DriveRequest ("files/" ++ photoId) [("fields", "webContentLink")]
      ("Bearer " ++ token) in
  let r := getPhotoThumbnail file photoId width w in
  r = getPhotoDownloadUrl file photoId (send first w)
  /\ requests (fst r) = (requests w ++ [first; second])%list
  /\ match snd r with
     | Ok url => exists link, url = link ++ "&access_token=" ++ token
                              /\ errors (fst r) = errors w
     | Throw _ =>
         errors (fst r)
         = (errors w ++ ["Error getting photo download URL:"])%list
     end.
Proof.
  intros Htok Hne Hfile Hok Hjson Hnone first second r.
  assert (Hr : r = getPhotoDownloadUrl file photoId (send first w)).
  { subst r. unfold getPhotoThumbnail.
    rewrite (makeFileRequest_answered file _ token _ w response Htok Hne Hfile Hok).
    rewrite Hjson. fold first.
    destruct (fields_thumbnailLink fields) as [link|]; [|reflexivity].
    simpl in Hnone. rewrite Hnone. reflexivity. }
  split; [exact Hr|]. rewrite Hr. clear Hr r.
  unfold getPhotoDownloadUrl, makeFileRequest.
  cbn [driveAccessToken send]. rewrite Htok.
  destruct token as [|c t]; [congruence|].
  cbn [truthy not_empty negb token_text]. fold second.
  destruct (file second) as [resp|e]; simpl.
  - destruct (ok resp); simpl.
    + destruct (json resp) as [f|e]; simpl.
      * destruct (fields_webContentLink f) as [link|]; simpl.
        -- destruct (not_empty link); simpl.
           ++ rewrite <- app_assoc, Htok. split; [reflexivity|].
              exists link. auto.
           ++ rewrite <- app_assoc. auto.
        -- rewrite <- app_assoc. auto.
      * rewrite <- app_assoc. auto.
    + rewrite <- app_assoc. auto.
  - rewrite <- app_assoc. auto.
Qed.

Lemma getPhotoThumbnail_falls_back_witness :
  getPhotoThumbnail Sample.file "A" 800 Sample.world
  = getPhotoDownloadUrl Sample.file "A"
      (send (DriveRequest "files/A" [("fields", "thumbnailLink")] "Bearer token-1")
         Sample.world)
  /\ snd (getPhotoThumbnail Sample.file "A" 800 Sample.world)
     = Ok "https://drive.example.com/uc?id=A&access_token=token-1".
Proof.
  destruct (getPhotoThumbnail_falls_back Sample.file "A" 800 Sample.world
              "token-1" _ _ eq_refl ltac:(discriminate) eq_refl eq_refl eq_refl
              eq_refl) as (H & _).
  split; [exact H | reflexivity].
Defined.

End Thumbnails.

(** ** Starting and completing a sign-in *)

Section SignIn.

Import Json GoogleAuthService.

Lemma loadStoredAuth_stored (w : World) (user : GoogleUser.t) (token : string) :
  getItem "google_auth_user" w = Some (stringifyUser user) ->
  getItem "google_auth_token" w = Some token ->
  token <> EmptyString ->
  loadStoredAuth w
  = Some (GoogleDriveService.setAccessToken (Some token)
            (set_accessToken (Some token) (set_currentUser (Some user) w))).
Proof.
  intros Hu Ht Hne. unfold loadStoredAuth. rewrite Hu, Ht.
  rewrite stringifyUser_not_empty, JSON_parse_stringifyUser.
  cbn [truthy]. rewrite stringifyUser_not_empty.
  destruct token as [|c t]; [congruence|]. cbn [JsString.not_empty andb].
  rewrite as_GoogleUser_user_object.
  destruct (user_object user) eqn:E; try discriminate E. reflexivity.
Qed.

Lemma signIn_world (env : Env) (w : World) :
  exists logged,
    fst (signIn env w)
    = mkWorld (delete "oauth_completion_time"
                 (delete "temp_auth_code" (localStorage w)))
        (isConfigured w) None None (driveAccessToken w) (requests w)
        (errors w ++ logged)%list.
Proof.
  unfold signIn. destruct (buildAuthUrl env) as [url|e].
  - exists []. rewrite app_nil_r. reflexivity.
  - eexists. reflexivity.
Qed.

Lemma signIn_storage (env : Env) (w : World) :
  let w' := fst (signIn env w) in
  isSignedIn w' = false
  /\ getItem "temp_auth_code" w' = None
  /\ getItem "oauth_completion_time" w' = None
  /\ (forall k, k <> "temp_auth_code" -> k <> "oauth_completion_time" ->
        getItem k w' = getItem k w).
Proof.
  intros w'. destruct (signIn_world env w) as [logged Hw]. fold w' in Hw.
  rewrite Hw. unfold isSignedIn, getItem. cbn.
  split; [reflexivity|].
  split; [rewrite lookup_delete_ne by discriminate; apply lookup_delete_eq|].
  split; [apply lookup_delete_eq|].
  intros k H1 H2. rewrite !lookup_delete_ne by congruence. reflexivity.
Qed.

(** [signIn] ends the session in memory only.  On every path the current
    user and the token of the auth service are null afterwards and the two
    records of a pending authorization attempt are gone, while every other
    entry of [localStorage] (the persisted user and token among them) and the
    token of the Drive service are as before, and no request is sent.  The
    browser is sent to the authorization address exactly when a client id is
    configured. *)
Theorem signIn_ends_session_in_memory_only (env : Env) (w : World) :
  let w' := fst (signIn env w) in
  isSignedIn w' = false
  /\ getAccessToken w' = None
  /\ getItem "temp_auth_code" w' = None
  /\ getItem "oauth_completion_time" w' = None
  /\ (forall k, k <> "temp_auth_code" -> k <> "oauth_completion_time" ->
        getItem k w' = getItem k w)
  /\ driveAccessToken w' = driveAccessToken w
  /\ requests w' = requests w
  /\ (snd (signIn env w) = None
      <-> truthy (REACT_APP_GOOGLE_CLIENT_ID env) = false).
Proof.
  intros w'. destruct (signIn_world env w) as [logged Hw]. fold w' in Hw.
  rewrite Hw. unfold isSignedIn, getAccessToken, getItem. cbn.
  split; [reflexivity|]. split; [reflexivity|].
  split; [rewrite lookup_delete_ne by discriminate; apply lookup_delete_eq|].
  split; [apply lookup_delete_eq|].
  split; [intros k H1 H2; rewrite !lookup_delete_ne by congruence; reflexivity|].
  split; [reflexivity|]. split; [reflexivity|].
  unfold signIn, buildAuthUrl.
  destruct (REACT_APP_GOOGLE_CLIENT_ID env) as [clientId|]; simpl.
  - destruct (JsString.not_empty clientId); simpl; split; congruence.
  - split; reflexivity.
Qed.

(** A session persisted by setAuthenticatedUser(user, token), with a token
    that is not empty, survives [signIn]: the service is signed out in
    memory, but the next page load finds no pending attempt, sends no
    request and restores that user and that token. *)
Theorem signIn_then_reload_restores (now : Z) (env : Env) (net : Network)
  (w0 : World) (user : GoogleUser.t) (token : string) :
  token <> EmptyString ->
  let w := setAuthenticatedUser user (Some token) w0 in
  let w' := fst (signIn env w) in
  isSignedIn w' = false
  /\ exists w'',
       startup now env net (localStorage w') = Some w''
       /\ currentUser w'' = Some user
       /\ accessToken w'' = Some token
       /\ driveAccessToken w'' = Some token
       /\ requests w'' = [].
Proof.
  intros Hne w w'.
  destruct (signIn_storage env w) as (H0 & Hc & Ho & Hk).
  fold w' in H0, Hc, Ho, Hk.
  split; [exact H0|].
  destruct (setAuthenticatedUser_stored user token w0) as [Hu Ht]. fold w in Hu, Ht.
  assert (Hu' : getItem "google_auth_user" w' = Some (stringifyUser user)).
  { rewrite Hk by discriminate. exact Hu. }
  assert (Ht' : getItem "google_auth_token" w' = Some token).
  { rewrite Hk by discriminate. exact Ht. }
  clearbody w'. unfold startup, constructor, checkForOAuthCompletion.
  unfold configureGoogleSignIn. cbn [freshLoad isConfigured].
  unfold getItem in *. cbn [localStorage set_isConfigured freshLoad].
  rewrite Hc.
  rewrite (loadStoredAuth_stored _ user token); [| exact Hu' | exact Ht' | exact Hne].
  eexists. split; [reflexivity|]. auto.
Qed.

Lemma signIn_then_reload_restores_witness :
  exists w'',
    startup Sample.recorded_at Sample.env Sample.net
      (localStorage
         (fst (signIn Sample.env
                 (setAuthenticatedUser Sample.user (Some "token-1")
                    (freshLoad ∅)))))
    = Some w''
    /\ currentUser w'' = Some Sample.user
    /\ accessToken w'' = Some "token-1".
Proof.
  destruct (signIn_then_reload_restores Sample.recorded_at Sample.env
              Sample.net (freshLoad ∅) Sample.user "token-1"
              ltac:(discriminate))
    as (_ & w'' & H1 & H2 & H3 & _).
  exists w''. auto.
Defined.

(** With both credentials configured, a token answer that carries an access
    token and a profile answer that is accepted, [processAuthCode] sends the
    token request and the profile request, in this order, logs no error, and
    leaves the user of the profile signed in: the auth service and the Drive
    service hold the new token, and the session is persisted so that the
    next page load restores the same user and token. *)
Theorem processAuthCode_signs_in (env : Env) (net : Network) (code : string)
  (w : World) (clientId clientSecret token : string)
  (tokenResponse : Response TokenData)
  (userInfoResponse : Response UserInfo) (userInfo : UserInfo) :
  REACT_APP_GOOGLE_CLIENT_ID env = Some clientId ->
  clientId <> EmptyString ->
  REACT_APP_GOOGLE_CLIENT_SECRET env = Some clientSecret ->
  clientSecret <> EmptyString ->
  token_endpoint net
    (TokenRequest clientId clientSecret code "authorization_code"
       "http://localhost:8081/auth-callback.html") = Ok tokenResponse ->
  ok tokenResponse = true ->
  json tokenResponse = Ok (mkTokenData (Some token)) ->
  token <> EmptyString ->
  userinfo_endpoint net (UserInfoRequest ("Bearer " ++ token))
  = Ok userInfoResponse ->
  ok userInfoResponse = true ->
  json userInfoResponse = Ok userInfo ->
  let user :=
    GoogleUser.mk (info_id userInfo) (info_email userInfo)
      (info_name userInfo) (info_picture userInfo) in
  let w' := processAuthCode env net code w in
  getCurrentUser w' = Some user
  /\ getAccessToken w' = Some token
  /\ driveAccessToken w' = Some token
  /\ requests w'
     = (requests w
        ++ [TokenRequest clientId clientSecret code "authorization_code"
              "http://localhost:8081/auth-callback.html";
            UserInfoRequest ("Bearer " ++ token)])%list
  /\ errors w' = errors w
  /\ exists w'',
       loadStoredAuth (freshLoad (localStorage w')) = Some w''
       /\ currentUser w'' = Some user
       /\ accessToken w'' = Some token
       /\ driveAccessToken w'' = Some token.
Proof.
  intros Hid Hidne Hsec Hsecne Htok Htokok Htokjson Hne Hinfo Hinfook Hinfojson
    user w'.
  assert (Hw' : w' = setAuthenticatedUser user (Some token)
                       (send (UserInfoRequest ("Bearer " ++ token))
                          (set_accessToken (Some token)
                             (send (TokenRequest clientId clientSecret code
                                      "authorization_code" redirect_uri) w)))).
  { subst w'. unfold processAuthCode, processAuthCode_begin.
    rewrite Hid, Hsec.
    destruct clientId as [|c1 r1]; [congruence|].
    destruct clientSecret as [|c2 r2]; [congruence|].
    cbn [JsString.not_empty andb]. unfold processAuthCode_resume.
    unfold redirect_uri at 1. rewrite Htok, Htokok. cbn [negb].
    rewrite Htokjson. cbn [access_token accessToken set_accessToken].
    rewrite Hinfo, Hinfook, Hinfojson. reflexivity. }
  clearbody w'. subst w'.
  set (w2 := send _ (set_accessToken _ (send _ w))).
  destruct (setAuthenticatedUser_stored user token w2) as [Hu Ht].
  assert (Hmem : forall v,
            v = setAuthenticatedUser user (Some token) w2 ->
            getCurrentUser v = Some user /\ getAccessToken v = Some token
            /\ driveAccessToken v = Some token
            /\ requests v = requests w2 /\ errors v = errors w2).
  { intros v ->. unfold setAuthenticatedUser. cbn.
    destruct token as [|c t]; [congruence|]. cbn. auto. }
  destruct (Hmem _ eq_refl) as (H1 & H2 & H3 & H4 & H5).
  split; [exact H1|]. split; [exact H2|]. split; [exact H3|].
  split; [rewrite H4; subst w2; cbn; rewrite <- app_assoc; reflexivity|].
  split; [rewrite H5; reflexivity|].
  rewrite (loadStoredAuth_stored _ user token); [| exact Hu | exact Ht | exact Hne].
  eexists. split; [reflexivity|]. auto.
Qed.

Lemma processAuthCode_signs_in_witness :
  let w' := processAuthCode Sample.env Sample.net "good-code"
              (freshLoad ∅) in
  getCurrentUser w' = Some (GoogleUser.mk "42" "ada@example.com" "Ada" None)
  /\ getAccessToken w' = Some "token-2"
  /\ driveAccessToken w' = Some "token-2".
Proof.
  destruct (processAuthCode_signs_in Sample.env Sample.net "good-code"
              (freshLoad ∅) "client-id" "client-secret" "token-2" _ _ _
              eq_refl ltac:(discriminate) eq_refl ltac:(discriminate)
              eq_refl eq_refl eq_refl ltac:(discriminate)
              eq_refl eq_refl eq_refl)
    as (H1 & H2 & H3 & _).
  split; [exact H1|]. split; [exact H2 | exact H3].
Defined.

(** When the client id or the client secret is missing or empty, a pending
    authorization attempt that is younger than five minutes is used up all
    the same: both records are removed, no request is sent, the session in
    memory and the persisted session stay as they were, and the only trace is
    one logged error. *)
Theorem checkForOAuthCompletion_without_credentials (now : Z) (env : Env)
  (w : World) (code time : string) (t : Z) :
  truthy (REACT_APP_GOOGLE_CLIENT_ID env)
  && truthy (REACT_APP_GOOGLE_CLIENT_SECRET env) = false ->
  getItem "temp_auth_code" w = Some code ->
  getItem "oauth_completion_time" w = Some time ->
  code <> EmptyString -> time <> EmptyString ->
  parseInt time = Some t ->
  now - t < 300 * 1000 ->
  checkForOAuthCompletion now env w
  = (removeItem "oauth_completion_time"
       (removeItem "temp_auth_code"
          (console_error "Error processing OAuth completion:" w)),
     None).
Proof.
  intros Hcred Hc Ht Hcne Htne Hparse Hage.
  rewrite (checkForOAuthCompletion_found now env w code time Hc Ht Hcne Htne).
  rewrite Hparse.
  replace (now - t <? 5 * 60 * 1000) with true by (symmetry; apply Z.ltb_lt; lia).
  unfold processAuthCode_begin, cleanUp.
  destruct (REACT_APP_GOOGLE_CLIENT_ID env) as [clientId|];
    destruct (REACT_APP_GOOGLE_CLIENT_SECRET env) as [clientSecret|];
    cbn [truthy] in Hcred; try reflexivity.
  rewrite Hcred. reflexivity.
Qed.

Lemma checkForOAuthCompletion_without_credentials_witness :
  checkForOAuthCompletion (Sample.recorded_at + 10 * 1000)
    (mkEnv (Some "client-id") None) (freshLoad Sample.pending)
  = (removeItem "oauth_completion_time"
       (removeItem "temp_auth_code"
          (console_error "Error processing OAuth completion:"
             (freshLoad Sample.pending))),
     None).
Proof.
  apply (checkForOAuthCompletion_without_credentials
           (Sample.recorded_at + 10 * 1000) (mkEnv (Some "client-id") None)
           (freshLoad Sample.pending) "good-code" "1700000000000"
           Sample.recorded_at);
    try reflexivity; try discriminate.
Defined.

(** Signing out does not reach the Drive service: in both variants of the
    auth service the Drive service holds the same token after [signOut] as
    before it, and a listing asked for afterwards is answered exactly as it
    would have been before. *)
Theorem signOut_keeps_drive_token (net : Network) (folderId : string)
  (w : World) :
  driveAccessToken (fst (signOut w)) = driveAccessToken w
  /\ snd (GoogleDriveService.listPhotosInFolder net folderId (fst (signOut w)))
     = snd (GoogleDriveService.listPhotosInFolder net folderId w)
  /\ driveAccessToken (fst (GoogleAuthServiceInMemory.signOut w))
     = driveAccessToken w
  /\ snd (GoogleDriveService.listPhotosInFolder net folderId
            (fst (GoogleAuthServiceInMemory.signOut w)))
     = snd (GoogleDriveService.listPhotosInFolder net folderId w).
Proof.
  assert (H1 : driveAccessToken (fst (signOut w)) = driveAccessToken w)
    by reflexivity.
  assert (H2 : driveAccessToken (fst (GoogleAuthServiceInMemory.signOut w))
               = driveAccessToken w) by reflexivity.
  split; [exact H1|].
  split; [apply listPhotosInFolder_result; exact H1|].
  split; [exact H2|].
  apply listPhotosInFolder_result; exact H2.
Qed.

End SignIn.

(** ** The authorization address *)

Section AuthorizationAddress.

Import JsString URLSearchParams GoogleAuthService.

Lemma includes_char_app (x : ascii) (a b : string) :
  includes (String x EmptyString) (a ++ b)
  = includes (String x EmptyString) a || includes (String x EmptyString) b.
Proof.
  unfold includes. induction a as [|y a IH].
  - reflexivity.
  - change (String y a ++ b) with (String y (a ++ b)).
    cbn [cut strip_prefix]. destruct (Ascii.eqb x y); [reflexivity|].
    destruct (cut (String x EmptyString) (a ++ b)) as [[p q]|];
      destruct (cut (String x EmptyString) a) as [[p' q']|];
      destruct (cut (String x EmptyString) b) as [[p'' q'']|];
      simpl in *; congruence.
Qed.

Lemma split_app_char (c : ascii) (a b : string) :
  includes (String c EmptyString) a = false ->
  split (String c EmptyString) (a ++ String c b)
  = a :: split (String c EmptyString) b.
Proof.
  intros H. unfold split. rewrite length_append. cbn [String.length].
  rewrite Nat.add_succ_r. cbn [split_aux]. rewrite (cut_char c a b H).
  f_equal. apply split_aux_enough; [discriminate | lia | lia].
Qed.

(** No character is encoded into text that holds one of the separators of a
    query. *)
Lemma encode_char_plain (c : ascii) :
  includes "&" (encode_char c) = false
  /\ includes "=" (encode_char c) = false
  /\ includes "#" (encode_char c) = false
  /\ includes " " (encode_char c) = false.
Proof.
  destruct c as [[] [] [] [] [] [] [] []]; repeat split; reflexivity.
Qed.

Lemma encode_plain (s : string) :
  includes "&" (encode s) = false
  /\ includes "=" (encode s) = false
  /\ includes "#" (encode s) = false
  /\ includes " " (encode s) = false.
Proof.
  induction s as [|c s (H1 & H2 & H3 & H4)]; [repeat split; reflexivity|].
  destruct (encode_char_plain c) as (C1 & C2 & C3 & C4).
  cbn [encode]. rewrite !includes_char_app, H1, H2, H3, H4, C1, C2, C3, C4.
  auto.
Qed.

(** With a client id configured, the authorization address is the endpoint
    followed by a query of exactly seven parameters, whatever the client id
    is: its encoding holds no ampersand, equals sign, hash or space, so it
    cannot add a parameter or change another one; and the redirect address in
    the query is the encoding of the one that [processAuthCode] sends with
    the token request. *)
Theorem buildAuthUrl_query (env : Env) (clientId : string) :
  REACT_APP_GOOGLE_CLIENT_ID env = Some clientId ->
  clientId <> EmptyString ->
  exists query,
    buildAuthUrl env
    = Ok ("https://accounts.google.com/o/oauth2/v2/auth?" ++ query)
    /\ split "&" query
       = [ "client_id=" ++ encode clientId;
           "redirect_uri=" ++ encode redirect_uri;
           "scope=https%3A%2F%2Fwww.googleapis.com%2Fauth%2Fdrive.readonly+https%3A%2F%2Fwww.googleapis.com%2Fauth%2Fuserinfo.email+https%3A%2F%2Fwww.googleapis.com%2Fauth%2Fuserinfo.profile";
           "response_type=code";
           "access_type=offline";
           "prompt=consent";
           "include_granted_scopes=true" ]
    /\ includes "&" (encode clientId) = false
    /\ includes "=" (encode clientId) = false
    /\ includes "#" (encode clientId) = false
    /\ includes " " (encode clientId) = false.
Proof.
  intros Hid Hne. unfold buildAuthUrl. rewrite Hid.
  destruct clientId as [|c0 r0] eqn:E; [congruence|]. rewrite <- E in *.
  assert (Hnot : not_empty clientId = true) by (rewrite E; reflexivity).
  rewrite Hnot. eexists. split; [reflexivity|].
  destruct (encode_plain clientId) as (H1 & H2 & H3 & H4).
  split; [|auto].
  assert (Hq : toString (auth_params clientId)
               = ("client_id=" ++ encode clientId)
                 ++ String "&" (toString (tl (auth_params clientId)))).
  { unfold auth_params. cbn [toString tl].
    change (encode "client_id") with "client_id".
    cbn [String.append]. reflexivity. }
  rewrite Hq, split_app_char.
  - f_equal.
  - rewrite includes_char_app, H1. reflexivity.
Qed.

Lemma buildAuthUrl_query_witness :
  exists query,
    buildAuthUrl Sample.env
    = Ok ("https://accounts.google.com/o/oauth2/v2/auth?" ++ query)
    /\ length (split "&" query) = 7%nat.
Proof.
  destruct (buildAuthUrl_query Sample.env "client-id" eq_refl
              ltac:(discriminate)) as (query & H1 & H2 & _).
  exists query. split; [exact H1|]. rewrite H2. reflexivity.
Defined.

End AuthorizationAddress.

(** ** The folder selection of the settings dialog *)

Section SelectionHandlers.

Import JsString Json SettingsDialog SettingsDialogState App.

Lemma array_includes_In (folderId : string) (l : list string) :
  array_includes folderId l = true <-> In folderId l.
Proof.
  unfold array_includes. rewrite existsb_exists. split.
  - intros (x & Hx & E). apply String.eqb_eq in E. subst x. exact Hx.
  - intros H. exists folderId. split; [exact H | apply String.eqb_refl].
Qed.

Lemma filter_other_includes (folderId other : string) (l : list string) :
  array_includes other
    (List.filter (fun id => negb (String.eqb id folderId)) l)
  = if String.eqb other folderId then false else array_includes other l.
Proof.
  unfold array_includes. induction l as [|x l IH]; simpl.
  - destruct (String.eqb other folderId); reflexivity.
  - destruct (String.eqb x folderId) eqn:Ex; simpl.
    + rewrite IH. apply String.eqb_eq in Ex. subst x.
      destruct (String.eqb other folderId); reflexivity.
    + rewrite IH. destruct (String.eqb other folderId) eqn:Eo;
        [|reflexivity].
      apply String.eqb_eq in Eo. subst other.
      rewrite String.eqb_sym, Ex. reflexivity.
Qed.

Lemma filter_absent (folderId : string) (l : list string) :
  array_includes folderId l = false ->
  List.filter (fun id => negb (String.eqb id folderId)) l = l.
Proof.
  unfold array_includes. induction l as [|x l IH]; simpl; [reflexivity|].
  intros H. apply orb_false_iff in H as [Hx Hl].
  rewrite String.eqb_sym, Hx. simpl. f_equal. apply IH. exact Hl.
Qed.

(** [handleFolderToggle] flips the folder it is given and no other: in the
    new selection the folder is present exactly when it was absent before,
    every other folder is present exactly when it was before, and a
    selection without repetitions stays without repetitions. *)
Theorem handleFolderToggle_flips (folderId other : string)
  (prev : list string) (w : World) :
  let newSelection := fst (handleFolderToggle folderId prev w) in
  array_includes other newSelection
  = (if String.eqb other folderId
     then negb (array_includes folderId prev)
     else array_includes other prev)
  /\ (List.NoDup prev -> List.NoDup newSelection).
Proof.
  unfold handleFolderToggle. cbn [fst].
  destruct (array_includes folderId prev) eqn:E.
  - split; [apply filter_other_includes | apply List.NoDup_filter].
  - split.
    + unfold array_includes. rewrite existsb_app. simpl.
      rewrite orb_false_r.
      destruct (String.eqb other folderId) eqn:Eo.
      * apply orb_true_r.
      * apply orb_false_r.
    + intros Hnd. apply List.NoDup_app.
      * exact Hnd.
      * constructor; [intros []|constructor].
      * intros a Ha [<-|[]].
        apply array_includes_In in Ha. congruence.
Qed.

Lemma loadSelectedFolders_save (d : Dialog) (newSelection : list string)
  (w : World) :
  loadSelectedFolders d (save newSelection w)
  = Some (setSelectedFolders newSelection d, save newSelection w).
Proof.
  unfold loadSelectedFolders, save. rewrite getItem_setItem.
  rewrite stringifyStrings_not_empty, JSON_parse_stringifyStrings, as_strings_map.
  reflexivity.
Qed.

(** Toggling a folder that is not selected, and toggling it again, gives
    back the selection as it was, in the same order, and leaves exactly its
    text in [localStorage]; the dialog reads that selection when it is
    opened again. *)
Theorem handleFolderToggle_twice (folderId : string) (prev : list string)
  (w : World) (d : Dialog) :
  array_includes folderId prev = false ->
  let once := handleFolderToggle folderId prev w in
  let twice := handleFolderToggle folderId (fst once) (snd once) in
  fst once = (prev ++ [folderId])%list
  /\ fst twice = prev
  /\ getItem "selected_folders" (snd twice) = Some (stringifyStrings prev)
  /\ loadSelectedFolders d (snd twice)
     = Some (setSelectedFolders prev d, snd twice).
Proof.
  intros H once twice.
  assert (H1 : fst once = (prev ++ [folderId])%list).
  { subst once. unfold handleFolderToggle. rewrite H. reflexivity. }
  assert (H2 : twice = (prev, save prev (snd once))).
  { subst twice. unfold handleFolderToggle at 1. rewrite H1.
    assert (Hin : array_includes folderId (prev ++ [folderId]) = true).
    { unfold array_includes. rewrite existsb_app. simpl.
      rewrite String.eqb_refl. apply orb_true_r. }
    rewrite Hin, List.filter_app, (filter_absent _ _ H). simpl.
    rewrite String.eqb_refl. simpl. rewrite app_nil_r. reflexivity. }
  rewrite H2. cbn [fst snd].
  split; [exact H1|]. split; [reflexivity|].
  split; [apply getItem_setItem | apply loadSelectedFolders_save].
Qed.

Lemma handleFolderToggle_twice_witness :
  let once := handleFolderToggle "sub3" ["root"; "sub1"] Sample.world in
  let twice := handleFolderToggle "sub3" (fst once) (snd once) in
  fst once = ["root"; "sub1"; "sub3"]
  /\ fst twice = ["root"; "sub1"].
Proof.
  destruct (handleFolderToggle_twice "sub3" ["root"; "sub1"] Sample.world
              Sample.dialog eq_refl) as (H1 & H2 & _).
  split; [exact H1 | exact H2].
Defined.

(** Whatever selection one of the three handlers of the folder tab leaves,
    the dialog reads back exactly that selection from [localStorage] when it
    is opened again, without logging an error. *)
Theorem selection_reopens (d : Dialog) (w : World) (folderId : string)
  (prev folderIds : list string) :
  loadSelectedFolders d (snd (handleFolderToggle folderId prev w))
  = Some (setSelectedFolders (fst (handleFolderToggle folderId prev w)) d,
          snd (handleFolderToggle folderId prev w))
  /\ loadSelectedFolders d (snd (handleSelectAllFolders folderIds w))
     = Some (setSelectedFolders ("root" :: folderIds) d,
             snd (handleSelectAllFolders folderIds w))
  /\ loadSelectedFolders d (snd (handleDeselectAllFolders w))
     = Some (setSelectedFolders [] d, snd (handleDeselectAllFolders w)).
Proof.
  unfold handleFolderToggle, handleSelectAllFolders, handleDeselectAllFolders.
  cbn [fst snd]. repeat split; apply loadSelectedFolders_save.
Qed.

Lemma getItem_save_url (newSelection : list string) (w : World) :
  getItem "shared_moments_folder_url" (save newSelection w)
  = getItem "shared_moments_folder_url" w.
Proof. unfold save. apply getItem_setItem_ne. discriminate. Qed.

(** The slideshow follows the dialog.  With a folder URL stored from which a
    root folder id is captured, [loadPhotosFromDrive] run after
    [handleFolderToggle] aggregates the listings of exactly the folders of
    the new selection, in its order; run after [handleDeselectAllFolders] it
    sends no request and ends with no Drive photo and no error message, so
    that the five samples are shown. *)
Theorem selection_is_loaded (net : Network) (w : World) (a : State)
  (savedUrl rootFolderId folderId : string) (prev : list string) :
  getItem "shared_moments_folder_url" w = Some savedUrl ->
  match_folders savedUrl = Some rootFolderId ->
  (let toggled := handleFolderToggle folderId prev w in
   exists w' a',
     loadPhotosFromDrive net (snd toggled) a = Some (w', a')
     /\ drivePhotos a'
        = uniquePhotos
            (concat (List.map (folder_photos net (snd toggled) rootFolderId)
                       (fst toggled)))
     /\ photoError a' = None)
  /\ (forall folderIds,
      let all := handleSelectAllFolders folderIds w in
      exists w' a',
        loadPhotosFromDrive net (snd all) a = Some (w', a')
        /\ drivePhotos a'
           = uniquePhotos
               (concat (List.map (folder_photos net (snd all) rootFolderId)
                          ("root" :: folderIds)))
        /\ photoError a' = None)
  /\ (let cleared := handleDeselectAllFolders w in
      exists w' a',
        loadPhotosFromDrive net (snd cleared) a = Some (w', a')
        /\ drivePhotos a' = []
        /\ photoError a' = None
        /\ displayPhotos_length a' = samplePhotos_length
        /\ requests w' = requests w).
Proof.
  intros Hurl Hmatch. split; [|split].
  - intros toggled.
    assert (Hu : getItem "shared_moments_folder_url" (snd toggled) = Some savedUrl).
    { subst toggled. unfold handleFolderToggle. cbn [snd].
      rewrite getItem_save_url. exact Hurl. }
    destruct (loadPhotosFromDrive_loaded net (snd toggled) a savedUrl
                rootFolderId (fst toggled) Hu Hmatch
                (handleFolderToggle_stored folderId prev w))
      as (w' & a' & H1 & H2 & H3 & _).
    exists w', a'. auto.
  - intros folderIds all.
    assert (Hu : getItem "shared_moments_folder_url" (snd all) = Some savedUrl).
    { subst all. unfold handleSelectAllFolders. cbn [snd].
      rewrite getItem_save_url. exact Hurl. }
    destruct (loadPhotosFromDrive_loaded net (snd all) a savedUrl
                rootFolderId ("root" :: folderIds) Hu Hmatch
                (handleSelectAllFolders_stored folderIds w))
      as (w' & a' & H1 & H2 & H3 & _).
    exists w', a'. auto.
  - intros cleared.
    assert (Hu : getItem "shared_moments_folder_url" (snd cleared) = Some savedUrl).
    { subst cleared. unfold handleDeselectAllFolders. cbn [snd].
      rewrite getItem_save_url. exact Hurl. }
    rewrite (loadPhotosFromDrive_fold net (snd cleared) a savedUrl rootFolderId
               [] Hu Hmatch (handleDeselectAllFolders_stored w)).
    do 2 eexists. split; [reflexivity|]. cbn. auto.
Qed.

Lemma selection_is_loaded_witness :
  exists w' a',
    loadPhotosFromDrive Sample.net
      (snd (handleFolderToggle "sub2" ["root"; "sub1"; "sub2"] Sample.world))
      Sample.app = Some (w', a')
    /\ List.map DrivePhoto.id (drivePhotos a') = ["A"; "C"; "D"].
Proof.
  destruct (selection_is_loaded Sample.net Sample.world Sample.app
              Sample.share_url "XYZ123" "sub2" ["root"; "sub1"; "sub2"]
              eq_refl eq_refl) as ((w' & a' & H1 & H2 & _) & _).
  exists w', a'. split; [exact H1|]. rewrite H2. reflexivity.
Defined.

End SelectionHandlers.

(** ** Saving the folder URL, and the folder list of the dialog *)

Section SavedUrl.

Import JsString GoogleDriveService SettingsDialogState App.

Lemma trim_start_head (s : string) :
  GoogleAuthService.trim_start s = EmptyString
  \/ exists c r, GoogleAuthService.trim_start s = String c r
                 /\ GoogleAuthService.is_js_space c = false.
Proof.
  induction s as [|c s IH]; [left; reflexivity|].
  cbn [GoogleAuthService.trim_start].
  destruct (GoogleAuthService.is_js_space c) eqn:E; [exact IH|].
  right. exists c, s. auto.
Qed.

Lemma trim_end_head (c : ascii) (r : string) :
  GoogleAuthService.is_js_space c = false ->
  exists r', trim_end (String c r) = String c r'.
Proof.
  intros H. cbn [trim_end]. rewrite H.
  destruct (trim_end r); eexists; reflexivity.
Qed.

Lemma trim_end_idempotent (s : string) : trim_end (trim_end s) = trim_end s.
Proof.
  induction s as [|c s IH]; [reflexivity|].
  cbn [trim_end]. destruct (trim_end s) as [|x t] eqn:E.
  - destruct (GoogleAuthService.is_js_space c) eqn:Ec; [reflexivity|].
    cbn [trim_end]. rewrite Ec. reflexivity.
  - cbn [trim_end] in IH |- *.
    destruct (trim_end t) as [|y u] eqn:Et.
    + destruct (GoogleAuthService.is_js_space x) eqn:Ex; [discriminate IH|].
      congruence.
    + congruence.
Qed.

Lemma trim_idempotent (s : string) : trim (trim s) = trim s.
Proof.
  unfold trim. destruct (trim_start_head s) as [E|(c & r & E & Hc)]; rewrite E.
  - reflexivity.
  - destruct (trim_end_head c r Hc) as [r' E']. rewrite E'.
    cbn [GoogleAuthService.trim_start]. rewrite Hc, <- E'.
    apply trim_end_idempotent.
Qed.

Lemma includes_not_empty (sep s : string) :
  sep <> EmptyString -> includes sep s = true -> not_empty s = true.
Proof.
  intros Hsep H. destruct s; [|reflexivity].
  unfold includes in H. rewrite (cut_empty sep Hsep) in H. discriminate.
Qed.

Lemma includes_app_intro (sep pre rest : string) :
  includes sep (pre ++ sep ++ rest) = true.
Proof.
  unfold includes. induction pre as [|c pre IH].
  - change (EmptyString ++ sep ++ rest) with (sep ++ rest).
    destruct (sep ++ rest) eqn:E.
    + destruct sep; [reflexivity | discriminate E].
    + cbn [cut]. rewrite <- E, strip_prefix_self. reflexivity.
  - change (String c pre ++ sep ++ rest) with (String c (pre ++ sep ++ rest)).
    cbn [cut]. destruct (strip_prefix sep _); [reflexivity|].
    destruct (cut sep (pre ++ sep ++ rest)) as [[b a]|]; [reflexivity|].
    discriminate IH.
Qed.

(** [handleSaveUrl] writes to [localStorage] only when the dialog is
    authenticated and the text of the input, trimmed, contains
    "drive.google.com/drive/folders/".  Then it stores the trimmed text, the
    dialog shows that text when it is opened again, and saving what is shown
    stores the same text once more.  In every other case the storage is left
    as it was and exactly one alert with the title "Error" is raised. *)
Theorem handleSaveUrl_round_trip (isAuthenticated : bool) (d d0 : Dialog)
  (w : World) :
  let url := trim (sharedFolderUrl d) in
  let saved := handleSaveUrl isAuthenticated d w in
  if isAuthenticated && includes "drive.google.com/drive/folders/" url then
    snd saved = setItem "shared_moments_folder_url" url w
    /\ alerts (fst saved)
       = (alerts d ++ [("Success", "Shared folder URL saved successfully!")])%list
    /\ isSaving (fst saved) = false
    /\ sharedFolderUrl (loadSavedUrl d0 (snd saved)) = url
    /\ getItem "shared_moments_folder_url"
         (snd (handleSaveUrl isAuthenticated (loadSavedUrl d0 (snd saved))
                 (snd saved)))
       = Some url
  else
    snd saved = w
    /\ isSaving (fst saved) = isSaving d
    /\ exists message, alerts (fst saved) = (alerts d ++ [("Error", message)])%list.
Proof.
  intros url saved. subst saved. unfold handleSaveUrl. fold url.
  destruct isAuthenticated; cbn [andb negb].
  - destruct (includes "drive.google.com/drive/folders/" url) eqn:Hinc.
    + assert (Hne : not_empty url = true).
      { apply (includes_not_empty "drive.google.com/drive/folders/" _
               ltac:(discriminate) Hinc). }
      rewrite Hne. cbn [negb fst snd].
      split; [reflexivity|]. split; [reflexivity|]. split; [reflexivity|].
      assert (Hshown : loadSavedUrl d0 (setItem "shared_moments_folder_url" url w)
                       = setSharedFolderUrl url d0).
      { unfold loadSavedUrl. rewrite getItem_setItem, Hne. reflexivity. }
      rewrite Hshown. cbn [sharedFolderUrl setSharedFolderUrl].
      split; [reflexivity|].
      assert (Hidem : trim url = url) by (subst url; apply trim_idempotent).
      rewrite Hidem, Hne, Hinc. cbn [negb snd]. apply getItem_setItem.
    + destruct (not_empty url); cbn [negb fst snd];
        (split; [reflexivity|]; split; [reflexivity|]; eexists; reflexivity).
  - destruct (not_empty url); cbn [negb fst snd];
      (split; [reflexivity|]; split; [reflexivity|]; eexists; reflexivity).
Qed.

Lemma match_folders_found (pre rest : string) (c : ascii) :
  segment_char c = true ->
  exists root, match_folders (pre ++ "/folders/" ++ String c rest) = Some root.
Proof.
  intros Hc. induction pre as [|x pre IH].
  - change (EmptyString ++ "/folders/" ++ String c rest)
      with ("/folders/" ++ String c rest).
    eexists. simpl. rewrite Hc. reflexivity.
  - change (String x pre ++ "/folders/" ++ String c rest)
      with (String x (pre ++ "/folders/" ++ String c rest)).
    cbn [match_folders].
    destruct (strip_prefix "/folders/" _) as [r|].
    + destruct (takeWhile segment_char r); [exact IH | eexists; reflexivity].
    + exact IH.
Qed.

(** The check of the dialog and the pattern of the slideshow agree on every
    URL in which "drive.google.com/drive/folders/" is followed by a character
    other than a slash or a question mark: an authenticated dialog stores
    such a URL, and [loadPhotosFromDrive] captures a root folder id from what
    was stored. *)
Theorem saved_url_is_matched (d : Dialog) (w : World) (pre rest : string)
  (c : ascii) :
  trim (sharedFolderUrl d)
  = pre ++ "drive.google.com/drive/folders/" ++ String c rest ->
  segment_char c = true ->
  exists root,
    getItem "shared_moments_folder_url" (snd (handleSaveUrl true d w))
    = Some (trim (sharedFolderUrl d))
    /\ match_folders (trim (sharedFolderUrl d)) = Some root.
Proof.
  intros Hurl Hc.
  assert (Hinc : includes "drive.google.com/drive/folders/"
                   (trim (sharedFolderUrl d)) = true).
  { rewrite Hurl. apply includes_app_intro. }
  destruct (match_folders_found (pre ++ "drive.google.com/drive") rest c Hc)
    as [root Hroot].
  exists root. split.
  - unfold handleSaveUrl.
    rewrite (includes_not_empty "drive.google.com/drive/folders/" _
               ltac:(discriminate) Hinc), Hinc.
    cbn [negb snd]. apply getItem_setItem.
  - rewrite Hurl, <- Hroot. rewrite append_assoc. reflexivity.
Qed.

Lemma saved_url_is_matched_witness :
  exists root,
    getItem "shared_moments_folder_url"
      (snd (handleSaveUrl true
              (setSharedFolderUrl
                 "  https://drive.google.com/drive/folders/XYZ123?usp=sharing "
                 Sample.dialog)
              Sample.world))
    = Some "https://drive.google.com/drive/folders/XYZ123?usp=sharing"
    /\ match_folders "https://drive.google.com/drive/folders/XYZ123?usp=sharing"
       = Some root.
Proof.
  exact (saved_url_is_matched
           (setSharedFolderUrl
              "  https://drive.google.com/drive/folders/XYZ123?usp=sharing "
              Sample.dialog)
           Sample.world "https://" "YZ123?usp=sharing" "X" eq_refl eq_refl).
Defined.

(** [loadFolders] on every path: the loading flag is off at the end, the
    selection and the URL input of the dialog, [localStorage] and the token
    of the Drive service are untouched, at most one request is sent, and the
    list of folders on display is replaced only when nothing was logged as an
    error. *)
Theorem loadFolders_frame (net : Network) (d : Dialog) (w : World) :
  let r := loadFolders net d w in
  isLoadingFolders (fst r) = false
  /\ selectedFolders (fst r) = selectedFolders d
  /\ sharedFolderUrl (fst r) = sharedFolderUrl d
  /\ localStorage (snd r) = localStorage w
  /\ driveAccessToken (snd r) = driveAccessToken w
  /\ (requests (snd r) = requests w
      \/ exists request, requests (snd r) = (requests w ++ [request])%list)
  /\ (folders (fst r) = folders d \/ errors (snd r) = errors w).
Proof.
  unfold loadFolders.
  destruct (getItem "shared_moments_folder_url" w) as [savedUrl|];
    [|cbn; auto 10].
  destruct (not_empty savedUrl); [|cbn; auto 10].
  destruct (match_folders savedUrl) as [root|]; [|cbn; auto 10].
  unfold listFoldersInFolder, makeDriveRequest.
  destruct (negb (truthy (driveAccessToken w))); [cbn; auto 10|].
  destruct (drive_endpoint net _) as [response|e]; [|cbn; eauto 10].
  destruct (negb (ok response)); [cbn; eauto 10|].
  destruct (json response) as [files|e]; cbn; eauto 10.
Qed.

End SavedUrl.

(** ** The display switches *)

Section Switches.

Import Json App.

Lemma savedSwitch_setItem (key : string) (value : bool) (w : World) :
  savedSwitch key (setItem key (stringifyBool value) w) = Some (Ok value).
Proof.
  unfold savedSwitch. rewrite getItem_setItem. destruct value; reflexivity.
Qed.

Lemma savedSwitch_setItem_ne (key key' text : string) (w : World) :
  key <> key' ->
  savedSwitch key' (setItem key text w) = savedSwitch key' w.
Proof.
  intros H. unfold savedSwitch. rewrite getItem_setItem_ne by exact H.
  reflexivity.
Qed.

(** The switches on display and [localStorage] stay in step.  If a page load
    would initialize the three switches to the values that are on display,
    then after each of the three handlers a page load initializes them to
    the values the handler has put on display: the switch that was set has
    the new value and the other two keep theirs. *)
Theorem switches_survive_reload (value : bool) (s : Settings) (w : World) :
  initialSettings w = Some (Ok s) ->
  initialSettings (snd (handleShowEmailChange value s w))
  = Some (Ok (fst (handleShowEmailChange value s w)))
  /\ fst (handleShowEmailChange value s w)
     = mkSettings value (showControls s) (showPhotoCounter s)
  /\ initialSettings (snd (handleShowControlsChange value s w))
     = Some (Ok (fst (handleShowControlsChange value s w)))
  /\ fst (handleShowControlsChange value s w)
     = mkSettings (showEmail s) value (showPhotoCounter s)
  /\ initialSettings (snd (handleShowPhotoCounterChange value s w))
     = Some (Ok (fst (handleShowPhotoCounterChange value s w)))
  /\ fst (handleShowPhotoCounterChange value s w)
     = mkSettings (showEmail s) (showControls s) value.
Proof.
  intros H. unfold initialSettings in H.
  destruct (savedSwitch "show_email" w) as [[e|?]|] eqn:He; try discriminate.
  destruct (savedSwitch "show_controls" w) as [[c|?]|] eqn:Hc; try discriminate.
  destruct (savedSwitch "show_photo_counter" w) as [[p|?]|] eqn:Hp;
    try discriminate.
  inversion H; subst s; clear H.
  unfold initialSettings, handleShowEmailChange, handleShowControlsChange,
    handleShowPhotoCounterChange.
  cbn [fst snd showEmail showControls showPhotoCounter].
  rewrite !savedSwitch_setItem.
  rewrite !savedSwitch_setItem_ne by discriminate.
  rewrite He, Hc, Hp. repeat split; reflexivity.
Qed.

Lemma switches_survive_reload_witness :
  initialSettings
    (snd (handleShowControlsChange false (mkSettings true true true)
            (GoogleAuthService.freshLoad ∅)))
  = Some (Ok (mkSettings true false true)).
Proof.
  assert (Hpre : initialSettings (GoogleAuthService.freshLoad ∅)
                 = Some (Ok (mkSettings true true true)))
    by (vm_compute; reflexivity).
  destruct (switches_survive_reload false (mkSettings true true true)
              (GoogleAuthService.freshLoad ∅) Hpre)
    as (_ & _ & H & _).
  exact H.
Defined.

End Switches.

(** ** The photo index *)

Section PhotoIndex.

Import App.

Lemma guarded_index_in_range (x n : Z) :
  0 < n ->
  0 <= (if (x >=? 0) && (x <? n) then x else 0) < n.
Proof.
  intros Hn. destruct (x >=? 0) eqn:E1; destruct (x <? n) eqn:E2; simpl; lia.
Qed.

(** Whatever the current index is, in range or not, after [nextPhoto],
    after [prevPhoto] and after the effect that resets the index, the index
    lies in the range of the photos on display, which none of the three
    changes. *)
Theorem photo_index_in_range (a : State) :
  0 <= currentPhotoIndex (nextPhoto a) < displayPhotos_length (nextPhoto a)
  /\ 0 <= currentPhotoIndex (prevPhoto a) < displayPhotos_length (prevPhoto a)
  /\ 0 <= currentPhotoIndex (resetPhotoIndex a)
     < displayPhotos_length (resetPhotoIndex a)
  /\ drivePhotos (nextPhoto a) = drivePhotos a
  /\ drivePhotos (prevPhoto a) = drivePhotos a
  /\ drivePhotos (resetPhotoIndex a) = drivePhotos a.
Proof.
  pose proof (displayPhotos_length_pos a) as Hn.
  assert (Hnext : nextPhoto a
                  = setCurrentPhotoIndex
                      (fun prev =>
                         let newIndex := Z.rem (prev + 1) (displayPhotos_length a) in
                         if (newIndex >=? 0) && (newIndex <? displayPhotos_length a)
                         then newIndex else 0) a).
  { unfold nextPhoto. destruct (displayPhotos_length a >? 0) eqn:E; [reflexivity|lia]. }
  assert (Hprev : prevPhoto a
                  = setCurrentPhotoIndex
                      (fun prev =>
                         let newIndex :=
                           Z.rem (prev - 1 + displayPhotos_length a)
                             (displayPhotos_length a) in
                         if (newIndex >=? 0) && (newIndex <? displayPhotos_length a)
                         then newIndex else 0) a).
  { unfold prevPhoto. destruct (displayPhotos_length a >? 0) eqn:E; [reflexivity|lia]. }
  rewrite Hnext, Hprev, !displayPhotos_length_setIndex.
  cbn [currentPhotoIndex setCurrentPhotoIndex drivePhotos].
  split; [apply guarded_index_in_range; exact Hn|].
  split; [apply guarded_index_in_range; exact Hn|].
  assert (Hreset : 0 <= currentPhotoIndex (resetPhotoIndex a)
                     < displayPhotos_length (resetPhotoIndex a)
                   /\ drivePhotos (resetPhotoIndex a) = drivePhotos a).
  { unfold resetPhotoIndex, displayPhotos_length in *.
    destruct (Z.of_nat (length (drivePhotos a)) =? 0) eqn:E0.
    - cbn. split; [|reflexivity].
      destruct (Z.of_nat (length (drivePhotos a)) >? 0); unfold samplePhotos_length; lia.
    - destruct (currentPhotoIndex a >=? Z.of_nat (length (drivePhotos a))) eqn:E1;
        destruct (currentPhotoIndex a <? 0) eqn:E2; cbn;
        (split; [|reflexivity]);
        destruct (Z.of_nat (length (drivePhotos a)) >? 0) eqn:E3;
        unfold samplePhotos_length; lia. }
  destruct Hreset as [H1 H2]. auto.
Qed.

(** While Drive photos are shown and the index is not negative, a round of
    the slideshow timer moves the index exactly as [nextPhoto] does; a timer
    that is paused, or one that runs while the five samples are shown,
    leaves the state as it is. *)
Theorem tick_is_nextPhoto (a : State) :
  drivePhotos a <> [] ->
  0 <= currentPhotoIndex a ->
  tick true a = nextPhoto a
  /\ tick false a = a
  /\ tick true (setDrivePhotos [] a) = setDrivePhotos [] a.
Proof.
  intros Hne Hi.
  assert (Hlen : 0 < Z.of_nat (length (drivePhotos a))).
  { destruct (drivePhotos a); [congruence | simpl; lia]. }
  split; [|split; reflexivity].
  unfold tick, nextPhoto, displayPhotos_length.
  destruct (Z.of_nat (length (drivePhotos a)) >? 0) eqn:E; [|lia].
  rewrite E. cbn [andb].
  apply State_eq; try reflexivity.
  cbn [currentPhotoIndex setCurrentPhotoIndex].
  pose proof (Z.rem_bound_pos (currentPhotoIndex a + 1)
                (Z.of_nat (length (drivePhotos a))) ltac:(lia) Hlen) as Hb.
  destruct (_ >=? 0) eqn:E1; [|lia].
  destruct (_ <? Z.of_nat (length (drivePhotos a))) eqn:E2; [reflexivity|lia].
Qed.

Lemma tick_is_nextPhoto_witness :
  let a :=
    mkState [DrivePhoto.mk "A" "a.png" "image/png" None None "10";
             DrivePhoto.mk "D" "d.png" "image/png" None None "40"]
      false None 1 in
  tick true a = nextPhoto a /\ currentPhotoIndex (tick true a) = 0.
Proof.
  destruct (tick_is_nextPhoto
              (mkState [DrivePhoto.mk "A" "a.png" "image/png" None None "10";
                        DrivePhoto.mk "D" "d.png" "image/png" None None "40"]
                 false None 1)
              ltac:(discriminate) ltac:(discriminate)) as (H & _).
  split; [exact H | reflexivity].
Defined.

End PhotoIndex.

(** ** A stored session that cannot be read *)

Section CorruptSession.

Import Json GoogleAuthService.

(** When the stored user is text that is not JSON, [loadStoredAuth] logs the
    error and wipes the session, whether a token is stored or not: both
    persisted entries are removed and the auth service is signed out, while
    the Drive service keeps its token.  The wipe is final: loading again
    changes nothing and logs nothing. *)
Theorem loadStoredAuth_discards_corrupt_user (w : World) (text : string) :
  getItem "google_auth_user" w = Some text ->
  text <> EmptyString ->
  JSON_parse text = PSyntax ->
  exists w',
    loadStoredAuth w = Some w'
    /\ getItem "google_auth_user" w' = None
    /\ getItem "google_auth_token" w' = None
    /\ isSignedIn w' = false
    /\ getAccessToken w' = None
    /\ driveAccessToken w' = driveAccessToken w
    /\ errors w' = (errors w ++ ["Error loading stored auth:"])%list
    /\ loadStoredAuth w' = Some w'.
Proof.
  intros Hu Hne Hparse.
  assert (Hfirst : loadStoredAuth w
                   = Some (clearStoredAuth
                             (console_error "Error loading stored auth:" w))).
  { unfold loadStoredAuth. rewrite Hu.
    destruct text as [|c t]; [congruence|]. cbn [JsString.not_empty].
    rewrite Hparse. reflexivity. }
  rewrite Hfirst. eexists. split; [reflexivity|].
  set (w' := clearStoredAuth _).
  assert (H1 : getItem "google_auth_user" w' = None).
  { subst w'. unfold clearStoredAuth, getItem. cbn.
    rewrite lookup_delete_ne by discriminate. apply lookup_delete_eq. }
  assert (H2 : getItem "google_auth_token" w' = None).
  { subst w'. unfold clearStoredAuth, getItem. cbn. apply lookup_delete_eq. }
  split; [exact H1|]. split; [exact H2|].
  split; [reflexivity|]. split; [reflexivity|].
  split; [reflexivity|]. split; [reflexivity|].
  clearbody w'. unfold loadStoredAuth. rewrite H1, H2. reflexivity.
Qed.

Lemma loadStoredAuth_discards_corrupt_user_witness :
  exists w',
    loadStoredAuth
      (freshLoad (<["google_auth_user" := "{"]>
                    (<["google_auth_token" := "token-1"]> ∅)))
    = Some w'
    /\ getItem "google_auth_token" w' = None
    /\ errors w' = ["Error loading stored auth:"].
Proof.
  assert (Hu : getItem "google_auth_user"
                 (freshLoad (<["google_auth_user" := "{"]>
                               (<["google_auth_token" := "token-1"]> ∅)))
               = Some "{") by (vm_compute; reflexivity).
  assert (Hp : JSON_parse "{" = PSyntax) by (vm_compute; reflexivity).
  assert (Hne : "{" <> EmptyString) by discriminate.
  destruct (loadStoredAuth_discards_corrupt_user _ "{" Hu Hne Hp)
    as (w' & H1 & _ & H2 & _ & _ & _ & H3 & _).
  exists w'. auto.
Defined.

End CorruptSession.

(** ** The variant that keeps the session in memory *)

Section InMemorySession.

Import GoogleAuthService.


(** The variant of the auth service in services/GoogleAuthService.ts never
    writes a session down: neither [setAuthenticatedUser] nor a run of
    [processAuthCode], however it ends, changes [localStorage].  So when no
    authorization attempt is pending, the page load that follows a sign-in
    sends no request and starts with nobody signed in. *)
Theorem in_memory_session_is_lost_on_reload (now : Z) (env : Env)
  (net : Network) (code : string) (user : GoogleUser.t)
  (token : option string) (w : World) :
  getItem "temp_auth_code" w = None ->
  let w1 := GoogleAuthServiceInMemory.processAuthCode env net code w in
  let w2 := GoogleAuthServiceInMemory.setAuthenticatedUser user token w in
  let reloaded :=
    GoogleAuthServiceInMemory.constructor now env (freshLoad (localStorage w1)) in
  localStorage w1 = localStorage w
  /\ localStorage w2 = localStorage w
  /\ isSignedIn w2 = true
  /\ snd reloaded = None
  /\ isSignedIn (fst reloaded) = false
  /\ getAccessToken (fst reloaded) = None
  /\ requests (fst reloaded) = [].
Proof.
  intros Hc w1 w2 reloaded.
  assert (H1 : localStorage w1 = localStorage w).
  { subst w1. unfold GoogleAuthServiceInMemory.processAuthCode,
      GoogleAuthServiceInMemory.processAuthCode_begin.
    rewrite processAuthCode_resume_in_memory_storage. reflexivity. }
  assert (H2 : localStorage w2 = localStorage w /\ isSignedIn w2 = true).
  { subst w2. unfold GoogleAuthServiceInMemory.setAuthenticatedUser. cbn.
    destruct (truthy token); split; reflexivity. }
  destruct H2 as [H2 H3].
  assert (Hr : reloaded
               = (set_isConfigured true (freshLoad (localStorage w)), None)).
  { subst reloaded. rewrite H1.
    unfold GoogleAuthServiceInMemory.constructor,
      GoogleAuthServiceInMemory.checkForOAuthCompletion, configureGoogleSignIn.
    unfold getItem in *. cbn [freshLoad isConfigured set_isConfigured localStorage].
    rewrite Hc. reflexivity. }
  rewrite Hr. cbn. auto 10.
Qed.

Lemma in_memory_session_is_lost_on_reload_witness :
  let w1 := GoogleAuthServiceInMemory.processAuthCode Sample.env Sample.net
              "good-code" (freshLoad ∅) in
  isSignedIn w1 = true
  /\ isSignedIn
       (fst (GoogleAuthServiceInMemory.constructor Sample.recorded_at
               Sample.env (freshLoad (localStorage w1)))) = false.
Proof.
  intros w1.
  assert (Hc : getItem "temp_auth_code" (freshLoad ∅) = None)
    by (vm_compute; reflexivity).
  destruct (in_memory_session_is_lost_on_reload Sample.recorded_at Sample.env
              Sample.net "good-code" Sample.user (Some "token-1") (freshLoad ∅)
              Hc)
    as (_ & _ & _ & _ & H & _).
  split; [vm_compute; reflexivity | exact H].
Defined.

(** With no credentials configured, the variant of
    services/GoogleAuthService.ts goes on with placeholders where the other
    variant stops with an error: [signIn] sends the browser to an
    authorization address whose client id is YOUR_CLIENT_ID, and
    [processAuthCode] first sends a token request with YOUR_CLIENT_ID and
    YOUR_CLIENT_SECRET, whatever the code. *)
Theorem in_memory_placeholders (env : Env) (net : Network) (code : string)
  (w : World) :
  truthy (REACT_APP_GOOGLE_CLIENT_ID env) = false ->
  truthy (REACT_APP_GOOGLE_CLIENT_SECRET env) = false ->
  snd (GoogleAuthServiceInMemory.signIn env w)
  = Some "https://accounts.google.com/o/oauth2/v2/auth?client_id=YOUR_CLIENT_ID&redirect_uri=http%3A%2F%2Flocalhost%3A8081%2Fauth-callback.html&scope=https%3A%2F%2Fwww.googleapis.com%2Fauth%2Fdrive.readonly+https%3A%2F%2Fwww.googleapis.com%2Fauth%2Fuserinfo.email+https%3A%2F%2Fwww.googleapis.com%2Fauth%2Fuserinfo.profile&response_type=code&access_type=offline&prompt=consent&include_granted_scopes=true"
  /\ (exists later,
        requests (GoogleAuthServiceInMemory.processAuthCode env net code w)
        = (requests w
           ++ TokenRequest "YOUR_CLIENT_ID" "YOUR_CLIENT_SECRET" code
                "authorization_code" "http://localhost:8081/auth-callback.html"
              :: later)%list)
  /\ requests (processAuthCode env net code w) = requests w
  /\ snd (signIn env w) = None.
Proof.
  intros Hid Hsec.
  assert (Hd1 : GoogleAuthServiceInMemory.or_default
                  (REACT_APP_GOOGLE_CLIENT_ID env) "YOUR_CLIENT_ID"
                = "YOUR_CLIENT_ID").
  { unfold GoogleAuthServiceInMemory.or_default.
    destruct (REACT_APP_GOOGLE_CLIENT_ID env) as [x|]; [|reflexivity].
    simpl in Hid. rewrite Hid. reflexivity. }
  assert (Hd2 : GoogleAuthServiceInMemory.or_default
                  (REACT_APP_GOOGLE_CLIENT_SECRET env) "YOUR_CLIENT_SECRET"
                = "YOUR_CLIENT_SECRET").
  { unfold GoogleAuthServiceInMemory.or_default.
    destruct (REACT_APP_GOOGLE_CLIENT_SECRET env) as [x|]; [|reflexivity].
    simpl in Hsec. rewrite Hsec. reflexivity. }
  split.
  { unfold GoogleAuthServiceInMemory.signIn,
      GoogleAuthServiceInMemory.buildAuthUrl. cbn [snd]. rewrite Hd1.
    vm_compute. reflexivity. }
  split.
  { unfold GoogleAuthServiceInMemory.processAuthCode,
      GoogleAuthServiceInMemory.processAuthCode_begin. rewrite Hd1, Hd2.
    unfold GoogleAuthServiceInMemory.processAuthCode_resume.
    destruct (token_endpoint net _) as [tokenResponse|];
      [|exists []; reflexivity].
    destruct (negb (ok tokenResponse)); [exists []; reflexivity|].
    destruct (json tokenResponse) as [tokenData|]; [|exists []; reflexivity].
    cbn zeta.
    destruct (userinfo_endpoint net _) as [userInfoResponse|];
      [|eexists; cbn; rewrite <- app_assoc; reflexivity].
    destruct (ok userInfoResponse);
      [|eexists; cbn; rewrite <- app_assoc; reflexivity].
    destruct (json userInfoResponse) as [userInfo|];
      [|eexists; cbn; rewrite <- app_assoc; reflexivity].
    cbn. destruct (truthy (access_token tokenData));
      eexists; cbn; rewrite <- app_assoc; reflexivity. }
  assert (Hbegin : processAuthCode_begin env code w
                   = (console_error "Error processing OAuth completion:" w, None)).
  { unfold processAuthCode_begin.
    destruct (REACT_APP_GOOGLE_CLIENT_ID env) as [x|]; [|reflexivity].
    simpl in Hid. rewrite Hid.
    destruct (REACT_APP_GOOGLE_CLIENT_SECRET env); reflexivity. }
  split.
  { unfold processAuthCode. rewrite Hbegin. reflexivity. }
  unfold signIn, buildAuthUrl.
  destruct (REACT_APP_GOOGLE_CLIENT_ID env) as [x|]; [|reflexivity].
  simpl in Hid. rewrite Hid. reflexivity.
Qed.

Lemma in_memory_placeholders_witness :
  exists later,
    requests (GoogleAuthServiceInMemory.processAuthCode (mkEnv None None)
                Sample.net "good-code" (freshLoad ∅))
    = TokenRequest "YOUR_CLIENT_ID" "YOUR_CLIENT_SECRET" "good-code"
        "authorization_code" "http://localhost:8081/auth-callback.html"
      :: later.
Proof.
  destruct (in_memory_placeholders (mkEnv None None) Sample.net "good-code"
              (freshLoad ∅) eq_refl eq_refl) as (_ & (later & H) & _).
  exists later. exact H.
Defined.

End InMemorySession.

(** ** Lists without repeated ids *)

Section Distinct.

Import App.

Lemma dedupe_by_id_distinct (seen : list string) (l : list DrivePhoto.t) :
  NoDup (ids l) ->
  (forall s, In s (ids l) -> ~ In s seen) ->
  dedupe_by_id seen l = l.
Proof.
  revert seen. induction l as [|p l IH]; intros seen Hnd Hseen; [reflexivity|].
  simpl in *. apply NoDup_cons in Hnd as [Hp Hnd].
  destruct (existsb (String.eqb (DrivePhoto.id p)) seen) eqn:E.
  - apply existsb_eqb_In in E. exfalso. apply (Hseen (DrivePhoto.id p)); auto.
  - f_equal. apply IH; [exact Hnd|].
    intros s Hs [<-|Hin].
    + apply Hp. apply list_elem_of_In. exact Hs.
    + apply (Hseen s); auto.
Qed.

(** The removal of duplicates changes nothing on a list in which no photo id
    is repeated: when the listings of the selected folders share no photo,
    every photo listed is on display, in the order of the listings.  In
    particular, removing duplicates a second time changes nothing. *)
Theorem uniquePhotos_keeps_distinct (l : list DrivePhoto.t) :
  (NoDup (ids l) -> uniquePhotos l = l)
  /\ uniquePhotos (uniquePhotos l) = uniquePhotos l.
Proof.
  assert (H : forall l', NoDup (ids l') -> uniquePhotos l' = l').
  { intros l' Hnd. rewrite uniquePhotos_dedupe.
    apply dedupe_by_id_distinct; [exact Hnd | intros s _ []]. }
  split; [apply H|]. apply H.
  rewrite uniquePhotos_dedupe. apply dedupe_by_id_NoDup.
Qed.

End Distinct.

(** ** The connect button *)

Section Connect.

Import GoogleAuthService SettingsDialogState.


End Connect.
